(** * psycopg [_queries.py]: placeholder scanning, query assembly,
      parameter validation and the parse cache

    A shallow embedding of [psycopg/_queries.py] and the properties of its
    placeholder scanner ([_split_query]), of the two query assemblers
    ([_query2pg_nocache], [_query2pg_client_nocache]), of the parameter
    validator ([validate_and_reorder_params]) and of the cached conversion
    entry points ([PostgresQuery.convert], [PostgresClientQuery.convert]).

    Conventions of the embedding:
    - Python [bytes] are [list byte]; Python [str] are [string], read as the
      UTF-8 bytes of the text (this keeps equality and the code point order
      that [sorted] uses);
    - a raised exception is a [Raise e] result, [e] carrying the exception
      class and its message;
    - dictionaries are [gmap]s, lists updated in place use the list lookup,
      insert and delete of stdpp;
    - what the module receives from outside (the codec behind
      [bytes.decode], the value transformer, [sql.Composable]) is a variable
      of the enclosing section. *)

From Stdlib Require Import Strings.Byte Strings.String Numbers.DecimalString.
From Equations Require Import Equations.
From stdpp Require Import gmap strings list fin_maps sorting.

Abbreviation bytes := (list byte).

#[global] Instance byte_eqdec : EqDecision byte := Byte.byte_eq_dec.

(** [B "..."] is the bytes literal [b"..."]. *)
Definition B (s : string) : bytes := list_byte_of_string s.

(** ** Exceptions and results *)

Inductive exn : Type :=
| ProgrammingError (msg : string)
| TypeError (msg : string)
| UnicodeDecodeError
| UnicodeEncodeError
| KeyError (key : string)
| IndexError
| AssertionError
| AttributeError (attr : string)
| ExternalError (msg : string).

Inductive result (A : Type) : Type :=
| Ret (a : A)
| Raise (e : exn).
Arguments Ret {A} a.
Arguments Raise {A} e.

#[global] Instance result_ret : MRet result := λ A a, Ret a.
#[global] Instance result_bind : MBind result :=
  λ A B f r, match r with Ret a => f a | Raise e => Raise e end.

(** ** Data model *)

Inductive PyFormat : Type := AUTO | TEXT | BINARY.

#[global] Instance PyFormat_eqdec : EqDecision PyFormat.
Proof. solve_decision. Defined.

(** [QueryPart.item] is [int | str]. *)
Inductive Item : Type :=
| IInt (i : nat)
| IStr (name : string).

Inductive pytype : Type := TyInt | TyStr.

#[global] Instance pytype_eqdec : EqDecision pytype.
Proof. solve_decision. Defined.

Definition type_of (it : Item) : pytype :=
  match it with IInt _ => TyInt | IStr _ => TyStr end.

Record QueryPart : Type := mkQueryPart {
  pre : bytes;
  item : Item;
  format : PyFormat;
}.

(** A match object of [_re_placeholder]: its span, the whole match and the
    first group (the name between the parentheses, when that alternative
    matched). *)
Record Match : Type := mkMatch {
  m_start : nat;
  m_end : nat;
  group0 : bytes;
  group1 : option bytes;
}.

(** ** Byte constants *)

Definition pct : byte := "%"%byte.
Definition lparen : byte := "("%byte.
Definition rparen : byte := ")"%byte.
Definition newline : byte := x0a.

Definition b_pct_pct : bytes := [pct; pct].
Definition b_pct : bytes := [pct].
Definition b_pct_lparen : bytes := [pct; lparen].
Definition b_pct_space : bytes := [pct; " "%byte].
Definition b_sbt : bytes := ["s"%byte; "b"%byte; "t"%byte].
Definition b_pct_s : bytes := [pct; "s"%byte].
Definition b_pct_b : bytes := [pct; "b"%byte].
Definition b_pct_t : bytes := [pct; "t"%byte].

(** ** Python built-ins used by the module *)

(** [s[a:b]] and [s[a:]] for [0 <= a]. *)
Definition slice (s : bytes) (a b : nat) : bytes := take (b - a) (drop a s).
Definition slice_from (s : bytes) (a : nat) : bytes := drop a s.

(** [s[-1:]] *)
Definition last_byte (s : bytes) : bytes := drop (length s - 1) s.

(** [x in s] on bytes: [x] occurs in [s] as a contiguous run. *)
Fixpoint is_prefix (x s : bytes) : bool :=
  match x, s with
  | [], _ => true
  | a :: x', c :: s' => bool_decide (a = c) && is_prefix x' s'
  | _ :: _, [] => false
  end.

Fixpoint bytes_in (x s : bytes) : bool :=
  match s with
  | [] => is_prefix x []
  | _ :: s' => is_prefix x s || bytes_in x s'
  end.

(** [bytes.split()] with no separator: the runs between ASCII whitespace. *)
Definition is_space (c : byte) : bool :=
  bool_decide (c ∈ [" "%byte; x09; x0a; x0b; x0c; x0d]).

Fixpoint split_ws (cur : option bytes) (s : bytes) : list bytes :=
  match s with
  | [] => match cur with Some w => [w] | None => [] end
  | c :: s' =>
      if is_space c
      then match cur with Some w => w :: split_ws None s' | None => split_ws None s' end
      else split_ws (Some (default [] cur ++ [c])) s'
  end.

Definition bytes_split (s : bytes) : list bytes := split_ws None s.

(** [b"%d" % n] for a natural number. *)
Definition decimal (n : nat) : bytes :=
  list_byte_of_string (NilZero.string_of_uint (Nat.to_uint n)).

(** [b"$%d" % n] *)
Definition marker (n : nat) : bytes := "$"%byte :: decimal n.

(** [l[i]] raising [IndexError]. *)
Definition getitem {A} (l : list A) (i : nat) : result A :=
  match l !! i with Some a => Ret a | None => Raise IndexError end.

(** ** The regular expression [_re_placeholder]

    [% (?: (?: \( ([^)]+) \) . ) | (?:.) )], on bytes and without DOTALL:
    [.] is any byte but a newline, [[^)]+] any non-empty run of bytes other
    than [)], newlines included. *)

Definition dot (c : byte) : bool := negb (bool_decide (c = newline)).

(** The longest run of bytes other than [)], and what follows it. *)
Fixpoint span_name (s : bytes) : bytes * bytes :=
  match s with
  | [] => ([], [])
  | c :: s' =>
      if bool_decide (c = rparen) then ([], s)
      else let '(n, r) := span_name s' in (c :: n, r)
  end.

(** First alternative at a position after [%]: [\( ([^)]+) \) .].  The run
    matched by [[^)]+] is greedy, and giving bytes back can never make the
    following [\)] match, so the alternative matches exactly when the
    longest run is non-empty and is followed by [)] and a non-newline. *)
Definition match_named (s : bytes) : option (bytes * bytes) :=
  match s with
  | c :: s' =>
      if bool_decide (c = lparen) then
        match span_name s' with
        | (n, r :: f :: _) =>
            if bool_decide (n ≠ []) && bool_decide (r = rparen) && dot f
            then Some (n, [pct; lparen] ++ n ++ [rparen; f])
            else None
        | _ => None
        end
      else None
  | [] => None
  end.

(** The regular expression tried at the head of [s]: the whole match and
    group 1. *)
Definition match_here (s : bytes) : option (bytes * option bytes) :=
  match s with
  | p :: s' =>
      if bool_decide (p = pct) then
        match match_named s' with
        | Some (n, g0) => Some (g0, Some n)
        | None =>
            match s' with
            | c :: _ => if dot c then Some ([pct; c], None) else None
            | [] => None
            end
        end
      else None
  | [] => None
  end.

(** [_re_placeholder.finditer]: the non-overlapping matches from left to
    right.  [pos] is the offset of the head of [s] in the query and [skip]
    the number of bytes still covered by the previous match. *)
Fixpoint finditer_from (pos skip : nat) (s : bytes) : list Match :=
  match s with
  | [] => []
  | _ :: s' =>
      match skip with
      | S k => finditer_from (S pos) k s'
      | O =>
          match match_here s with
          | Some (g0, g1) =>
              mkMatch pos (pos + length g0) g0 g1
                :: finditer_from (S pos) (length g0 - 1) s'
          | None => finditer_from (S pos) 0 s'
          end
      end
  end.

Definition finditer (query : bytes) : list Match := finditer_from 0 0 query.

(** ** The placeholder scanner [_split_query] *)

Definition inspect {A} (a : A) : {b : A | a = b} := exist _ a eq_refl.

(** [_ph_to_fmt], a dict keyed by the one-byte format letter. *)
Definition _ph_to_fmt (k : bytes) : result PyFormat :=
  if decide (k = ["s"%byte]) then Ret AUTO
  else if decide (k = ["t"%byte]) then Ret TEXT
  else if decide (k = ["b"%byte]) then Ret BINARY
  else Raise (KeyError (string_of_list_byte k)).

(** The first loop of [_split_query]: the pairs [(fragment, match)], closed
    by the fragment after the last match paired with [None]. *)
Definition first_pass (query : bytes) : list (bytes * option Match) :=
  let '(parts, cur, m) :=
    foldl (λ '(parts, cur, _) m,
             (parts ++ [(slice query cur (m_start m), Some m)], m_end m, Some m))
          ([], 0, None) (finditer query) in
  match m with
  | Some _ => parts ++ [(slice_from query cur, None)]
  | None => parts ++ [(query, None)]
  end.

Definition msg_incomplete (frag : string) : string :=
  "incomplete placeholder: '" +:+ frag +:+ "'".
Definition msg_incomplete_percent : string :=
  "incomplete placeholder: '%'; if you want to use '%' as an operator you can double it up, i.e. use '%%'".
Definition msg_unsupported (ph : string) : string :=
  "only '%s', '%b', '%t' are allowed as placeholders, got '" +:+ ph +:+ "'".
Definition msg_mixed : string :=
  "positional and named placeholders cannot be mixed".
Definition msg_formats (name : string) : string :=
  "placeholder '" +:+ name +:+ "' cannot have different formats".

(** Messages of the parameter validator. *)
Definition str_of_Z (z : Z) : string := NilZero.string_of_int (Z.to_int z).
Definition str_of_nat (n : nat) : string := NilZero.string_of_uint (Nat.to_uint n).

Definition msg_count (placeholders : Z) (passed : nat) : string :=
  "the query has " +:+ str_of_Z placeholders +:+ " placeholders but "
    +:+ str_of_nat passed +:+ " parameters were passed".
Definition msg_need_mapping : string :=
  "named placeholders require a mapping of parameters".
Definition msg_need_sequence : string :=
  "positional placeholders (%s) require a sequence of parameters".
Definition msg_bad_params (type_name : string) : string :=
  "query parameters should be a sequence or a mapping, got " +:+ type_name.
Definition msg_no_len (type_name : string) : string :=
  "object of type '" +:+ type_name +:+ "' has no len()".

(** [sorted] on a list of [str]. *)
Definition str_le (a b : string) : Prop := String.leb a b = true.

#[global] Instance str_le_dec : RelDecision str_le :=
  λ a b, decide (String.leb a b = true).

#[global] Instance str_le_total : Total str_le.
Proof. intros a b. apply String.leb_total. Qed.

Definition sorted (l : list string) : list string := merge_sort str_le l.

Definition msg_missing (missing : list string) : string :=
  "query parameter missing: " +:+ String.concat ", " (sorted missing).

(** [isinstance(x, int)], [isinstance(x, str)] on an item. *)
Definition is_int (it : Item) : bool :=
  match it with IInt _ => true | IStr _ => false end.
Definition is_str (it : Item) : bool :=
  match it with IStr _ => true | IInt _ => false end.

(** ** [functools.lru_cache]

    The entries are kept most recently used first; a call that raises
    stores nothing. *)
Record lru_cache (K R : Type) : Type := mk_lru {
  cache : list (K * R);
  hits : nat;
  misses : nat;
  maxsize : nat;
}.
Arguments mk_lru {K R}.
Arguments cache {K R}.
Arguments hits {K R}.
Arguments misses {K R}.
Arguments maxsize {K R}.

(** [lru_cache()]: the default [maxsize]. *)
Definition lru_new {K R} : lru_cache K R := mk_lru [] 0 0 128.

Definition lru_call {K R} `{EqDecision K} (f : K → result R)
    (c : lru_cache K R) (k : K) : result R * lru_cache K R :=
  match list_find (λ e, e.1 = k) (cache c) with
  | Some (i, (_, r)) =>
      (Ret r, mk_lru ((k, r) :: delete i (cache c)) (S (hits c)) (misses c) (maxsize c))
  | None =>
      match f k with
      | Ret r =>
          (Ret r, mk_lru (take (maxsize c) ((k, r) :: cache c)) (hits c)
                         (S (misses c)) (maxsize c))
      | Raise e => (Raise e, mk_lru (cache c) (hits c) (S (misses c)) (maxsize c))
      end
  end.

Definition MAX_CACHED_STATEMENT_LENGTH : nat := 4096.
Definition MAX_CACHED_STATEMENT_PARAMS : nat := 50.

(** [pq.Format] *)
Inductive pqFormat : Type := pqTEXT | pqBINARY.

(** What the assemblers return. *)
Abbreviation Query2Pg :=
  (bytes * list PyFormat * option (list string) * list QueryPart)%type.
Abbreviation Query2PgClient :=
  (bytes * option (list string) * list QueryPart)%type.

(** The module-level caches behind [_query2pg] and [_query2pg_client]. *)
Record caches : Type := mk_caches {
  _query2pg_cache : lru_cache (bytes * string) Query2Pg;
  _query2pg_client_cache : lru_cache (bytes * string) Query2PgClient;
}.

Definition caches_new : caches := mk_caches lru_new lru_new.

(** The attributes of a [PostgresQuery] (and the [template] slot of a
    [PostgresClientQuery]); [None] in [self__parts] and [self_template] is a
    slot that was never assigned. *)
Record PostgresQuery : Type := mk_PostgresQuery {
  self_query : bytes;
  self_params : option (list (option bytes));
  self_types : list Z;
  self_formats : option (list pqFormat);
  self__want_formats : option (list PyFormat);
  self__order : option (list string);
  self__parts : option (list QueryPart);
  self__encoding : string;
  self_template : option bytes;
}.

(** [PostgresQuery.__init__], with the connection's encoding. *)
Definition __init__ (encoding : string) : PostgresQuery :=
  {| self_query := []; self_params := None; self_types := [];
     self_formats := None; self__want_formats := None; self__order := None;
     self__parts := None; self__encoding := encoding; self_template := None |}.

(** ** An instance of the collaborators

    The ASCII codec, integer parameters written in decimal, no
    [sql.Composable], and the [%] operator of bytes for the conversions
    [%s] and [%%]. *)
Definition is_ascii (b : bytes) : bool :=
  forallb (λ c, Byte.to_nat c <? 128) b.

Definition ascii_decode (encoding : string) (b : bytes) : option string :=
  if is_ascii b then Some (string_of_list_byte b) else None.

Definition ascii_encode (encoding : string) (s : string) : option bytes :=
  if is_ascii (list_byte_of_string s) then Some (list_byte_of_string s)
  else None.

Definition no_as_bytes (c : Empty_set) : result bytes :=
  match c with end.

Definition int_literal (z : Z) : result bytes := Ret (B (str_of_Z z)).

Definition int_is_None (z : Z) : bool := false.

Definition int_dump_sequence (params : list Z) (formats : list PyFormat)
    : result (list (option bytes) * option (list Z) * option (list pqFormat)) :=
  Ret ((λ z, Some (B (str_of_Z z))) <$> params,
       Some ((λ _, 20%Z) <$> params),
       Some ((λ _, pqTEXT) <$> params)).

Fixpoint percent_format (template : bytes) (args : list bytes)
    : result bytes :=
  match template with
  | [] =>
      match args with
      | [] => Ret []
      | _ :: _ =>
          Raise (TypeError "not all arguments converted during bytes formatting")
      end
  | c :: template' =>
      if bool_decide (c = pct) then
        match template' with
        | [] => Raise (ExternalError "incomplete format")
        | d :: template'' =>
            if bool_decide (d = pct) then
              r ← percent_format template'' args; Ret (pct :: r)
            else if bool_decide (d = "s"%byte) then
              match args with
              | [] => Raise (TypeError "not enough arguments for format string")
              | a :: args' => r ← percent_format template'' args'; Ret (a ++ r)
              end
            else Raise (ExternalError "unsupported format character")
        end
      else r ← percent_format template' args; Ret (c :: r)
  end.

(** The queries of the scenarios of the specification. *)
Definition scenario_A : bytes := B "SELECT * FROM t WHERE a = %s AND b = %s".
Definition scenario_B : bytes := B "SELECT %(a)s, %(a)s, %(b)t".
Definition scenario_C : bytes := B "INSERT INTO t VALUES (%s)".
Definition scenario_D : bytes := B "SELECT %(a)s".
Definition scenario_E : bytes := B "100%% done: %s".

Section Queries.

(** The codec: [decode encoding b] is [b.decode(encoding)], [None] when it
    raises [UnicodeDecodeError]. *)
Variable decode : string → bytes → option string.

Definition bytes_decode (b : bytes) (encoding : string) : result string :=
  match decode encoding b with
  | Some s => Ret s
  | None => Raise UnicodeDecodeError
  end.

(** The second loop of [_split_query], [while i < len(parts)], on the list
    [parts] that the loop updates in place.  An iteration either leaves the
    loop, or deletes an entry of [parts] keeping [i], or keeps [parts] and
    increments [i]: [len(parts) - i] decreases. *)
Equations? split_loop (query : bytes) (encoding : string)
    (collapse_double_percent : bool)
    (parts : list (bytes * option Match)) (i : nat) (phtype : option pytype)
    (rv : list QueryPart) : result (list QueryPart)
    by wf (length parts - i) lt :=
split_loop query encoding collapse_double_percent parts i phtype rv
    with inspect (parts !! i) := {
  | exist _ None _ => Ret rv
  | exist _ (Some (pre, None)) _ => Ret (rv ++ [mkQueryPart pre (IInt 0) AUTO])
  | exist _ (Some (pre, Some m)) H =>
      let ph := group0 m in
      if decide (ph = b_pct_pct) then
        let ph := if collapse_double_percent then b_pct else ph in
        match parts !! (S i) with
        | None => Raise IndexError
        | Some (pre1, m1) =>
            split_loop query encoding collapse_double_percent
              (delete i (<[S i := (pre ++ ph ++ pre1, m1)]> parts)) i phtype rv
        end
      else if decide (ph = b_pct_lparen) then
        w ← getitem (bytes_split (slice_from query (m_start m))) 0;
        frag ← bytes_decode w encoding;
        Raise (ProgrammingError (msg_incomplete frag))
      else if decide (ph = b_pct_space) then
        Raise (ProgrammingError msg_incomplete_percent)
      else if negb (bytes_in (last_byte ph) b_sbt) then
        got ← bytes_decode (group0 m) encoding;
        Raise (ProgrammingError (msg_unsupported got))
      else
        it ← match group1 m with
             | Some (c :: n) => name ← bytes_decode (c :: n) encoding; Ret (IStr name)
             | _ => Ret (IInt i)
             end;
        phtype' ← match phtype with
                  | None => Ret (Some (type_of it))
                  | Some t =>
                      if decide (t = type_of it) then Ret phtype
                      else Raise (ProgrammingError msg_mixed)
                  end;
        fmt ← _ph_to_fmt (last_byte ph);
        split_loop query encoding collapse_double_percent parts (S i) phtype'
          (rv ++ [mkQueryPart pre it fmt]) }.
Proof.
  all: apply lookup_lt_Some in H.
  - rewrite length_delete, length_insert; [lia|].
    apply lookup_lt_is_Some. rewrite length_insert. lia.
  - lia.
Qed.

Definition _split_query (query : bytes) (encoding : string)
    (collapse_double_percent : bool) : result (list QueryPart) :=
  split_loop query encoding collapse_double_percent (first_pass query) 0 None [].

(** ** The server-bind assembler [_query2pg_nocache] *)

(** [parts[:-1]] and [parts[-1]]. *)
Definition but_last {A} (l : list A) : list A := take (length l - 1) l.

Definition getitem_last {A} (l : list A) : result A :=
  match last l with Some a => Ret a | None => Raise IndexError end.

(** The loop of the positional branch, on the lists [chunks] and [formats]
    it appends to. *)
Fixpoint pg_positional (ps : list QueryPart) (chunks : list bytes)
    (formats : list PyFormat) : result (list bytes * list PyFormat) :=
  match ps with
  | [] => Ret (chunks, formats)
  | part :: ps' =>
      match item part with
      | IInt i =>
          pg_positional ps' (chunks ++ [pre part] ++ [marker (i + 1)])
            (formats ++ [format part])
      | IStr _ => Raise AssertionError
      end
  end.

(** The loop of the named branch, with the dict [seen] and the list
    [order]. *)
Fixpoint pg_named (ps : list QueryPart) (chunks : list bytes)
    (formats : list PyFormat) (seen : gmap string (bytes * PyFormat))
    (order : list string)
    : result (list bytes * list PyFormat * list string) :=
  match ps with
  | [] => Ret (chunks, formats, order)
  | part :: ps' =>
      match item part with
      | IInt _ => Raise AssertionError
      | IStr name =>
          let chunks := chunks ++ [pre part] in
          match seen !! name with
          | None =>
              let ph := marker (size seen + 1) in
              pg_named ps' (chunks ++ [ph]) (formats ++ [format part])
                (<[name := (ph, format part)]> seen) (order ++ [name])
          | Some (ph, fmt) =>
              if decide (fmt ≠ format part)
              then Raise (ProgrammingError (msg_formats name))
              else pg_named ps' (chunks ++ [ph]) formats seen order
          end
      end
  end.

Definition _query2pg_nocache (query : bytes) (encoding : string)
    : result (bytes * list PyFormat * option (list string) * list QueryPart) :=
  parts ← _split_query query encoding true;
  p0 ← getitem parts 0;
  '(chunks, formats, order) ←
    match item p0 with
    | IInt _ =>
        '(chunks, formats) ← pg_positional (but_last parts) [] [];
        Ret (chunks, formats, None)
    | IStr _ =>
        '(chunks, formats, order) ← pg_named (but_last parts) [] [] ∅ [];
        Ret (chunks, formats, Some order)
    end;
  lastp ← getitem_last parts;
  Ret (concat (chunks ++ [pre lastp]), formats, order, parts).

(** ** The client-bind assembler [_query2pg_client_nocache] *)

Fixpoint client_positional (ps : list QueryPart) (chunks : list bytes)
    : result (list bytes) :=
  match ps with
  | [] => Ret chunks
  | part :: ps' =>
      match item part with
      | IInt _ => client_positional ps' (chunks ++ [pre part] ++ [b_pct_s])
      | IStr _ => Raise AssertionError
      end
  end.

Fixpoint client_named (ps : list QueryPart) (chunks : list bytes)
    (seen : gmap string (bytes * PyFormat)) (order : list string)
    : result (list bytes * list string) :=
  match ps with
  | [] => Ret (chunks, order)
  | part :: ps' =>
      match item part with
      | IInt _ => Raise AssertionError
      | IStr name =>
          let chunks := chunks ++ [pre part] in
          match seen !! name with
          | None =>
              let ph := b_pct_s in
              client_named ps' (chunks ++ [ph])
                (<[name := (ph, format part)]> seen) (order ++ [name])
          | Some (ph, _) =>
              client_named ps' (chunks ++ [ph]) seen (order ++ [name])
          end
      end
  end.

Definition _query2pg_client_nocache (query : bytes) (encoding : string)
    : result (bytes * option (list string) * list QueryPart) :=
  parts ← _split_query query encoding false;
  p0 ← getitem parts 0;
  '(chunks, order) ←
    match item p0 with
    | IInt _ =>
        chunks ← client_positional (but_last parts) [];
        Ret (chunks, None)
    | IStr _ =>
        '(chunks, order) ← client_named (but_last parts) [] ∅ [];
        Ret (chunks, Some order)
    end;
  lastp ← getitem_last parts;
  Ret (concat (chunks ++ [pre lastp]), order, parts).

(** ** Parameters and [validate_and_reorder_params] *)

(** The Python values passed as parameters. *)
Variable V : Type.

(** [Params | None] is [option Params].  A value that is neither a sequence
    nor a mapping ([bytes] and [str] included) is [POther], with the name of
    its type and its [len()] when it has one. *)
Inductive Params : Type :=
| PSeq (l : list V)
| PMap (m : gmap string V)
| POther (type_name : string) (len : option nat).

(** [len(vars)] *)
Definition len_params (vars : Params) : result nat :=
  match vars with
  | PSeq l => Ret (length l)
  | PMap m => Ret (size m)
  | POther _ (Some n) => Ret n
  | POther t None => Raise (TypeError (msg_no_len t))
  end.

(** [is_params_sequence] is a type guard: [inl] is [True] with [vars] seen
    as a sequence, [inr] is [False] with [vars] seen as a mapping. *)
Definition is_params_sequence (vars : Params)
    : result (list V + gmap string V) :=
  match vars with
  | PSeq l => Ret (inl l)
  | PMap m => Ret (inr m)
  | POther t _ => Raise (TypeError (msg_bad_params t))
  end.

Definition validate_and_reorder_params (parts : list QueryPart)
    (vars : Params) (order : option (list string)) : result (list V) :=
  sequence ← is_params_sequence vars;
  match sequence with
  | inl vars =>
      if decide (Z.of_nat (length vars) ≠ (Z.of_nat (length parts) - 1)%Z)
      then Raise (ProgrammingError
                    (msg_count (Z.of_nat (length parts) - 1) (length vars)))
      else if bool_decide (vars ≠ []) then
        p0 ← getitem parts 0;
        if negb (is_int (item p0)) then Raise (TypeError msg_need_mapping)
        else Ret vars
      else Ret vars
  | inr vars =>
      _ ← (if bool_decide (vars ≠ ∅) && bool_decide (1 < length parts) then
             p0 ← getitem parts 0;
             if negb (is_str (item p0)) then Raise (TypeError msg_need_sequence)
             else Ret ()
           else Ret ());
      match order with
      | Some (o :: os) =>
          match mapM (λ item, vars !! item) (o :: os) with
          | Some params => Ret params
          | None =>
              Raise (ProgrammingError
                       (msg_missing (filter (λ i, vars !! i = None) (o :: os))))
          end
      | _ => Ret []
      end
  end.

(** ** The cached assemblers and the two query classes

    The methods act on the object and on the module caches: a computation
    takes both and returns them with its result; what was assigned before
    an exception stays assigned. *)

Definition M (A : Type) : Type :=
  PostgresQuery * caches → result A * (PostgresQuery * caches).

#[local] Instance M_ret : MRet M := λ A a w, (Ret a, w).
#[local] Instance M_bind : MBind M := λ A B k m w,
  match m w with
  | (Ret a, w') => k a w'
  | (Raise e, w') => (Raise e, w')
  end.

Definition lift {A} (r : result A) : M A := λ w, (r, w).
Definition get_self : M PostgresQuery := λ w, (Ret w.1, w).
Definition set_self (f : PostgresQuery → PostgresQuery) : M () :=
  λ w, (Ret (), (f w.1, w.2)).

(** Reading a slot. *)
Definition getattr {A} (name : string) (slot : option A) : result A :=
  match slot with Some a => Ret a | None => Raise (AttributeError name) end.

Definition set_query (x : bytes) (o : PostgresQuery) : PostgresQuery :=
  mk_PostgresQuery x (self_params o) (self_types o) (self_formats o)
    (self__want_formats o) (self__order o) (self__parts o) (self__encoding o)
    (self_template o).
Definition set_params (x : option (list (option bytes))) (o : PostgresQuery)
    : PostgresQuery :=
  mk_PostgresQuery (self_query o) x (self_types o) (self_formats o)
    (self__want_formats o) (self__order o) (self__parts o) (self__encoding o)
    (self_template o).
Definition set_types (x : list Z) (o : PostgresQuery) : PostgresQuery :=
  mk_PostgresQuery (self_query o) (self_params o) x (self_formats o)
    (self__want_formats o) (self__order o) (self__parts o) (self__encoding o)
    (self_template o).
Definition set_formats (x : option (list pqFormat)) (o : PostgresQuery)
    : PostgresQuery :=
  mk_PostgresQuery (self_query o) (self_params o) (self_types o) x
    (self__want_formats o) (self__order o) (self__parts o) (self__encoding o)
    (self_template o).
Definition set__want_formats (x : option (list PyFormat)) (o : PostgresQuery)
    : PostgresQuery :=
  mk_PostgresQuery (self_query o) (self_params o) (self_types o)
    (self_formats o) x (self__order o) (self__parts o) (self__encoding o)
    (self_template o).
Definition set__order (x : option (list string)) (o : PostgresQuery)
    : PostgresQuery :=
  mk_PostgresQuery (self_query o) (self_params o) (self_types o)
    (self_formats o) (self__want_formats o) x (self__parts o)
    (self__encoding o) (self_template o).
Definition set__parts (x : list QueryPart) (o : PostgresQuery)
    : PostgresQuery :=
  mk_PostgresQuery (self_query o) (self_params o) (self_types o)
    (self_formats o) (self__want_formats o) (self__order o) (Some x)
    (self__encoding o) (self_template o).
Definition set_template (x : bytes) (o : PostgresQuery) : PostgresQuery :=
  mk_PostgresQuery (self_query o) (self_params o) (self_types o)
    (self_formats o) (self__want_formats o) (self__order o) (self__parts o)
    (self__encoding o) (Some x).

(** [_query2pg = lru_cache()(_query2pg_nocache)] and
    [_query2pg_client = lru_cache()(_query2pg_client_nocache)], each on its
    own cache. *)
Definition _query2pg (query : bytes) (encoding : string) : M Query2Pg :=
  λ w,
    let '(r, c) := lru_call (λ k, _query2pg_nocache k.1 k.2)
                     (_query2pg_cache w.2) (query, encoding) in
    (r, (w.1, mk_caches c (_query2pg_client_cache w.2))).

Definition _query2pg_client (query : bytes) (encoding : string)
    : M Query2PgClient :=
  λ w,
    let '(r, c) := lru_call (λ k, _query2pg_client_nocache k.1 k.2)
                     (_query2pg_client_cache w.2) (query, encoding) in
    (r, (w.1, mk_caches (_query2pg_cache w.2) c)).

(** The collaborators: [sql.Composable], [str.encode] ([None] when it raises [UnicodeEncodeError]), the transformer
    ([dump_sequence] with the [types] and [formats] it leaves on the
    transformer, [as_literal]), the test [p is None] and the [%] operator of
    [bytes]. *)
Variable Composable : Type.
Variable encode : string → string → option bytes.
Variable as_bytes : Composable → result bytes.
Variable dump_sequence :
  list V → list PyFormat →
  result (list (option bytes) * option (list Z) * option (list pqFormat)).
Variable is_None : V → bool.
Variable as_literal : V → result bytes.
Variable bytes_mod : bytes → list bytes → result bytes.

Inductive Query : Type :=
| QStr (s : string)
| QComposable (c : Composable)
| QBytes (b : bytes).

(** The head of both [convert] methods: the query as bytes. *)
Definition bquery_of (encoding : string) (query : Query) : result bytes :=
  match query with
  | QStr s => match encode encoding s with
              | Some b => Ret b
              | None => Raise UnicodeEncodeError
              end
  | QComposable c => as_bytes c
  | QBytes b => Ret b
  end.

(** [len(bquery) <= MAX_CACHED_STATEMENT_LENGTH and
     len(vars) <= MAX_CACHED_STATEMENT_PARAMS] *)
Definition cacheable (bquery : bytes) (vars : Params) : result bool :=
  if bool_decide (length bquery ≤ MAX_CACHED_STATEMENT_LENGTH) then
    n ← len_params vars;
    Ret (bool_decide (n ≤ MAX_CACHED_STATEMENT_PARAMS))
  else Ret false.

Definition PostgresQuery_dump (vars : option Params) : M () :=
  match vars with
  | Some vars =>
      self ← get_self;
      parts ← lift (getattr "_parts" (self__parts self));
      params ← lift (validate_and_reorder_params parts vars (self__order self));
      want ← lift (match self__want_formats self with
                   | Some w => Ret w
                   | None => Raise AssertionError
                   end);
      '(dumped, tx_types, tx_formats) ← lift (dump_sequence params want);
      set_self (set_params (Some dumped));;
      set_self (set_types (default [] tx_types));;
      set_self (set_formats tx_formats)
  | None =>
      set_self (set_params None);;
      set_self (set_types []);;
      set_self (set_formats None)
  end.

Definition PostgresQuery_convert (query : Query) (vars : option Params)
    : M () :=
  self ← get_self;
  bquery ← lift (bquery_of (self__encoding self) query);
  match vars with
  | Some v =>
      cached ← lift (cacheable bquery v);
      '(q, want, order, parts) ←
        (if cached : bool then _query2pg bquery (self__encoding self)
         else lift (_query2pg_nocache bquery (self__encoding self)));
      set_self (set_query q);;
      set_self (set__want_formats (Some want));;
      set_self (set__order order);;
      set_self (set__parts parts)
  | None =>
      set_self (set_query bquery);;
      set_self (set__want_formats None);;
      set_self (set__order None)
  end;;
  PostgresQuery_dump vars.

Definition PostgresClientQuery_dump (vars : option Params) : M () :=
  match vars with
  | Some vars =>
      self ← get_self;
      parts ← lift (getattr "_parts" (self__parts self));
      params ← lift (validate_and_reorder_params parts vars (self__order self));
      literals ← lift (mapM (λ p, if is_None p then Ret (B "NULL")
                                  else as_literal p) params);
      set_self (set_params (Some (Some <$> literals)));;
      template ← lift (getattr "template" (self_template self));
      q ← lift (bytes_mod template literals);
      set_self (set_query q)
  | None => set_self (set_params None)
  end.

Definition PostgresClientQuery_convert (query : Query) (vars : option Params)
    : M () :=
  self ← get_self;
  bquery ← lift (bquery_of (self__encoding self) query);
  match vars with
  | Some v =>
      cached ← lift (cacheable bquery v);
      '(template, order, parts) ←
        (if cached : bool then _query2pg_client bquery (self__encoding self)
         else lift (_query2pg_client_nocache bquery (self__encoding self)));
      set_self (set_template template);;
      set_self (set__order order);;
      set_self (set__parts parts)
  | None =>
      set_self (set_query bquery);;
      set_self (set__order None)
  end;;
  PostgresClientQuery_dump vars.

(** ** The scanner, by recursion on the pairs of the first loop

    [tokens query] are the pairs [(fragment, match)] of the first loop and
    [trailer query] the fragment after the last match.  [scan] is the second
    loop read off the pairs that are still to visit: [carry] is what the
    [%%] escapes met since the last placeholder have put in front of the
    next fragment. *)

Fixpoint pair_matches (query : bytes) (cur : nat) (ms : list Match)
    : list (bytes * Match) :=
  match ms with
  | [] => []
  | m :: ms' => (slice query cur (m_start m), m) :: pair_matches query (m_end m) ms'
  end.

Definition tokens (query : bytes) : list (bytes * Match) :=
  pair_matches query 0 (finditer query).

Definition trailer (query : bytes) : bytes :=
  slice_from query (foldl (λ _ m, m_end m) 0 (finditer query)).

Definition close (toks : list (bytes * Match)) (last : bytes)
    : list (bytes * option Match) :=
  ((λ t, (t.1, Some t.2)) <$> toks) ++ [(last, None)].

(** The item of a placeholder, [m.group(1).decode(encoding) if m.group(1)
    else i], and the check of its type against [phtype]. *)
Definition item_of (encoding : string) (m : Match) (i : nat) : result Item :=
  match group1 m with
  | Some (c :: n) => name ← bytes_decode (c :: n) encoding; Ret (IStr name)
  | _ => Ret (IInt i)
  end.

Definition check_phtype (phtype : option pytype) (it : Item)
    : result (option pytype) :=
  match phtype with
  | None => Ret (Some (type_of it))
  | Some t =>
      if decide (t = type_of it) then Ret phtype
      else Raise (ProgrammingError msg_mixed)
  end.

(** The body of one iteration of [split_loop], [x] being [parts[i]]. *)
Definition loop_step (query : bytes) (encoding : string) (collapse : bool)
    (parts : list (bytes * option Match)) (i : nat) (phtype : option pytype)
    (rv : list QueryPart) (x : option (bytes * option Match))
    : result (list QueryPart) :=
  match x with
  | None => Ret rv
  | Some (pre, None) => Ret (rv ++ [mkQueryPart pre (IInt 0) AUTO])
  | Some (pre, Some m) =>
      let ph := group0 m in
      if decide (ph = b_pct_pct) then
        let ph := if collapse then b_pct else ph in
        match parts !! (S i) with
        | None => Raise IndexError
        | Some (pre1, m1) =>
            split_loop query encoding collapse
              (delete i (<[S i := (pre ++ ph ++ pre1, m1)]> parts)) i phtype rv
        end
      else if decide (ph = b_pct_lparen) then
        w ← getitem (bytes_split (slice_from query (m_start m))) 0;
        frag ← bytes_decode w encoding;
        Raise (ProgrammingError (msg_incomplete frag))
      else if decide (ph = b_pct_space) then
        Raise (ProgrammingError msg_incomplete_percent)
      else if negb (bytes_in (last_byte ph) b_sbt) then
        got ← bytes_decode (group0 m) encoding;
        Raise (ProgrammingError (msg_unsupported got))
      else
        it ← item_of encoding m i;
        phtype' ← check_phtype phtype it;
        fmt ← _ph_to_fmt (last_byte ph);
        split_loop query encoding collapse parts (S i) phtype'
          (rv ++ [mkQueryPart pre it fmt])
  end.

Fixpoint scan (query : bytes) (encoding : string) (collapse : bool)
    (carry : bytes) (toks : list (bytes * Match)) (last : bytes) (i : nat)
    (phtype : option pytype) : result (list QueryPart) :=
  match toks with
  | [] => Ret [mkQueryPart (carry ++ last) (IInt 0) AUTO]
  | (pre0, m) :: toks' =>
      let pre := carry ++ pre0 in
      let ph := group0 m in
      if decide (ph = b_pct_pct) then
        scan query encoding collapse
          (pre ++ (if collapse then b_pct else ph)) toks' last i phtype
      else if decide (ph = b_pct_lparen) then
        w ← getitem (bytes_split (slice_from query (m_start m))) 0;
        frag ← bytes_decode w encoding;
        Raise (ProgrammingError (msg_incomplete frag))
      else if decide (ph = b_pct_space) then
        Raise (ProgrammingError msg_incomplete_percent)
      else if negb (bytes_in (last_byte ph) b_sbt) then
        got ← bytes_decode (group0 m) encoding;
        Raise (ProgrammingError (msg_unsupported got))
      else
        it ← item_of encoding m i;
        phtype' ← check_phtype phtype it;
        fmt ← _ph_to_fmt (last_byte ph);
        tl ← scan query encoding collapse [] toks' last (S i) phtype';
        Ret (mkQueryPart pre it fmt :: tl)
  end.

(** The pairs still to visit, the first fragment carrying [carry]. *)
Definition with_carry (carry : bytes) (l : list (bytes * option Match))
    : list (bytes * option Match) :=
  match l with
  | [] => []
  | (p, m) :: r => (carry ++ p, m) :: r
  end.

(** ** Specification of the scanner's fragments

    The fragments of a scanned query: the text between two placeholders,
    each [%%] met on the way written as [%] (collapsing) or left as [%%]. *)
Fixpoint segments (collapse : bool) (carry : bytes)
    (toks : list (bytes * Match)) (last : bytes) : list bytes :=
  match toks with
  | [] => [carry ++ last]
  | (pre0, m) :: toks' =>
      if decide (group0 m = b_pct_pct)
      then segments collapse
             ((carry ++ pre0) ++ (if collapse then b_pct else b_pct_pct))
             toks' last
      else (carry ++ pre0) :: segments collapse [] toks' last
  end.

(** Fragments and markers, alternating, glued together. *)
Fixpoint weave (segs marks : list bytes) : bytes :=
  match segs, marks with
  | [], _ => []
  | seg :: _, [] => seg
  | seg :: segs', mk :: marks' => seg ++ mk ++ weave segs' marks'
  end.

(** ** Specification of the positional rewriting

    Stated on the matches of the query, left to right: a [%%] is written
    [%] and does not count, the [n]-th placeholder is written [$n]. *)
Fixpoint render_positional (toks : list (bytes * Match)) (last : bytes)
    (n : nat) : bytes :=
  match toks with
  | [] => last
  | (pre0, m) :: toks' =>
      if decide (group0 m = b_pct_pct)
      then pre0 ++ b_pct ++ render_positional toks' last n
      else pre0 ++ marker n ++ render_positional toks' last (S n)
  end.

(** The format a placeholder asks for, by its letter. *)
Definition letter_format (g : bytes) : PyFormat :=
  if decide (last_byte g = ["t"%byte]) then TEXT
  else if decide (last_byte g = ["b"%byte]) then BINARY
  else AUTO.

Definition is_escape (t : bytes * Match) : Prop := group0 t.2 = b_pct_pct.

#[global] Instance is_escape_dec t : Decision (is_escape t).
Proof. unfold is_escape. apply _. Defined.

(** The placeholders among the matches: all but the [%%]. *)
Definition placeholders (toks : list (bytes * Match)) : list (bytes * Match) :=
  filter (λ t, ¬ is_escape t) toks.

Definition formats_positional (toks : list (bytes * Match)) : list PyFormat :=
  (λ t, letter_format (group0 t.2)) <$> placeholders toks.

(** A query with positional placeholders only: every match of the regular
    expression is [%%], [%s], [%b] or [%t]. *)
Definition positional_only (query : bytes) : Prop :=
  Forall (λ m, group0 m ∈ [b_pct_pct; b_pct_s; b_pct_b; b_pct_t])
         (finditer query).

Definition item_index (it : Item) : nat :=
  match it with IInt i => i | IStr _ => 0 end.

(** ** Specification of the named rewriting

    Stated on the occurrences of the named placeholders, left to right,
    each with its name and the format it asks for. *)
Definition name_of (p : QueryPart) : string :=
  match item p with IStr n => n | IInt _ => "" end.

Definition occurrences (body : list QueryPart) : list (string * PyFormat) :=
  (λ p, (name_of p, format p)) <$> body.

(** The names of a list, each once, in the order of their first
    occurrence. *)
Fixpoint distinct (l : list string) : list string :=
  match l with
  | [] => []
  | x :: l' => x :: filter (λ y, y ≠ x) (distinct l')
  end.

(** The format of the first occurrence of a name. *)
Fixpoint first_format (occs : list (string * PyFormat)) (n : string)
    : option PyFormat :=
  match occs with
  | [] => None
  | (n', f) :: occs' => if decide (n = n') then Some f else first_format occs' n
  end.

(** Some occurrence asks for another format than the first occurrence of
    its name. *)
Definition conflict (occs : list (string * PyFormat)) : Prop :=
  Exists (λ o, first_format occs o.1 ≠ Some o.2) occs.

#[global] Instance conflict_dec occs : Decision (conflict occs).
Proof. unfold conflict. apply _. Defined.

Fixpoint index_of (x : string) (l : list string) : option nat :=
  match l with
  | [] => None
  | y :: l' => if decide (x = y) then Some 0 else S <$> index_of x l'
  end.

(** The marker of a named placeholder: [$N], [N] the rank (from 1) of its
    name in [order]. *)
Definition named_marker (order : list string) (p : QueryPart) : bytes :=
  marker (default 0 (index_of (name_of p) order) + 1).

(** A query with named placeholders, as the assemblers test it on the
    scanned parts: the item of the first part is a name. *)
Definition named (parts : list QueryPart) : Prop :=
  ∃ p0, parts !! 0 = Some p0 ∧ type_of (item p0) = TyStr.

(** The state of the named loop of [_query2pg_nocache] after the
    occurrences [occs]. *)
Definition seen_inv (seen : gmap string (bytes * PyFormat))
    (order : list string) (fmts : list PyFormat)
    (occs : list (string * PyFormat)) : Prop :=
  order = distinct occs.*1 ∧
  ¬ conflict occs ∧
  size seen = length order ∧
  Forall2 (λ n f, first_format occs n = Some f) order fmts ∧
  ∀ n, seen !! n
       = (idx ← index_of n order; f ← first_format occs n;
          Some (marker (idx + 1), f)).

(** A query with positional placeholders, as the validator tests it on
    the scanned parts: there is a placeholder and the item of the first part
    is an index. *)
Definition positional (parts : list QueryPart) : Prop :=
  1 < length parts ∧ ∃ p0, parts !! 0 = Some p0 ∧ type_of (item p0) = TyInt.

(** ** The states of the caches and of the query objects *)

(** Every entry of a cache holds what the cached function returns. *)
Definition lru_coherent {K R} (f : K → result R) (c : lru_cache K R) : Prop :=
  ∀ k r, (k, r) ∈ cache c → f k = Ret r.

(** The calls a cache has seen, [hits + misses] of its [cache_info()]. *)
Definition calls {K R} (c : lru_cache K R) : nat := hits c + misses c.

(** One call of the cached function on the key [k] has taken the cache from
    [c] to [c']: it was a hit when [k] was stored and a miss otherwise, it
    has left what [f] returns for [k] as the most recent entry, and it has
    stored nothing when [f] raises. *)
Definition memoized {K R} (f : K → result R) (k : K)
    (c c' : lru_cache K R) : Prop :=
  ((∃ x, (k, x) ∈ cache c) →
   hits c' = S (hits c) ∧ misses c' = misses c) ∧
  ((∀ x, (k, x) ∉ cache c) →
   hits c' = hits c ∧ misses c' = S (misses c)) ∧
  match f k with
  | Ret x => head (cache c') = Some (k, x)
  | Raise _ => cache c' = cache c
  end.

(** The caches the module can hold: new at import, then changed by the
    calls of [_query2pg] and [_query2pg_client] only. *)
Inductive reachable : caches → Prop :=
| reach_new : reachable caches_new
| reach_query2pg self c query encoding :
    reachable c → reachable (_query2pg query encoding (self, c)).2.2
| reach_query2pg_client self c query encoding :
    reachable c → reachable (_query2pg_client query encoding (self, c)).2.2.

(** The objects of class [PostgresClientQuery]: built by [__init__], then
    changed by the methods of the class only. *)
Inductive client_object : PostgresQuery → Prop :=
| client_init encoding : client_object (__init__ encoding)
| client_convert self c query vars :
    client_object self →
    client_object (PostgresClientQuery_convert query vars (self, c)).2.1
| client_dump self c vars :
    client_object self →
    client_object (PostgresClientQuery_dump vars (self, c)).2.1.

(** The legal forms of a match: [%%], or a match that ends with one of the
    format letters ([%s], [%b], [%t], [%(name)s], [%(name)b],
    [%(name)t]). *)
Definition legal_form (g : bytes) : Prop :=
  g = b_pct_pct ∨
  (g ≠ b_pct_lparen ∧ g ≠ b_pct_space ∧ bytes_in (last_byte g) b_sbt = true).

(** The matches, glued back with the text around them. *)
Definition reassemble (toks : list (bytes * Match)) (last : bytes) : bytes :=
  concat ((λ t, t.1 ++ group0 t.2) <$> toks) ++ last.

(** The matches of [finditer] from the offset [cur] on: each lies in the
    query, after the one before, and holds the bytes of its span. *)
Fixpoint chained (query : bytes) (cur : nat) (ms : list Match) : Prop :=
  match ms with
  | [] => True
  | m :: ms' =>
      cur ≤ m_start m ∧ m_start m ≤ m_end m ∧ m_end m ≤ length query ∧
      group0 m = slice query (m_start m) (m_end m) ∧
      chained query (m_end m) ms'
  end.

(** The parts of a query, [[]] when the scanner fails. *)
Definition parts_of (query : bytes) (encoding : string) (collapse : bool)
    : list QueryPart :=
  match _split_query query encoding collapse with
  | Ret parts => parts
  | Raise _ => []
  end.

(** ** Tactics *)

(** Two byte strings that differ. *)
Ltac bytes_neq :=
  let H := fresh in intros H; vm_compute in H; discriminate H.

(** Two exceptions that differ, by their class or by their message. *)
Ltac msg_neq :=
  let H := fresh in
  intros H; try discriminate H; injection H as H;
  unfold msg_formats, msg_incomplete, msg_unsupported, msg_mixed,
    msg_incomplete_percent in H;
  simpl in H; discriminate H.

(** ** Specification of the client-bind template

    Stated on the matches of the query, left to right: a [%%] stays, every
    placeholder is written [%s]. *)
Fixpoint render_client (toks : list (bytes * Match)) (last : bytes) : bytes :=
  match toks with
  | [] => last
  | (pre0, m) :: toks' =>
      pre0 ++ (if decide (group0 m = b_pct_pct) then b_pct_pct else b_pct_s)
           ++ render_client toks' last
  end.

(** ** The outcome of the scanner

    The kind of a match (named when group 1 holds a name), whether its name
    can be decoded, and where its text lies in the query. *)
Definition ph_kind (m : Match) : pytype :=
  match group1 m with Some (_ :: _) => TyStr | _ => TyInt end.

Definition decodable (encoding : string) (m : Match) : Prop :=
  match group1 m with
  | Some (c :: n) => is_Some (decode encoding (c :: n))
  | _ => True
  end.

Definition in_query (query : bytes) (m : Match) : Prop :=
  2 ≤ length (group0 m) ∧
  group0 m = take (length (group0 m)) (drop (m_start m) query).

(** The two shapes of a match of [_re_placeholder]: [%] and one byte that
    is no newline, or [%(name)] and one byte that is no newline, the name
    not empty and without [)]. *)
Definition match_shape (m : Match) : Prop :=
  m_end m = m_start m + length (group0 m) ∧
  ((group1 m = None ∧ ∃ c, c ≠ newline ∧ group0 m = [pct; c])
   ∨ (∃ n f, group1 m = Some n ∧ n ≠ [] ∧ (rparen ∉ n) ∧ f ≠ newline ∧
             group0 m = [pct; lparen] ++ n ++ [rparen; f])).

(** * Properties *)

(** ** The scanner *)

Lemma split_loop_step query encoding collapse parts i phtype rv :
  split_loop query encoding collapse parts i phtype rv =
  loop_step query encoding collapse parts i phtype rv (parts !! i).
Proof.
  rewrite split_loop_equation_1.
  assert (G : ∀ x (e : parts !! i = x),
    split_loop_unfold_clause_1 query encoding collapse parts i (x ↾ e) phtype rv
    = loop_step query encoding collapse parts i phtype rv x).
  { intros [[p [m|]]|] e; reflexivity. }
  apply G.
Qed.

Lemma first_pass_fold query ms parts cur mo :
  foldl (λ '(parts, cur, _) m,
           (parts ++ [(slice query cur (m_start m), Some m)], m_end m, Some m))
        (parts, cur, mo) ms
  = (parts ++ ((λ t, (t.1, Some t.2)) <$> pair_matches query cur ms),
     foldl (λ _ m, m_end m) cur ms,
     match ms with [] => mo | _ => last ms end).
Proof.
  revert parts cur mo. induction ms as [|m ms IH]; intros parts cur mo; simpl.
  - by rewrite app_nil_r.
  - rewrite IH. rewrite <- app_assoc. simpl. by destruct ms.
Qed.

Lemma first_pass_close query :
  first_pass query = close (tokens query) (trailer query).
Proof.
  unfold first_pass, tokens, trailer, close.
  rewrite first_pass_fold. simpl.
  destruct (finditer query) as [|m ms] eqn:E; simpl; [done|].
  destruct (last (m :: ms)) eqn:L; [done|].
  by apply last_None in L.
Qed.

Lemma with_carry_nil l : with_carry [] l = l.
Proof. by destruct l as [|[p m] r]. Qed.

Lemma close_cons t toks last :
  close (t :: toks) last = (t.1, Some t.2) :: close toks last.
Proof. done. Qed.

Lemma close_head toks last :
  ∃ p m r, close toks last = (p, m) :: r.
Proof. destruct toks as [|[p m] r]; simpl; eauto. Qed.

(** The loop on the list it mutates visits the pairs as [scan] does. *)
Lemma split_loop_scan query encoding collapse last toks :
  ∀ carry front phtype rv,
    split_loop query encoding collapse
      (front ++ with_carry carry (close toks last)) (length front) phtype rv
    = tl ← scan query encoding collapse carry toks last (length front) phtype;
      Ret (rv ++ tl).
Proof.
  induction toks as [|[pre0 m] toks IH]; intros carry front phtype rv;
    rewrite split_loop_step.
  - simpl. by rewrite list_lookup_middle.
  - rewrite close_cons. simpl with_carry. rewrite list_lookup_middle by done.
    cbn [loop_step scan].
    destruct (decide (group0 m = b_pct_pct)) as [Hpp|Hpp].
    { destruct (close_head toks last) as (p1 & m1 & r & Hc).
      rewrite Hc.
      replace (S (length front)) with (length front + 1) by lia.
      rewrite lookup_app_r, Nat.add_comm by lia.
      replace (1 + length front - length front) with 1 by lia. simpl.
      rewrite (insert_app_r_alt front _ (1 + length front)) by lia.
      replace (1 + length front - length front) with 1 by lia. simpl.
      rewrite delete_middle.
      specialize (IH ((carry ++ pre0) ++ (if collapse then b_pct else group0 m))
                    front phtype rv).
      rewrite Hc in IH. simpl in IH. rewrite <- !app_assoc in IH.
      rewrite <- !app_assoc. exact IH. }
    destruct (decide (group0 m = b_pct_lparen)).
    { destruct (getitem _ 0); simpl; [|done]. by destruct (bytes_decode _ _). }
    destruct (decide (group0 m = b_pct_space)); [done|].
    destruct (negb (bytes_in (last_byte (group0 m)) b_sbt)).
    { by destruct (bytes_decode _ _). }
    destruct (item_of encoding m (length front)) as [it|e]; simpl; [|done].
    destruct (check_phtype phtype it) as [ph'|e]; simpl; [|done].
    destruct (_ph_to_fmt _) as [fmt|e]; simpl; [|done].
    specialize (IH [] (front ++ [(carry ++ pre0, Some m)]) ph'
                  (rv ++ [mkQueryPart (carry ++ pre0) it fmt])).
    rewrite with_carry_nil, <- app_assoc, length_app in IH. simpl in IH.
    replace (length front + 1) with (S (length front)) in IH by lia.
    rewrite IH.
    destruct (scan _ _ _ _ _ _ _ _); simpl; [|done].
    by rewrite <- app_assoc.
Qed.

Lemma split_query_scan query encoding collapse :
  _split_query query encoding collapse
  = scan query encoding collapse [] (tokens query) (trailer query) 0 None.
Proof.
  unfold _split_query. rewrite first_pass_close.
  pose proof (split_loop_scan query encoding collapse (trailer query)
                (tokens query) [] [] None []) as H.
  rewrite with_carry_nil in H. simpl in H. rewrite H.
  by destruct (scan _ _ _ _ _ _ _ _).
Qed.

Lemma scan_cons_inv query encoding collapse carry pre0 m toks last i ph parts :
  scan query encoding collapse carry ((pre0, m) :: toks) last i ph = Ret parts →
  (group0 m = b_pct_pct ∧
   scan query encoding collapse
     ((carry ++ pre0) ++ (if collapse then b_pct else group0 m)) toks last i ph
   = Ret parts)
  ∨ (group0 m ≠ b_pct_pct ∧ bytes_in (last_byte (group0 m)) b_sbt = true ∧
     ∃ it ph' fmt tl,
       item_of encoding m i = Ret it ∧ check_phtype ph it = Ret ph' ∧
       _ph_to_fmt (last_byte (group0 m)) = Ret fmt ∧
       scan query encoding collapse [] toks last (S i) ph' = Ret tl ∧
       parts = mkQueryPart (carry ++ pre0) it fmt :: tl).
Proof.
  cbn [scan]. intros H.
  destruct (decide (group0 m = b_pct_pct)); [by left|right].
  destruct (decide (group0 m = b_pct_lparen)).
  { destruct (getitem _ 0); simpl in H; [|done]. by destruct (bytes_decode _ _). }
  destruct (decide (group0 m = b_pct_space)); [done|].
  destruct (bytes_in (last_byte (group0 m)) b_sbt) eqn:Hin; simpl in H.
  2:{ by destruct (bytes_decode _ _). }
  destruct (item_of encoding m i) as [it|] eqn:Hit; simpl in H; [|done].
  destruct (check_phtype ph it) as [ph'|] eqn:Hph; simpl in H; [|done].
  destruct (_ph_to_fmt _) as [fmt|] eqn:Hfmt; simpl in H; [|done].
  destruct (scan _ _ _ _ _ _ _ _) as [tl|] eqn:Htl; simpl in H; [|done].
  injection H as <-. split_and!; [done..|]. by exists it, ph', fmt, tl.
Qed.

Lemma item_of_cases encoding m i it :
  item_of encoding m i = Ret it → it = IInt i ∨ ∃ name, it = IStr name.
Proof.
  unfold item_of. destruct (group1 m) as [[|c n]|]; try (intros [= <-]; by left).
  destruct (bytes_decode _ _); simpl; [|done]. intros [= <-]. eauto.
Qed.

Lemma check_phtype_Ret ph it ph' :
  check_phtype ph it = Ret ph' →
  ph' = Some (type_of it) ∧ ∀ t, ph = Some t → t = type_of it.
Proof.
  unfold check_phtype. destruct ph as [t|].
  - destruct (decide (t = type_of it)) as [->|]; [|done].
    intros [= <-]. split; [done|]. by intros ? [= <-].
  - intros [= <-]. done.
Qed.

(** What the scanner returns: the parts of the placeholders, all positional
    and numbered from [i] or all named, and a closing part with the item
    [0]. *)
Lemma scan_shape query encoding collapse last toks :
  ∀ carry i ph parts,
    scan query encoding collapse carry toks last i ph = Ret parts →
    ∃ body lp,
      parts = body ++ [mkQueryPart lp (IInt 0) AUTO] ∧
      (∀ t, ph = Some t → Forall (λ p, type_of (item p) = t) body) ∧
      (∀ k p, body !! k = Some p → type_of (item p) = TyInt →
              item p = IInt (i + k)) ∧
      (∀ p0, head body = Some p0 →
             Forall (λ p, type_of (item p) = type_of (item p0)) body).
Proof.
  induction toks as [|[pre0 m] toks IH]; intros carry i ph parts H.
  - injection H as <-. exists [], (carry ++ last). split_and!; try done.
  - apply scan_cons_inv in H as [[_ H]|(_ & _ & it & ph' & fmt & tl & Hit & Hph & _ & Htl & ->)].
    { by apply IH in H. }
    apply check_phtype_Ret in Hph as [-> Hph].
    apply IH in Htl as (body & lp & -> & Hty & Hnum & _).
    exists (mkQueryPart (carry ++ pre0) it fmt :: body), lp.
    split_and!; [done|..].
    + intros t Ht. rewrite (Hph t Ht). constructor; [done|]. by apply Hty.
    + intros [|k] p Hk Hint; simpl in Hk.
      * injection Hk as <-. simpl in *. rewrite Nat.add_0_r.
        by destruct (item_of_cases _ _ _ _ Hit) as [->| [? ->]].
      * replace (i + S k) with (S i + k) by lia. by apply Hnum.
    + intros p0 [= <-]. constructor; [done|]. by apply Hty.
Qed.

(** Collapsing [%%] or not changes the fragments only: same items, same
    formats, same error. *)
Lemma scan_collapse query encoding last toks :
  ∀ c1 c2 i ph,
    match scan query encoding true c1 toks last i ph,
          scan query encoding false c2 toks last i ph with
    | Ret p1, Ret p2 => item <$> p1 = item <$> p2 ∧ format <$> p1 = format <$> p2
    | Raise e1, Raise e2 => e1 = e2
    | _, _ => False
    end.
Proof.
  induction toks as [|[pre0 m] toks IH]; intros c1 c2 i ph; [done|].
  cbn [scan].
  destruct (decide (group0 m = b_pct_pct)); [apply IH|].
  destruct (decide (group0 m = b_pct_lparen)).
  { destruct (getitem _ 0); simpl; [|done]. by destruct (bytes_decode _ _). }
  destruct (decide (group0 m = b_pct_space)); [done|].
  destruct (bytes_in (last_byte (group0 m)) b_sbt); simpl.
  2:{ by destruct (bytes_decode _ _). }
  destruct (item_of encoding m i) as [it|]; simpl; [|done].
  destruct (check_phtype ph it) as [ph'|]; simpl; [|done].
  destruct (_ph_to_fmt _) as [fmt|]; simpl; [|done].
  specialize (IH [] [] (S i) ph').
  destruct (scan _ _ true _ _ _ _ _), (scan _ _ false _ _ _ _ _); try done.
  destruct IH as [E1 E2]. cbn [mbind result_bind]. rewrite !fmap_cons.
  by rewrite E1, E2.
Qed.

(** The fragments of the parts are the segments of the query. *)
Lemma scan_segments query encoding collapse last toks :
  ∀ carry i ph parts,
    scan query encoding collapse carry toks last i ph = Ret parts →
    pre <$> parts = segments collapse carry toks last.
Proof.
  induction toks as [|[pre0 m] toks IH]; intros carry i ph parts H.
  - by injection H as <-.
  - cbn [segments].
    apply scan_cons_inv in H as [[Hpp H]|(Hpp & _ & it & ph' & fmt & tl & _ & _ & _ & Htl & ->)].
    + rewrite decide_True by done. apply IH in H. by rewrite Hpp in H.
    + rewrite decide_False by done. simpl. f_equal. by apply IH in Htl.
Qed.

(** ** The regular expression *)

Lemma match_named_Some s n g0 :
  match_named s = Some (n, g0) →
  n ≠ [] ∧ ∃ f, g0 = [pct; lparen] ++ n ++ [rparen; f].
Proof.
  unfold match_named. destruct s as [|c s]; [done|].
  case_bool_decide; [|done].
  destruct (span_name s) as [n' [|r [|f rest]]]; try done.
  case_bool_decide; simpl; [|done].
  case_bool_decide; simpl; [|done].
  destruct (dot f); [|done]. intros [= <- <-]. eauto.
Qed.

Lemma match_here_group1 s g0 n :
  match_here s = Some (g0, Some n) →
  n ≠ [] ∧ ∃ f, g0 = [pct; lparen] ++ n ++ [rparen; f].
Proof.
  unfold match_here. destruct s as [|p s]; [done|].
  case_bool_decide; [|done].
  destruct (match_named s) as [[n' g]|] eqn:E.
  - intros [= <- <-]. by apply (match_named_Some s).
  - destruct s as [|c ?]; [done|]. by destruct (dot c).
Qed.

Lemma finditer_from_group1 s :
  ∀ pos skip m n,
    m ∈ finditer_from pos skip s → group1 m = Some n →
    n ≠ [] ∧ ∃ f, group0 m = [pct; lparen] ++ n ++ [rparen; f].
Proof.
  induction s as [|c s IH]; intros pos skip m n Hm Hn;
    cbn [finditer_from] in Hm.
  - by apply elem_of_nil in Hm.
  - destruct skip as [|k]; [|by apply (IH _ _ _ _ Hm Hn)].
    destruct (match_here (c :: s)) as [[g0 g1]|] eqn:E;
      [|by apply (IH _ _ _ _ Hm Hn)].
    apply elem_of_cons in Hm as [->|Hm]; [|by apply (IH _ _ _ _ Hm Hn)].
    cbn [group0 group1] in *. subst g1. by apply (match_here_group1 _ _ _ E).
Qed.

Lemma finditer_short_group1 query m :
  m ∈ finditer query → length (group0 m) = 2 → group1 m = None.
Proof.
  intros Hm Hlen. destruct (group1 m) as [n|] eqn:E; [|done].
  destruct (finditer_from_group1 _ _ _ _ _ Hm E) as [Hn [f Hg]].
  rewrite Hg in Hlen. destruct n; [done|].
  rewrite !length_app in Hlen. simpl in Hlen. lia.
Qed.

Lemma pair_matches_snd query ms : ∀ cur, (pair_matches query cur ms).*2 = ms.
Proof. induction ms as [|m ms IH]; intros cur; simpl; [done|]. by rewrite IH. Qed.

Lemma tokens_snd query : (tokens query).*2 = finditer query.
Proof. apply pair_matches_snd. Qed.

Lemma is_prefix_take x s : is_prefix x s = true → x = take (length x) s.
Proof.
  revert s. induction x as [|a x IH]; intros [|c s]; simpl; try done.
  intros H. apply andb_prop in H as [Ha Hx].
  apply bool_decide_eq_true in Ha as ->. f_equal. by apply IH.
Qed.

Lemma span_name_app s : ∀ n r, span_name s = (n, r) → s = n ++ r.
Proof.
  induction s as [|c s IH]; intros n r; simpl.
  - by intros [= <- <-].
  - case_bool_decide; [by intros [= <- <-]|].
    destruct (span_name s) as [n' r']. intros [= <- <-].
    simpl. f_equal. by apply IH.
Qed.

(** A match at the head of [s] is a prefix of [s], of two bytes at least. *)
Lemma match_here_prefix s g0 g1 :
  match_here s = Some (g0, g1) →
  g0 = take (length g0) s ∧ 2 ≤ length g0.
Proof.
  unfold match_here. destruct s as [|p s]; [done|].
  case_bool_decide as Hp; [|done]. subst p.
  destruct (match_named s) as [[n g]|] eqn:E.
  - intros [= <- <-]. unfold match_named in E.
    destruct s as [|c s]; [done|].
    case_bool_decide as Hc; [|done]. subst c.
    destruct (span_name s) as [n' [|r [|f rest]]] eqn:Es; try done.
    case_bool_decide; simpl in E; [|done].
    case_bool_decide as Hr; simpl in E; [|done]. subst r.
    destruct (dot f); [|done]. injection E as <- <-.
    apply span_name_app in Es as ->. split; [|simpl; lia].
    simpl. do 2 f_equal. rewrite length_app. simpl.
    rewrite take_app_ge by lia.
    replace (length n' + 2 - length n') with 2 by lia. done.
  - destruct s as [|c s]; [done|]. destruct (dot c); [|done].
    by intros [= <- <-].
Qed.

Lemma finditer_from_chained query s :
  ∀ pos skip,
    s = drop pos query → pos + skip ≤ length query →
    chained query (pos + skip) (finditer_from pos skip s).
Proof.
  induction s as [|c s IH]; intros pos skip Hs Hlen; [done|].
  assert (s = drop (S pos) query) as Hs'.
  { by rewrite <- (Nat.add_1_r pos), <- drop_drop, <- Hs. }
  assert (S pos ≤ length query) as Hpos.
  { destruct (decide (S pos ≤ length query)); [done|].
    rewrite drop_ge in Hs by lia. done. }
  cbn [finditer_from]. destruct skip as [|k].
  - destruct (match_here (c :: s)) as [[g0 g1]|] eqn:E.
    + apply match_here_prefix in E as [Hg Hl2].
      assert (length g0 ≤ length (c :: s)) as Hle.
      { rewrite Hg, length_take. lia. }
      rewrite Hs, length_drop in Hle.
      cbn [chained m_start m_end group0]. split_and!; try lia.
      * rewrite Hg at 1. unfold slice. rewrite Hs. f_equal. lia.
      * replace (pos + length g0) with (S pos + (length g0 - 1)) by lia.
        apply IH; [done|lia].
    + replace (pos + 0) with pos by lia.
      assert (chained query (S pos + 0) (finditer_from (S pos) 0 s)) as Hc.
      { apply IH; [done|lia]. }
      destruct (finditer_from (S pos) 0 s) as [|m ms]; [done|].
      simpl in *. destruct Hc as (? & ? & ? & ? & ?). split_and!; try done; lia.
  - replace (pos + S k) with (S pos + k) by lia. apply IH; [done|lia].
Qed.

Lemma chained_reassemble query ms :
  ∀ cur,
    cur ≤ length query → chained query cur ms →
    reassemble (pair_matches query cur ms)
      (slice_from query (foldl (λ _ m, m_end m) cur ms))
    = drop cur query.
Proof.
  unfold reassemble, slice_from.
  induction ms as [|m ms IH]; intros cur Hcur Hch; [done|].
  destruct Hch as (H1 & H2 & H3 & Hg & Hch).
  cbn [pair_matches foldl]. rewrite fmap_cons. cbn [concat fst snd].
  rewrite <- !app_assoc, (IH (m_end m) H3 Hch), Hg. unfold slice.
  assert (drop (m_end m) query
          = drop (m_end m - m_start m) (drop (m_start m) query)) as ->.
  { rewrite drop_drop. f_equal. lia. }
  rewrite take_drop.
  assert (drop (m_start m) query
          = drop (m_start m - cur) (drop cur query)) as ->.
  { rewrite drop_drop. f_equal. lia. }
  by rewrite take_drop.
Qed.

(** The fragments and the matches of the first loop, glued back, are the
    query. *)
Lemma tokens_reassemble query :
  reassemble (tokens query) (trailer query) = query.
Proof.
  unfold tokens, trailer, finditer.
  rewrite chained_reassemble; [done|lia|].
  apply (finditer_from_chained query query 0 0); [done|lia].
Qed.

(** Every match that has not a legal form makes the scanner fail. *)
Lemma scan_rejects query encoding collapse last toks :
  ∀ carry i ph,
    Exists (λ t, ¬ legal_form (group0 t.2)) toks →
    ∃ e, scan query encoding collapse carry toks last i ph = Raise e.
Proof.
  induction toks as [|[pre0 m] toks IH]; intros carry i ph Hex.
  { by apply Exists_nil in Hex. }
  cbn [scan].
  destruct (decide (group0 m = b_pct_pct)) as [Hpp|Hpp].
  { apply Exists_cons in Hex as [Hm|Hex]; [|by apply IH].
    exfalso. apply Hm. by left. }
  destruct (decide (group0 m = b_pct_lparen)).
  { destruct (getitem _ 0); simpl; [|by eexists].
    destruct (bytes_decode _ _); simpl; by eexists. }
  destruct (decide (group0 m = b_pct_space)); [by eexists|].
  destruct (bytes_in (last_byte (group0 m)) b_sbt) eqn:Hin; simpl.
  2:{ destruct (bytes_decode _ _); simpl; by eexists. }
  apply Exists_cons in Hex as [Hm|Hex].
  { exfalso. apply Hm. by right. }
  destruct (item_of encoding m i) as [it|]; simpl; [|by eexists].
  destruct (check_phtype ph it) as [ph'|]; simpl; [|by eexists].
  destruct (_ph_to_fmt _) as [fmt|]; simpl; [|by eexists].
  destruct (IH [] (S i) ph' Hex) as [e ->]. by eexists.
Qed.

(** ** Positional queries *)

Lemma formats_positional_escape pre0 m toks :
  group0 m = b_pct_pct →
  formats_positional ((pre0, m) :: toks) = formats_positional toks.
Proof.
  intros H. unfold formats_positional, placeholders.
  rewrite filter_cons_False; [done|]. intros Hn. by apply Hn.
Qed.

Lemma formats_positional_cons pre0 m toks :
  group0 m ≠ b_pct_pct →
  formats_positional ((pre0, m) :: toks)
  = letter_format (group0 m) :: formats_positional toks.
Proof.
  intros H. unfold formats_positional, placeholders.
  by rewrite filter_cons_True.
Qed.

Lemma scan_positional_step query encoding collapse carry pre0 m toks last i ph :
  group0 m ∈ [b_pct_s; b_pct_b; b_pct_t] → group1 m = None →
  ph ≠ Some TyStr →
  scan query encoding collapse carry ((pre0, m) :: toks) last i ph
  = tl ← scan query encoding collapse [] toks last (S i) (Some TyInt);
    Ret (mkQueryPart (carry ++ pre0) (IInt i) (letter_format (group0 m)) :: tl).
Proof.
  intros Hg Hn Hph. cbn [scan]. unfold item_of. rewrite Hn.
  assert (check_phtype ph (IInt i) = Ret (Some TyInt)) as Hc.
  { destruct ph as [[]|]; done. }
  cbn [mbind result_bind]. rewrite Hc. cbn [mbind result_bind].
  repeat (apply elem_of_cons in Hg as [->|Hg]);
    [..|by apply elem_of_nil in Hg];
    (rewrite !decide_False by bytes_neq); reflexivity.
Qed.

Lemma scan_positional query encoding collapse last toks :
  ∀ carry i ph,
    Forall (λ t, group0 t.2 ∈ [b_pct_pct; b_pct_s; b_pct_b; b_pct_t]
                 ∧ group1 t.2 = None) toks →
    ph ≠ Some TyStr →
    ∃ body lp,
      scan query encoding collapse carry toks last i ph
      = Ret (body ++ [mkQueryPart lp (IInt 0) AUTO]) ∧
      format <$> body = formats_positional toks ∧
      (∀ k p, body !! k = Some p → item p = IInt (i + k)).
Proof.
  induction toks as [|[pre0 m] toks IH]; intros carry i ph Hall Hph.
  - exists [], (carry ++ last). by split_and!.
  - apply Forall_cons in Hall as [[Hg Hn] Hall]. simpl in Hg, Hn.
    apply elem_of_cons in Hg as [Hg|Hg].
    + cbn [scan]. rewrite decide_True by done.
      destruct (IH ((carry ++ pre0) ++ (if collapse then b_pct else group0 m))
                  i ph Hall Hph) as (body & lp & -> & Hf & Hi).
      exists body, lp. split_and!; [done| |done].
      by rewrite formats_positional_escape.
    + assert (group0 m ≠ b_pct_pct) as Hne.
      { intros E. rewrite E in Hg.
        repeat (apply elem_of_cons in Hg as [Hg|Hg]; [by vm_compute in Hg|]).
        by apply elem_of_nil in Hg. }
      rewrite scan_positional_step by done.
      destruct (IH [] (S i) (Some TyInt) Hall) as (body & lp & -> & Hf & Hi);
        [done|].
      exists (mkQueryPart (carry ++ pre0) (IInt i) (letter_format (group0 m)) :: body), lp.
      split_and!; [done|..].
      * rewrite formats_positional_cons by done. by rewrite fmap_cons, Hf.
      * intros [|k] p Hk; simpl in Hk.
        -- injection Hk as <-. simpl. by rewrite Nat.add_0_r.
        -- replace (i + S k) with (S i + k) by lia. by apply Hi.
Qed.

Lemma but_last_snoc {A} (l : list A) x : but_last (l ++ [x]) = l.
Proof.
  unfold but_last. rewrite length_app. simpl.
  replace (length l + 1 - 1) with (length l) by lia.
  by rewrite take_app_length.
Qed.

Lemma getitem_last_snoc {A} (l : list A) x : getitem_last (l ++ [x]) = Ret x.
Proof. unfold getitem_last. by rewrite last_snoc. Qed.

Lemma pg_positional_spec body :
  ∀ chunks fmts,
    Forall (λ p, type_of (item p) = TyInt) body →
    pg_positional body chunks fmts
    = Ret (chunks ++ flat_map (λ p, [pre p; marker (item_index (item p) + 1)]) body,
           fmts ++ (format <$> body)).
Proof.
  induction body as [|p body IH]; intros chunks fmts Hall; simpl.
  - by rewrite !app_nil_r.
  - apply Forall_cons in Hall as [Hp Hall].
    destruct (item p) as [i|] eqn:E; [|done].
    rewrite IH by done. simpl. by rewrite <- !app_assoc.
Qed.

Lemma weave_chunks (mk : QueryPart → bytes) body lp :
  concat (flat_map (λ p, [pre p; mk p]) body ++ [lp])
  = weave ((pre <$> body) ++ [lp]) (mk <$> body).
Proof.
  induction body as [|p body IH]; simpl.
  - by rewrite app_nil_r.
  - by rewrite IH.
Qed.

Lemma render_weave last toks :
  ∀ carry n,
    carry ++ render_positional toks last n
    = weave (segments true carry toks last)
            (marker <$> seq n (length (placeholders toks))).
Proof.
  induction toks as [|[pre0 m] toks IH]; intros carry n; [done|].
  cbn [render_positional segments]. unfold placeholders.
  destruct (decide (group0 m = b_pct_pct)) as [E|E].
  - rewrite filter_cons_False by (intros Hn; by apply Hn).
    rewrite <- IH. by rewrite <- !app_assoc.
  - rewrite filter_cons_True by done. simpl.
    rewrite <- IH. simpl. by rewrite <- !app_assoc.
Qed.

Lemma body_markers body :
  ∀ i,
    (∀ k p, body !! k = Some p → item p = IInt (i + k)) →
    (λ p, marker (item_index (item p) + 1)) <$> body
    = marker <$> seq (S i) (length body).
Proof.
  induction body as [|p body IH]; intros i H; [done|].
  simpl. rewrite (H 0 p eq_refl). simpl.
  rewrite Nat.add_0_r, Nat.add_1_r. f_equal.
  apply IH. intros k q Hk. replace (S i + k) with (i + S k) by lia.
  by apply H.
Qed.

(** C1. For every query whose placeholders are all positional, the scanner
    gives the [k]-th placeholder (from 0) the item [k], whatever [%%] stand
    in between; the server-bind assembler writes the [N]-th placeholder as
    [$N] (from 1, left to right) and returns one format per placeholder, in
    the order of the placeholders, and no name order.  The placeholders are
    the matches of the query, which with the text around them make up the
    query. *)
Theorem positional_markers query encoding :
  positional_only query →
  ∃ parts,
    _split_query query encoding true = Ret parts ∧
    length parts = S (length (placeholders (tokens query))) ∧
    (∀ k p, k < length (placeholders (tokens query)) →
            parts !! k = Some p → item p = IInt k) ∧
    _query2pg_nocache query encoding
    = Ret (render_positional (tokens query) (trailer query) 1,
           formats_positional (tokens query), None, parts) ∧
    length (formats_positional (tokens query))
    = length (placeholders (tokens query)) ∧
    reassemble (tokens query) (trailer query) = query.
Proof.
  intros Hpos.
  assert (Forall (λ t, group0 t.2 ∈ [b_pct_pct; b_pct_s; b_pct_b; b_pct_t]
                       ∧ group1 t.2 = None) (tokens query)) as Hall.
  { apply Forall_forall. intros [p m] Ht.
    assert (m ∈ finditer query) as Hm.
    { rewrite <- tokens_snd. apply list_elem_of_fmap. by exists (p, m). }
    unfold positional_only in Hpos. rewrite Forall_forall in Hpos.
    specialize (Hpos m Hm). split; [done|]. simpl.
    apply (finditer_short_group1 query); [done|].
    repeat (apply elem_of_cons in Hpos as [->|Hpos]; [done|]).
    by apply elem_of_nil in Hpos. }
  destruct (scan_positional query encoding true (trailer query) (tokens query)
              [] 0 None Hall) as (body & lp & Hscan & Hfmt & Hitem); [done|].
  assert (length body = length (placeholders (tokens query))) as Hlen.
  { rewrite <- (length_fmap format), Hfmt. unfold formats_positional.
    by rewrite length_fmap. }
  exists (body ++ [mkQueryPart lp (IInt 0) AUTO]).
  assert (_split_query query encoding true
          = Ret (body ++ [mkQueryPart lp (IInt 0) AUTO])) as Hsplit.
  { by rewrite split_query_scan. }
  split_and!.
  - done.
  - rewrite length_app. simpl. lia.
  - intros k p Hk Hp. rewrite lookup_app_l in Hp by lia. by apply (Hitem k p).
  - unfold _query2pg_nocache. rewrite Hsplit. cbn [mbind result_bind].
    assert (Forall (λ p, type_of (item p) = TyInt) body) as Hint.
    { apply Forall_forall. intros p Hp.
      apply list_elem_of_lookup in Hp as [k Hk]. by rewrite (Hitem k p Hk). }
    assert (∃ p0, getitem (body ++ [mkQueryPart lp (IInt 0) AUTO]) 0 = Ret p0
                  ∧ type_of (item p0) = TyInt) as (p0 & -> & Hp0).
    { unfold getitem. destruct body as [|p0 body']; simpl; [by eexists|].
      exists p0. split; [done|]. by apply Forall_cons in Hint as [? _]. }
    cbn [mbind result_bind]. destruct (item p0) as [i0|]; [|done].
    rewrite but_last_snoc, getitem_last_snoc, pg_positional_spec by done.
    cbn [mbind result_bind pre app]. rewrite Hfmt.
    assert (concat (flat_map (λ p, [pre p; marker (item_index (item p) + 1)])
                      body ++ [lp])
            = render_positional (tokens query) (trailer query) 1) as ->; [|done].
    rewrite weave_chunks, (body_markers body 0), Hlen by done.
    rewrite <- (app_nil_l (render_positional _ _ _)), render_weave.
    f_equal. apply scan_segments in Hscan. by rewrite fmap_app in Hscan.
  - unfold formats_positional. by rewrite length_fmap.
  - apply tokens_reassemble.
Qed.

(** ** Named queries *)

Lemma first_format_app l l' n :
  first_format (l ++ l') n
  = match first_format l n with Some f => Some f | None => first_format l' n end.
Proof.
  induction l as [|[n' f] l IH]; simpl; [done|].
  by destruct (decide (n = n')).
Qed.

Lemma first_format_None l n : first_format l n = None ↔ n ∉ l.*1.
Proof.
  induction l as [|[n' f] l IH]; simpl.
  - split; [|done]. intros _. apply not_elem_of_nil.
  - destruct (decide (n = n')) as [->|Hne].
    + split; [done|]. intros H. exfalso. apply H. left.
    + rewrite IH, not_elem_of_cons. split; [by intros ?|by intros [_ ?]].
Qed.

Lemma first_format_elem l n f : (n, f) ∈ l → is_Some (first_format l n).
Proof.
  intros H. destruct (first_format l n) eqn:E; [by eexists|].
  apply first_format_None in E. exfalso. apply E.
  apply list_elem_of_fmap. by exists (n, f).
Qed.

Lemma distinct_elem l x : x ∈ distinct l ↔ x ∈ l.
Proof.
  induction l as [|y l IH]; simpl; [done|].
  rewrite !elem_of_cons, list_elem_of_filter, IH.
  split.
  - intros [?|[_ ?]]; [by left|by right].
  - intros [?|?]; [by left|].
    destruct (decide (x = y)); [by left|by right].
Qed.

Lemma filter_ne_notin (l : list string) x :
  x ∉ l → filter (λ y, y ≠ x) l = l.
Proof.
  induction l as [|y l IH]; intros H; [done|].
  apply not_elem_of_cons in H as [Hne Hl].
  rewrite filter_cons_True by done. by rewrite IH.
Qed.

Lemma distinct_snoc l x :
  distinct (l ++ [x]) = if decide (x ∈ l) then distinct l else distinct l ++ [x].
Proof.
  induction l as [|y l IH]; cbn [app distinct].
  - destruct (decide (x ∈ [])) as [H|H]; [|done]. by apply elem_of_nil in H.
  - rewrite IH. destruct (decide (x ∈ l)) as [Hin|Hin].
    + rewrite decide_True by (by right). done.
    + destruct (decide (x = y)) as [->|Hne].
      * rewrite decide_True by left.
        rewrite filter_app, filter_cons_False, filter_nil, app_nil_r; [done|].
        intros Hyy. by apply Hyy.
      * rewrite decide_False by (rewrite elem_of_cons; by intros [?|?]).
        rewrite filter_app, filter_cons_True, filter_nil by done. done.
Qed.

Lemma index_of_None x l : index_of x l = None ↔ x ∉ l.
Proof.
  induction l as [|y l IH]; simpl.
  - split; [|done]. intros _. apply not_elem_of_nil.
  - destruct (decide (x = y)) as [->|Hne].
    + split; [done|]. intros H. exfalso. apply H. left.
    + rewrite not_elem_of_cons. destruct (index_of x l) as [k|]; simpl.
      * split; [done|]. intros [_ Hx]. by apply IH in Hx.
      * split; [|done]. intros _. split; [done|]. by apply IH.
Qed.

Lemma index_of_app_l x l l' i :
  index_of x l = Some i → index_of x (l ++ l') = Some i.
Proof.
  revert i. induction l as [|y l IH]; intros i; simpl; [done|].
  destruct (decide (x = y)); [done|].
  destruct (index_of x l) as [k|]; simpl; [|done].
  intros [= <-]. by rewrite (IH k).
Qed.

Lemma index_of_app_new x l l' :
  x ∉ l → index_of x (l ++ x :: l') = Some (length l).
Proof.
  induction l as [|y l IH]; intros H; simpl.
  - by rewrite decide_True.
  - apply not_elem_of_cons in H as [Hne Hl].
    rewrite decide_False by done. by rewrite IH.
Qed.

Lemma index_of_snoc_ne x y l :
  x ≠ y → index_of x (l ++ [y]) = index_of x l.
Proof.
  intros Hne. induction l as [|z l IH]; simpl.
  - by rewrite decide_False.
  - destruct (decide (x = z)); [done|]. by rewrite IH.
Qed.

Lemma conflict_snoc occs n f :
  conflict (occs ++ [(n, f)])
  ↔ conflict occs ∨ (∃ f0, first_format occs n = Some f0 ∧ f0 ≠ f).
Proof.
  unfold conflict. rewrite Exists_app, Exists_cons, Exists_nil. simpl.
  rewrite first_format_app. simpl. rewrite decide_True by done.
  assert (Exists (λ o, first_format (occs ++ [(n, f)]) o.1 ≠ Some o.2) occs
          ↔ Exists (λ o, first_format occs o.1 ≠ Some o.2) occs) as ->.
  { rewrite !Exists_exists. apply exist_proper. intros [n' f'].
    split; intros [Hin H]; (split; [done|]); simpl in *;
      destruct (first_format_elem _ _ _ Hin) as [f1 Hf1];
      rewrite first_format_app, Hf1 in *; done. }
  destruct (first_format occs n) as [f0|].
  - split; (intros [Hl|Hr]; [by left|right]).
    + destruct Hr as [Hr|[]]. exists f0. split; [done|]. congruence.
    + destruct Hr as (f1 & [= <-] & Hne). left. congruence.
  - split; (intros [Hl|Hr]; [by left|exfalso]).
    + by destruct Hr as [Hr|[]].
    + by destruct Hr as (f1 & Hf1 & _).
Qed.

Lemma seen_inv_lookup_None seen order fmts occs n :
  seen_inv seen order fmts occs → seen !! n = None →
  (n ∉ occs.*1) ∧ (n ∉ order) ∧ first_format occs n = None.
Proof.
  intros (Ho & _ & _ & _ & Hs) E. rewrite Hs in E.
  assert (n ∉ occs.*1) as Hn.
  { intros Hin. assert (n ∈ order) as Hin' by (by rewrite Ho, distinct_elem).
    destruct (index_of n order) as [idx|] eqn:Ei.
    2:{ by apply index_of_None in Ei. }
    destruct (first_format occs n) eqn:Ef; [done|].
    by apply first_format_None in Ef. }
  split_and!; [done| |by apply first_format_None].
  by rewrite Ho, distinct_elem.
Qed.

Lemma seen_inv_lookup_Some seen order fmts occs n ph f :
  seen_inv seen order fmts occs → seen !! n = Some (ph, f) →
  first_format occs n = Some f ∧
  ∃ idx, index_of n order = Some idx ∧ ph = marker (idx + 1).
Proof.
  intros (_ & _ & _ & _ & Hs) E. rewrite Hs in E.
  destruct (index_of n order) as [idx|]; simpl in E; [|done].
  destruct (first_format occs n) as [f'|]; simpl in E; [|done].
  injection E as <- <-. eauto.
Qed.

Lemma seen_inv_new seen order fmts occs n f :
  seen_inv seen order fmts occs → seen !! n = None →
  seen_inv (<[n := (marker (size seen + 1), f)]> seen) (order ++ [n])
           (fmts ++ [f]) (occs ++ [(n, f)]).
Proof.
  intros Hinv E.
  destruct (seen_inv_lookup_None _ _ _ _ _ Hinv E) as (Hn & Hno & Hf).
  destruct Hinv as (Ho & Hc & Hsz & Hfm & Hs).
  split_and!.
  - rewrite fmap_app. simpl. rewrite distinct_snoc, decide_False by done.
    by rewrite Ho.
  - rewrite conflict_snoc. intros [?|(f0 & Hf0 & _)]; [done|]. congruence.
  - rewrite map_size_insert_None, length_app by done. simpl. lia.
  - apply Forall2_app.
    + eapply Forall2_impl; [exact Hfm|]. intros n' f' H'.
      by rewrite first_format_app, H'.
    + constructor; [|constructor]. rewrite first_format_app, Hf. simpl.
      by rewrite decide_True.
  - intros n'. destruct (decide (n' = n)) as [->|Hne].
    + rewrite lookup_insert_eq, (index_of_app_new n order []) by done.
      simpl. rewrite first_format_app, Hf. simpl.
      rewrite decide_True by done. simpl. by rewrite Hsz.
    + rewrite lookup_insert_ne, index_of_snoc_ne, first_format_app by done.
      rewrite Hs. simpl. rewrite decide_False by done.
      by destruct (first_format occs n').
Qed.

Lemma seen_inv_old seen order fmts occs n ph f :
  seen_inv seen order fmts occs → seen !! n = Some (ph, f) →
  seen_inv seen order fmts (occs ++ [(n, f)]).
Proof.
  intros Hinv E.
  destruct (seen_inv_lookup_Some _ _ _ _ _ _ _ Hinv E) as (Hf & idx & Hi & ->).
  destruct Hinv as (Ho & Hc & Hsz & Hfm & Hs).
  assert (n ∈ occs.*1) as Hn.
  { destruct (decide (n ∈ occs.*1)) as [|Hn]; [done|].
    apply first_format_None in Hn. congruence. }
  split_and!.
  - rewrite fmap_app. simpl. rewrite distinct_snoc, decide_True by done. done.
  - rewrite conflict_snoc. intros [?|(f0 & Hf0 & Hne)]; [done|]. congruence.
  - done.
  - eapply Forall2_impl; [exact Hfm|]. intros n' f' H'.
    by rewrite first_format_app, H'.
  - intros n'. rewrite Hs, first_format_app. simpl.
    destruct (first_format occs n') eqn:E'; [done|].
    rewrite decide_False; [done|]. intros ->. congruence.
Qed.

Lemma pg_named_spec body :
  ∀ chunks fmts seen order occs,
    Forall (λ p, type_of (item p) = TyStr) body →
    seen_inv seen order fmts occs →
    (conflict (occs ++ occurrences body) →
     ∃ n f, (n, f) ∈ occs ++ occurrences body ∧
            first_format (occs ++ occurrences body) n ≠ Some f ∧
            pg_named body chunks fmts seen order
            = Raise (ProgrammingError (msg_formats n)))
    ∧ (¬ conflict (occs ++ occurrences body) →
       ∃ fmts' ext,
         pg_named body chunks fmts seen order
         = Ret (chunks ++ flat_map (λ p, [pre p; named_marker (order ++ ext) p])
                            body,
                fmts', order ++ ext) ∧
         order ++ ext = distinct (occs ++ occurrences body).*1 ∧
         Forall2 (λ n f, first_format (occs ++ occurrences body) n = Some f)
                 (order ++ ext) fmts').
Proof.
  induction body as [|p body IH]; intros chunks fmts seen order occs Hall Hinv.
  - simpl. rewrite !app_nil_r. split; [by destruct Hinv as (_ & ? & _)|].
    intros _. exists fmts, []. rewrite !app_nil_r.
    by destruct Hinv as (? & _ & _ & ? & _).
  - apply Forall_cons in Hall as [Hp Hall].
    assert (occs ++ occurrences (p :: body)
            = (occs ++ [(name_of p, format p)]) ++ occurrences body) as Hocc.
    { by rewrite <- app_assoc. }
    rewrite Hocc. cbn [pg_named]. unfold name_of in *.
    destruct (item p) as [|n] eqn:Eitem; [done|].
    destruct (seen !! n) as [[ph f0]|] eqn:E.
    + destruct (seen_inv_lookup_Some _ _ _ _ _ _ _ Hinv E) as (Hf & idx & Hi & ->).
      destruct (decide (f0 ≠ format p)) as [Hne|Heq].
      * assert (first_format ((occs ++ [(n, format p)]) ++ occurrences body) n
                ≠ Some (format p)) as Hff.
        { rewrite <- app_assoc, first_format_app, Hf. congruence. }
        split.
        { intros _. exists n, (format p). split_and!; [|done..].
          rewrite <- app_assoc. apply elem_of_app. right. left. }
        intros Hnc. exfalso. apply Hnc.
        unfold conflict. rewrite <- app_assoc. apply Exists_app. right.
        apply Exists_cons. left. simpl. by rewrite <- app_assoc in Hff.
      * assert (f0 = format p) as -> by (by destruct (decide (f0 = format p))).
        pose proof (seen_inv_old _ _ _ _ _ _ _ Hinv E) as Hinv'.
        destruct (IH ((chunks ++ [pre p]) ++ [marker (idx + 1)]) fmts seen
                    order _ Hall Hinv') as [IHc IHn].
        split; [done|]. intros Hnc.
        destruct (IHn Hnc) as (fmts' & ext & -> & Hord & Hfm).
        exists fmts', ext. split_and!; [|done..].
        do 2 f_equal. rewrite <- !app_assoc. simpl. do 3 f_equal.
        unfold named_marker, name_of. rewrite Eitem.
        by rewrite (index_of_app_l _ _ _ _ Hi).
    + destruct (seen_inv_lookup_None _ _ _ _ _ Hinv E) as (_ & Hno & _).
      pose proof (seen_inv_new _ _ _ _ _ (format p) Hinv E) as Hinv'.
      destruct (IH ((chunks ++ [pre p]) ++ [marker (size seen + 1)])
                  (fmts ++ [format p]) _ _ _ Hall Hinv') as [IHc IHn].
      split; [done|]. intros Hnc.
      destruct (IHn Hnc) as (fmts' & ext & -> & Hord & Hfm).
      exists fmts', (n :: ext).
      rewrite <- !app_assoc in *. simpl in *. split_and!; [|done..].
      do 4 f_equal.
      unfold named_marker, name_of. rewrite Eitem.
      rewrite index_of_app_new by done. simpl.
      by destruct Hinv as (_ & _ & -> & _).
Qed.

Lemma client_positional_spec body :
  ∀ chunks,
    Forall (λ p, type_of (item p) = TyInt) body →
    client_positional body chunks
    = Ret (chunks ++ flat_map (λ p, [pre p; b_pct_s]) body).
Proof.
  induction body as [|p body IH]; intros chunks Hall; simpl.
  - by rewrite app_nil_r.
  - apply Forall_cons in Hall as [Hp Hall].
    destruct (item p) as [i|] eqn:E; [|done].
    rewrite IH by done. by rewrite <- !app_assoc.
Qed.

Lemma client_named_spec body :
  ∀ chunks (seen : gmap string (bytes * PyFormat)) order,
    Forall (λ p, type_of (item p) = TyStr) body →
    (∀ n ph f, seen !! n = Some (ph, f) → ph = b_pct_s) →
    client_named body chunks seen order
    = Ret (chunks ++ flat_map (λ p, [pre p; b_pct_s]) body,
           order ++ (name_of <$> body)).
Proof.
  induction body as [|p body IH]; intros chunks seen order Hall Hseen; simpl.
  - by rewrite !app_nil_r.
  - apply Forall_cons in Hall as [Hp Hall]. unfold name_of at 1.
    destruct (item p) as [|n] eqn:E; [done|].
    destruct (seen !! n) as [[ph f]|] eqn:En.
    + rewrite (Hseen _ _ _ En), IH by done. by rewrite <- !app_assoc.
    + rewrite IH; [by rewrite <- !app_assoc|done|].
      intros n' ph f. destruct (decide (n' = n)) as [->|Hne].
      * rewrite lookup_insert_eq. by intros [= <- _].
      * rewrite lookup_insert_ne by done. apply Hseen.
Qed.

(** The loops of the client-bind assembler raise nothing but a failed
    [assert]. *)
Lemma client_positional_Raise body :
  ∀ chunks e, client_positional body chunks = Raise e → e = AssertionError.
Proof.
  induction body as [|p body IH]; intros chunks e; simpl; [done|].
  destruct (item p); [apply IH|]. by intros [= <-].
Qed.

Lemma client_named_Raise body :
  ∀ chunks (seen : gmap string (bytes * PyFormat)) order e,
    client_named body chunks seen order = Raise e → e = AssertionError.
Proof.
  induction body as [|p body IH]; intros chunks seen order e; simpl; [done|].
  destruct (item p); [by intros [= <-]|].
  destruct (seen !! name) as [[ph f]|]; apply IH.
Qed.

(** The parts of a scanned query: those of the placeholders, all positional
    or all named, and the closing part. *)
Lemma split_query_parts query encoding collapse parts :
  _split_query query encoding collapse = Ret parts →
  ∃ body lp,
    parts = body ++ [mkQueryPart lp (IInt 0) AUTO] ∧
    (Forall (λ p, type_of (item p) = TyInt) body
     ∨ (body ≠ [] ∧ Forall (λ p, type_of (item p) = TyStr) body)) ∧
    (∀ k p, body !! k = Some p → type_of (item p) = TyInt → item p = IInt k).
Proof.
  rewrite split_query_scan. intros H.
  apply scan_shape in H as (body & lp & -> & _ & Hnum & Hhead).
  exists body, lp. split_and!; [done| |done].
  destruct body as [|p0 body]; [left; constructor|].
  specialize (Hhead p0 eq_refl).
  destruct (type_of (item p0)) eqn:E; [by left|by right].
Qed.

Lemma named_body body lp :
  named (body ++ [mkQueryPart lp (IInt 0) AUTO]) →
  Forall (λ p, type_of (item p) = TyInt) body
  ∨ (body ≠ [] ∧ Forall (λ p, type_of (item p) = TyStr) body) →
  body ≠ [] ∧ Forall (λ p, type_of (item p) = TyStr) body.
Proof.
  intros (p0 & Hp0 & Hty) [Hint|Hstr]; [exfalso|done].
  destruct body as [|p body]; simpl in Hp0; injection Hp0 as <-; [done|].
  apply Forall_cons in Hint as [Hint _]. congruence.
Qed.

Lemma getitem_0_snoc {A} (body : list A) x :
  getitem (body ++ [x]) 0 = Ret (default x (head body)).
Proof. by destruct body. Qed.

Lemma seen_inv_empty : seen_inv ∅ [] [] [].
Proof.
  split_and!; try done.
  unfold conflict. intros H. by apply Exists_nil in H.
Qed.

(** The server-bind assembler on a scanned positional query. *)
Lemma query2pg_positional query encoding body lp :
  _split_query query encoding true
  = Ret (body ++ [mkQueryPart lp (IInt 0) AUTO]) →
  Forall (λ p, type_of (item p) = TyInt) body →
  _query2pg_nocache query encoding
  = Ret (weave ((pre <$> body) ++ [lp])
               ((λ p, marker (item_index (item p) + 1)) <$> body),
         format <$> body, None, body ++ [mkQueryPart lp (IInt 0) AUTO]).
Proof.
  intros Hsplit Hint. unfold _query2pg_nocache.
  rewrite Hsplit. cbn [mbind result_bind]. rewrite getitem_0_snoc.
  assert (type_of (item (default (mkQueryPart lp (IInt 0) AUTO) (head body)))
          = TyInt) as Hp0.
  { destruct body as [|p0 ?]; [done|]. by apply Forall_cons in Hint as [? _]. }
  cbn [mbind result_bind]. destruct (item (default _ _)); [|done].
  rewrite but_last_snoc, getitem_last_snoc, pg_positional_spec by done.
  cbn [mbind result_bind pre app]. by rewrite weave_chunks.
Qed.

(** The server-bind assembler on a scanned named query. *)
Lemma query2pg_named query encoding body lp :
  _split_query query encoding true
  = Ret (body ++ [mkQueryPart lp (IInt 0) AUTO]) →
  body ≠ [] → Forall (λ p, type_of (item p) = TyStr) body →
  (conflict (occurrences body) →
   ∃ n f, (n, f) ∈ occurrences body ∧
          first_format (occurrences body) n ≠ Some f ∧
          _query2pg_nocache query encoding
          = Raise (ProgrammingError (msg_formats n)))
  ∧ (¬ conflict (occurrences body) →
     ∃ fmts,
       _query2pg_nocache query encoding
       = Ret (weave ((pre <$> body) ++ [lp])
                    (named_marker (distinct (occurrences body).*1) <$> body),
              fmts, Some (distinct (occurrences body).*1),
              body ++ [mkQueryPart lp (IInt 0) AUTO]) ∧
       Forall2 (λ n f, first_format (occurrences body) n = Some f)
               (distinct (occurrences body).*1) fmts).
Proof.
  intros Hsplit Hne Hstr. unfold _query2pg_nocache.
  rewrite Hsplit. cbn [mbind result_bind]. rewrite getitem_0_snoc.
  assert (type_of (item (default (mkQueryPart lp (IInt 0) AUTO) (head body)))
          = TyStr) as Hp0.
  { destruct body as [|p0 ?]; [done|]. by apply Forall_cons in Hstr as [? _]. }
  cbn [mbind result_bind]. destruct (item (default _ _)); [done|].
  rewrite but_last_snoc, getitem_last_snoc.
  destruct (pg_named_spec body [] [] ∅ [] [] Hstr seen_inv_empty) as [Hc Hn].
  simpl in Hc, Hn. split.
  - intros Hconf. destruct (Hc Hconf) as (n & f & Hin & Hff & ->).
    by exists n, f.
  - intros Hconf. destruct (Hn Hconf) as (fmts & ext & -> & <- & Hfm).
    exists fmts. split; [|done].
    cbn [mbind result_bind pre app]. by rewrite weave_chunks.
Qed.

(** The client-bind assembler on a scanned query. *)
Lemma query2pg_client_positional query encoding body lp :
  _split_query query encoding false
  = Ret (body ++ [mkQueryPart lp (IInt 0) AUTO]) →
  Forall (λ p, type_of (item p) = TyInt) body →
  _query2pg_client_nocache query encoding
  = Ret (weave ((pre <$> body) ++ [lp]) (replicate (length body) b_pct_s),
         None, body ++ [mkQueryPart lp (IInt 0) AUTO]).
Proof.
  intros Hsplit Hint. unfold _query2pg_client_nocache.
  rewrite Hsplit. cbn [mbind result_bind]. rewrite getitem_0_snoc.
  assert (type_of (item (default (mkQueryPart lp (IInt 0) AUTO) (head body)))
          = TyInt) as Hp0.
  { destruct body as [|p0 ?]; [done|]. by apply Forall_cons in Hint as [? _]. }
  cbn [mbind result_bind]. destruct (item (default _ _)); [|done].
  rewrite but_last_snoc, getitem_last_snoc, client_positional_spec by done.
  cbn [mbind result_bind pre app].
  rewrite (weave_chunks (λ _, b_pct_s)).
  by rewrite (const_fmap (λ _, b_pct_s) body b_pct_s).
Qed.

Lemma query2pg_client_named query encoding body lp :
  _split_query query encoding false
  = Ret (body ++ [mkQueryPart lp (IInt 0) AUTO]) →
  body ≠ [] → Forall (λ p, type_of (item p) = TyStr) body →
  _query2pg_client_nocache query encoding
  = Ret (weave ((pre <$> body) ++ [lp]) (replicate (length body) b_pct_s),
         Some (name_of <$> body), body ++ [mkQueryPart lp (IInt 0) AUTO]).
Proof.
  intros Hsplit Hne Hstr. unfold _query2pg_client_nocache.
  rewrite Hsplit. cbn [mbind result_bind]. rewrite getitem_0_snoc.
  assert (type_of (item (default (mkQueryPart lp (IInt 0) AUTO) (head body)))
          = TyStr) as Hp0.
  { destruct body as [|p0 ?]; [done|]. by apply Forall_cons in Hstr as [? _]. }
  cbn [mbind result_bind]. destruct (item (default _ _)); [done|].
  rewrite but_last_snoc, getitem_last_snoc, client_named_spec; [|done|done].
  cbn [mbind result_bind pre app].
  rewrite (weave_chunks (λ _, b_pct_s)).
  by rewrite (const_fmap (λ _, b_pct_s) body b_pct_s).
Qed.

Lemma distinct_NoDup l : NoDup (distinct l).
Proof.
  induction l as [|x l IH]; simpl; constructor.
  - rewrite list_elem_of_filter. by intros [? _].
  - by apply NoDup_filter.
Qed.

Lemma index_of_distinct_first l n r :
  n ∉ l → index_of n (distinct (l ++ n :: r)) = Some (length (distinct l)).
Proof.
  intros Hn. induction r as [|x r IH] using rev_ind.
  - rewrite distinct_snoc, decide_False by done.
    apply index_of_app_new. by rewrite distinct_elem.
  - rewrite app_comm_cons, app_assoc, distinct_snoc.
    destruct (decide _); [done|]. by apply index_of_app_l.
Qed.

Lemma occurrences_names body : (occurrences body).*1 = name_of <$> body.
Proof. unfold occurrences. rewrite <- list_fmap_compose. done. Qed.

Lemma occurrences_ext b1 :
  ∀ b2, item <$> b1 = item <$> b2 → format <$> b1 = format <$> b2 →
        occurrences b1 = occurrences b2.
Proof.
  induction b1 as [|p b1 IH]; intros [|q b2]; simpl; try done.
  intros [= Hi Hb] [= Hf Hb']. unfold occurrences in *. simpl.
  unfold name_of. rewrite Hi, Hf. f_equal. by apply IH.
Qed.

Lemma split_query_collapse query encoding :
  match _split_query query encoding true,
        _split_query query encoding false with
  | Ret p1, Ret p2 => item <$> p1 = item <$> p2 ∧ format <$> p1 = format <$> p2
  | Raise e1, Raise e2 => e1 = e2
  | _, _ => False
  end.
Proof. rewrite !split_query_scan. apply scan_collapse. Qed.

Lemma query2pg_nocache_inv query encoding rq fmts order parts :
  _query2pg_nocache query encoding = Ret (rq, fmts, order, parts) →
  _split_query query encoding true = Ret parts.
Proof.
  unfold _query2pg_nocache.
  destruct (_split_query _ _ _) as [ps|]; simpl; [|done].
  destruct (getitem ps 0) as [p0|]; simpl; [|done].
  destruct (match item p0 with IInt _ => _ | IStr _ => _ end)
    as [[[c f] o]|]; simpl; [|done].
  destruct (getitem_last ps); simpl; [|done]. by intros [= _ _ _ ->].
Qed.

Lemma query2pg_client_nocache_inv query encoding tpl order parts :
  _query2pg_client_nocache query encoding = Ret (tpl, order, parts) →
  _split_query query encoding false = Ret parts.
Proof.
  unfold _query2pg_client_nocache.
  destruct (_split_query _ _ _) as [ps|]; simpl; [|done].
  destruct (getitem ps 0) as [p0|]; simpl; [|done].
  destruct (match item p0 with IInt _ => _ | IStr _ => _ end)
    as [[c o]|]; simpl; [|done].
  destruct (getitem_last ps); simpl; [|done]. by intros [= _ _ ->].
Qed.

(** The scanner never raises the error of the conflicting formats. *)
Lemma scan_Raise_formats query encoding collapse last toks :
  ∀ carry i ph e n,
    scan query encoding collapse carry toks last i ph = Raise e →
    e ≠ ProgrammingError (msg_formats n).
Proof.
  induction toks as [|[pre0 m] toks IH]; intros carry i ph e n; [done|].
  cbn [scan].
  destruct (decide (group0 m = b_pct_pct)); [apply IH|].
  destruct (decide (group0 m = b_pct_lparen)).
  { unfold getitem, bytes_decode.
    destruct (_ !! 0); simpl; [|intros [= <-]; msg_neq].
    destruct (decode _ _); simpl; intros [= <-]; msg_neq. }
  destruct (decide (group0 m = b_pct_space)); [intros [= <-]; msg_neq|].
  destruct (bytes_in (last_byte (group0 m)) b_sbt); simpl.
  2:{ unfold bytes_decode. destruct (decode _ _); simpl; intros [= <-]; msg_neq. }
  destruct (item_of encoding m i) as [it|e'] eqn:Hit; simpl.
  2:{ intros [= <-]. unfold item_of, bytes_decode in Hit.
      destruct (group1 m) as [[|c l]|]; try done.
      destruct (decode _ _); simpl in Hit; [done|]. by injection Hit as <-. }
  destruct (check_phtype ph it) as [ph'|e'] eqn:Hph; simpl.
  2:{ intros [= <-]. unfold check_phtype in Hph.
      destruct ph as [t|]; [|done].
      destruct (decide _); [done|]. injection Hph as <-. msg_neq. }
  destruct (_ph_to_fmt _) as [fmt|e'] eqn:Hfmt; simpl.
  2:{ intros [= <-]. unfold _ph_to_fmt in Hfmt.
      repeat (destruct (decide _) in Hfmt; [done|]). by injection Hfmt as <-. }
  destruct (scan _ _ _ _ _ _ _ _) as [tl|e'] eqn:Htl; simpl; [done|].
  intros [= <-]. by eapply IH.
Qed.

Lemma query2pg_client_Raise_formats query encoding n :
  _query2pg_client_nocache query encoding
  ≠ Raise (ProgrammingError (msg_formats n)).
Proof.
  unfold _query2pg_client_nocache. rewrite split_query_scan.
  destruct (scan _ _ _ _ _ _ _ _) as [ps|e] eqn:E; simpl.
  2:{ intros [= ->]. by eapply scan_Raise_formats. }
  unfold getitem. destruct (ps !! 0) as [p0|]; simpl; [|done].
  destruct (item p0).
  - destruct (client_positional _ _) as [c|e] eqn:Ec; simpl.
    + unfold getitem_last. by destruct (last ps).
    + apply client_positional_Raise in Ec as ->. done.
  - destruct (client_named _ _ _ _) as [[c o]|e] eqn:Ec; simpl.
    + unfold getitem_last. by destruct (last ps).
    + apply client_named_Raise in Ec as ->. done.
Qed.

(** C2. For every query with named placeholders, the server-bind assembler
    fails with the conflicting-format error, on a name that occurs with two
    formats, when some occurrence asks for another format than the first
    occurrence of its name; otherwise it writes every occurrence of a name
    as the marker of that name, a first occurrence taking the index that
    follows the number of distinct names met before it, and returns the
    formats of the first occurrences.  The client-bind assembler never
    raises that error. *)
Theorem named_markers query encoding parts :
  _split_query query encoding true = Ret parts → named parts →
  let body := but_last parts in
  let occs := occurrences body in
  let order := distinct (name_of <$> body) in
  (conflict occs →
   ∃ n f, (n, f) ∈ occs ∧ first_format occs n ≠ Some f ∧
          _query2pg_nocache query encoding
          = Raise (ProgrammingError (msg_formats n)))
  ∧ (¬ conflict occs →
     ∃ fmts,
       _query2pg_nocache query encoding
       = Ret (weave (pre <$> parts) (named_marker order <$> body),
              fmts, Some order, parts) ∧
       Forall2 (λ n f, first_format occs n = Some f) order fmts)
  ∧ (∀ k p, body !! k = Some p →
            name_of p ∉ name_of <$> take k body →
            named_marker order p
            = marker (length (distinct (name_of <$> take k body)) + 1))
  ∧ (∀ n, _query2pg_client_nocache query encoding
          ≠ Raise (ProgrammingError (msg_formats n))).
Proof.
  intros Hsplit Hnamed.
  destruct (split_query_parts _ _ _ _ Hsplit) as (body & lp & -> & Hty & _).
  destruct (named_body _ _ Hnamed Hty) as [Hne Hstr].
  rewrite but_last_snoc. cbn zeta.
  destruct (query2pg_named _ _ _ _ Hsplit Hne Hstr) as [Hc Hn].
  rewrite occurrences_names in Hn.
  split_and!; [done| | |apply query2pg_client_Raise_formats].
  - intros Hnc. destruct (Hn Hnc) as (fmts & -> & Hfm).
    exists fmts. split; [|done]. by rewrite fmap_app.
  - intros k p Hk Hfirst. unfold named_marker.
    rewrite <- (take_drop_middle body k p Hk) at 1.
    rewrite fmap_app, fmap_cons, index_of_distinct_first by done. done.
Qed.

(** C3. For every query with named placeholders, the client-bind assembler
    writes every placeholder as [%s] and returns the names of all the
    occurrences, repeated names included, in the order of the query; the
    name order and the formats of the server-bind assembler, when it
    returns, have one entry per distinct name, in the order of the first
    occurrences. *)
Theorem named_orders query encoding parts :
  _split_query query encoding false = Ret parts → named parts →
  let body := but_last parts in
  let names := name_of <$> body in
  _query2pg_client_nocache query encoding
  = Ret (weave (pre <$> parts) (replicate (length body) b_pct_s),
         Some names, parts) ∧
  length names = length parts - 1 ∧
  NoDup (distinct names) ∧
  (∀ n, n ∈ distinct names ↔ n ∈ names) ∧
  (∀ rq fmts order parts',
     _query2pg_nocache query encoding = Ret (rq, fmts, order, parts') →
     order = Some (distinct names) ∧
     length fmts = length (distinct names) ∧
     Forall2 (λ n f, first_format (occurrences body) n = Some f)
             (distinct names) fmts).
Proof.
  intros Hsplit Hnamed.
  destruct (split_query_parts _ _ _ _ Hsplit) as (body & lp & -> & Hty & _).
  destruct (named_body _ _ Hnamed Hty) as [Hne Hstr].
  rewrite but_last_snoc. cbn zeta.
  split_and!.
  - rewrite (query2pg_client_named _ _ _ _ Hsplit Hne Hstr).
    by rewrite fmap_app.
  - rewrite length_fmap, length_app. simpl. lia.
  - apply distinct_NoDup.
  - apply distinct_elem.
  - intros rq fmts order parts' Hpg.
    pose proof (query2pg_nocache_inv _ _ _ _ _ _ Hpg) as Hsplit'.
    pose proof (split_query_collapse query encoding) as Hcol.
    rewrite Hsplit, Hsplit' in Hcol. destruct Hcol as [Hi Hf].
    destruct (split_query_parts _ _ _ _ Hsplit')
      as (body' & lp' & -> & Hty' & _).
    rewrite !fmap_app in Hi. rewrite !fmap_app in Hf. simpl in Hi, Hf.
    apply app_inj_tail in Hi as [Hi _]. apply app_inj_tail in Hf as [Hf _].
    assert (named (body' ++ [mkQueryPart lp' (IInt 0) AUTO])) as Hnamed'.
    { destruct Hnamed as (p0 & Hp0 & Hty0).
      destruct body as [|q body]; [done|]. destruct body' as [|q' body']; [done|].
      exists q'. split; [done|]. simpl in Hp0. injection Hp0 as <-.
      injection Hi as Hi _. by rewrite Hi. }
    destruct (named_body _ _ Hnamed' Hty') as [Hne' Hstr'].
    destruct (query2pg_named _ _ _ _ Hsplit' Hne' Hstr') as [Hc Hn].
    rewrite (occurrences_ext _ _ Hi Hf), occurrences_names in *.
    destruct (decide (conflict (occurrences body))) as [Hconf|Hconf].
    + destruct (Hc Hconf) as (n & f & _ & _ & Hr). congruence.
    + destruct (Hn Hconf) as (fmts' & Hr & Hfm).
      rewrite Hr in Hpg. injection Hpg as _ <- <-.
      split_and!; [done| |done]. symmetry. by eapply Forall2_length.
Qed.

(** C4. For every query, the fragments of the server-bind parts and of the
    rewritten query are the text between the placeholders with every [%%]
    written as the one byte [%], merged in the fragment around it; in the
    client-bind parts and template every [%%] is kept as the two bytes
    [%%].  The query [100%% done: %s] is rewritten [100% done: $1]. *)
Theorem escape_collapse query encoding :
  (∀ rq fmts order parts,
     _query2pg_nocache query encoding = Ret (rq, fmts, order, parts) →
     pre <$> parts = segments true [] (tokens query) (trailer query) ∧
     ∃ marks,
       length marks = length parts - 1 ∧
       Forall (λ mk, ∃ n, mk = marker n) marks ∧
       rq = weave (segments true [] (tokens query) (trailer query)) marks)
  ∧ (∀ tpl order parts,
       _query2pg_client_nocache query encoding = Ret (tpl, order, parts) →
       pre <$> parts = segments false [] (tokens query) (trailer query) ∧
       tpl = weave (segments false [] (tokens query) (trailer query))
                   (replicate (length parts - 1) b_pct_s))
  ∧ reassemble (tokens query) (trailer query) = query
  ∧ (∃ fmts order parts,
       _query2pg_nocache (B "100%% done: %s") encoding
       = Ret (B "100% done: $1", fmts, order, parts)).
Proof.
  split_and!; [| |apply tokens_reassemble|].
  - intros rq fmts order parts Hpg.
    pose proof (query2pg_nocache_inv _ _ _ _ _ _ Hpg) as Hsplit.
    assert (pre <$> parts = segments true [] (tokens query) (trailer query))
      as Hseg.
    { rewrite split_query_scan in Hsplit. by apply scan_segments in Hsplit. }
    split; [done|]. rewrite <- Hseg.
    destruct (split_query_parts _ _ _ _ Hsplit) as (body & lp & -> & Hty & _).
    rewrite length_app. simpl. replace (length body + 1 - 1) with (length body) by lia.
    destruct Hty as [Hint|[Hne Hstr]].
    + rewrite (query2pg_positional _ _ _ _ Hsplit Hint) in Hpg.
      injection Hpg as <- _ _.
      eexists. split_and!; [..|by rewrite fmap_app].
      * by rewrite length_fmap.
      * apply Forall_fmap, Forall_true. intros p. by eexists.
    + destruct (query2pg_named _ _ _ _ Hsplit Hne Hstr) as [Hc Hn].
      destruct (decide (conflict (occurrences body))) as [Hconf|Hconf].
      * destruct (Hc Hconf) as (n & f & _ & _ & Hr). congruence.
      * destruct (Hn Hconf) as (fmts' & Hr & _). rewrite Hr in Hpg.
        injection Hpg as <- _ _.
        eexists. split_and!; [..|by rewrite fmap_app].
        -- by rewrite length_fmap.
        -- apply Forall_fmap, Forall_true. intros p. by eexists.
  - intros tpl order parts Hpg.
    pose proof (query2pg_client_nocache_inv _ _ _ _ _ Hpg) as Hsplit.
    assert (pre <$> parts = segments false [] (tokens query) (trailer query))
      as Hseg.
    { rewrite split_query_scan in Hsplit. by apply scan_segments in Hsplit. }
    split; [done|]. rewrite <- Hseg.
    destruct (split_query_parts _ _ _ _ Hsplit) as (body & lp & -> & Hty & _).
    rewrite length_app. simpl. replace (length body + 1 - 1) with (length body) by lia.
    destruct Hty as [Hint|[Hne Hstr]].
    + rewrite (query2pg_client_positional _ _ _ _ Hsplit Hint) in Hpg.
      injection Hpg as <- _. by rewrite fmap_app.
    + rewrite (query2pg_client_named _ _ _ _ Hsplit Hne Hstr) in Hpg.
      injection Hpg as <- _. by rewrite fmap_app.
  - by eexists _, _, _.
Qed.

(** ** The parameter validator *)

Lemma is_int_type it : is_int it = bool_decide (type_of it = TyInt).
Proof. by destruct it. Qed.

Lemma is_str_type it : is_str it = bool_decide (type_of it = TyStr).
Proof. by destruct it. Qed.

Lemma split_query_nonempty query encoding collapse parts :
  _split_query query encoding collapse = Ret parts → 0 < length parts.
Proof.
  intros H. apply split_query_parts in H as (body & lp & -> & _).
  rewrite length_app. simpl. lia.
Qed.

(** C7. For every parsed query and every sequence of parameters: when the
    length of the sequence is not the number of placeholders,
    [len(parts) - 1], validation fails with the error that states both
    numbers; when it is, the query has named placeholders and the sequence
    is not empty, validation fails asking for a mapping; otherwise the
    sequence is returned as it is. *)
Theorem sequence_params query encoding collapse parts (l : list V) order :
  _split_query query encoding collapse = Ret parts →
  (length l ≠ length parts - 1 →
   validate_and_reorder_params parts (PSeq l) order
   = Raise (ProgrammingError
              (msg_count (Z.of_nat (length parts - 1)) (length l))))
  ∧ (length l = length parts - 1 → l ≠ [] → named parts →
     validate_and_reorder_params parts (PSeq l) order
     = Raise (TypeError msg_need_mapping))
  ∧ (length l = length parts - 1 → l = [] ∨ ¬ named parts →
     validate_and_reorder_params parts (PSeq l) order = Ret l).
Proof.
  intros Hsplit. pose proof (split_query_nonempty _ _ _ _ Hsplit) as Hlen.
  unfold validate_and_reorder_params. cbn [is_params_sequence mbind result_bind].
  replace (Z.of_nat (length parts) - 1)%Z with (Z.of_nat (length parts - 1))
    by lia.
  split_and!.
  - intros Hne. rewrite decide_True; [done|]. lia.
  - intros Heq Hl (p0 & Hp0 & Hty). rewrite decide_False by lia.
    rewrite bool_decide_true by done. unfold getitem. rewrite Hp0.
    cbn [mbind result_bind]. rewrite is_int_type, bool_decide_false; [done|].
    congruence.
  - intros Heq Hcase. rewrite decide_False by lia.
    case_bool_decide as Hl; [|done]. destruct Hcase as [->|Hnn]; [done|].
    unfold getitem. destruct (parts !! 0) as [p0|] eqn:Hp0.
    + cbn [mbind result_bind]. rewrite is_int_type.
      case_bool_decide as Hty; [done|]. exfalso. apply Hnn. exists p0.
      split; [done|]. by destruct (type_of (item p0)).
    + apply lookup_ge_None in Hp0. lia.
Qed.

(** C6, as the code has it.  For every query with positional placeholders
    (at least one), validation of a mapping that is not empty fails with
    the error asking for a sequence; an empty mapping is let through and
    gives the empty sequence. *)
Theorem mapping_for_positional query encoding collapse parts
    (m : gmap string V) order :
  _split_query query encoding collapse = Ret parts →
  positional parts →
  (m ≠ ∅ →
   validate_and_reorder_params parts (PMap m) order
   = Raise (TypeError msg_need_sequence))
  ∧ validate_and_reorder_params parts (PMap ∅) None = Ret [].
Proof.
  intros _ (Hlen & p0 & Hp0 & Hty).
  unfold validate_and_reorder_params. cbn [is_params_sequence mbind result_bind].
  split.
  - intros Hm. rewrite !bool_decide_true by done. cbn [andb].
    unfold getitem. rewrite Hp0. cbn [mbind result_bind].
    rewrite is_str_type, bool_decide_false; [done|]. congruence.
  - rewrite (bool_decide_false (∅ ≠ ∅)); [done|]. by intros H.
Qed.

Lemma mapM_lookup_None (m : gmap string V) names :
  mapM (λ n, m !! n) names = None ↔ ∃ n, n ∈ names ∧ m !! n = None.
Proof. rewrite mapM_None, Exists_exists. done. Qed.

Lemma distinct_nil l : distinct l = [] → l = [].
Proof. by destruct l. Qed.

(** A name order returned by an assembler belongs to a named query and is
    not empty. *)
Lemma name_order_named query encoding names parts :
  (∃ rq fmts, _query2pg_nocache query encoding
              = Ret (rq, fmts, Some names, parts))
  ∨ (∃ tpl, _query2pg_client_nocache query encoding
            = Ret (tpl, Some names, parts)) →
  named parts ∧ names ≠ [].
Proof.
  intros [(rq & fmts & Hpg)|(tpl & Hpg)].
  - pose proof (query2pg_nocache_inv _ _ _ _ _ _ Hpg) as Hsplit.
    destruct (split_query_parts _ _ _ _ Hsplit) as (body & lp & -> & Hty & _).
    destruct Hty as [Hint|[Hne Hstr]].
    { by rewrite (query2pg_positional _ _ _ _ Hsplit Hint) in Hpg. }
    destruct (query2pg_named _ _ _ _ Hsplit Hne Hstr) as [Hc Hn].
    destruct (decide (conflict (occurrences body))) as [Hconf|Hconf].
    { destruct (Hc Hconf) as (n & f & _ & _ & Hr). congruence. }
    destruct (Hn Hconf) as (fmts' & Hr & _). rewrite Hr in Hpg.
    injection Hpg as _ _ <-. split.
    + destruct body as [|p0 body]; [done|]. exists p0. split; [done|].
      by apply Forall_cons in Hstr as [? _].
    + intros E. apply distinct_nil in E. rewrite occurrences_names in E.
      by destruct body.
  - pose proof (query2pg_client_nocache_inv _ _ _ _ _ Hpg) as Hsplit.
    destruct (split_query_parts _ _ _ _ Hsplit) as (body & lp & -> & Hty & _).
    destruct Hty as [Hint|[Hne Hstr]].
    { by rewrite (query2pg_client_positional _ _ _ _ Hsplit Hint) in Hpg. }
    rewrite (query2pg_client_named _ _ _ _ Hsplit Hne Hstr) in Hpg.
    injection Hpg as _ <-. split.
    + destruct body as [|p0 body]; [done|]. exists p0. split; [done|].
      by apply Forall_cons in Hstr as [? _].
    + by destruct body.
Qed.

(** C8. For every query with named placeholders, parsed by either
    assembler, and every mapping: when every name of the name order is in
    the mapping, validation returns the values of the names, in the name
    order; when some name is absent, it fails with one error whose message
    lists all the absent names of the name order, sorted.  The query
    [SELECT %(a)s] with the empty mapping fails with the error that names
    [a]. *)
Theorem mapping_params query encoding names parts (m : gmap string V) :
  (∃ rq fmts, _query2pg_nocache query encoding
              = Ret (rq, fmts, Some names, parts))
  ∨ (∃ tpl, _query2pg_client_nocache query encoding
            = Ret (tpl, Some names, parts)) →
  ((∀ n, n ∈ names → is_Some (m !! n)) →
   ∃ params,
     validate_and_reorder_params parts (PMap m) (Some names) = Ret params ∧
     Forall2 (λ n v, m !! n = Some v) names params)
  ∧ ((∃ n, n ∈ names ∧ m !! n = None) →
     ∃ missing,
       validate_and_reorder_params parts (PMap m) (Some names)
       = Raise (ProgrammingError
                  ("query parameter missing: " +:+ String.concat ", " missing)) ∧
       Sorted str_le missing ∧
       missing ≡ₚ filter (λ n, m !! n = None) names)
  ∧ (decode encoding (B "a") = Some "a" →
     ∃ rq fmts order parts',
       _query2pg_nocache (B "SELECT %(a)s") encoding
       = Ret (rq, fmts, order, parts') ∧
       validate_and_reorder_params parts' (PMap (∅ : gmap string V)) order
       = Raise (ProgrammingError "query parameter missing: a")).
Proof.
  intros Hq. destruct (name_order_named _ _ _ _ Hq) as [(p0 & Hp0 & Hty) Hne].
  assert (∀ m' : gmap string V,
    validate_and_reorder_params parts (PMap m') (Some names)
    = match mapM (λ n, m' !! n) names with
      | Some params => Ret params
      | None => Raise (ProgrammingError
                         (msg_missing (filter (λ i, m' !! i = None) names)))
      end) as Hval.
  { intros m'. unfold validate_and_reorder_params.
    cbn [is_params_sequence mbind result_bind].
    assert ((if bool_decide (m' ≠ ∅) && bool_decide (1 < length parts)
             then p1 ← getitem parts 0;
                  if negb (is_str (item p1))
                  then Raise (TypeError msg_need_sequence) else Ret ()
             else Ret ()) = Ret ()) as ->.
    { destruct (_ && _); [|done]. unfold getitem. rewrite Hp0.
      cbn [mbind result_bind]. by rewrite is_str_type, bool_decide_true. }
    cbn [mbind result_bind]. by destruct names. }
  split_and!.
  - intros Hall. rewrite Hval.
    destruct (mapM (λ n, m !! n) names) as [params|] eqn:E.
    + exists params. split; [done|]. by apply mapM_Some in E.
    + apply mapM_lookup_None in E as (n & Hn & Hnone).
      destruct (Hall n Hn) as [v Hv]. congruence.
  - intros Hex. rewrite Hval.
    apply mapM_lookup_None in Hex as ->.
    exists (sorted (filter (λ n, m !! n = None) names)). split_and!.
    + done.
    + apply Sorted_merge_sort, _.
    + apply merge_sort_Permutation.
  - intros Hdec. unfold _query2pg_nocache, _split_query.
    rewrite split_loop_step. vm_compute first_pass. cbn [lookup list_lookup loop_step].
    cbn [group0 group1 m_start item_of bytes_decode].
    rewrite !decide_False by bytes_neq.
    replace (negb (bytes_in _ b_sbt)) with false by reflexivity.
    unfold item_of, bytes_decode. cbn [group1].
    change ["a"%byte] with (B "a"). rewrite Hdec.
    cbn [mbind result_bind check_phtype].
    replace (_ph_to_fmt _) with (Ret AUTO) by reflexivity.
    cbn [mbind result_bind]. rewrite split_loop_step.
    by eexists _, _, _, _.
Qed.

(** ** The caches *)

Lemma lru_call_coherent {K R} `{EqDecision K} (f : K → result R)
    (c : lru_cache K R) (k : K) :
  lru_coherent f c →
  (lru_call f c k).1 = f k ∧
  lru_coherent f (lru_call f c k).2 ∧
  calls (lru_call f c k).2 = S (calls c).
Proof.
  intros Hc. unfold lru_call, calls.
  destruct (list_find _ (cache c)) as [[i [k' r]]|] eqn:E.
  - apply list_find_Some in E as (Hi & Hk & _). simpl in Hk. subst k'.
    assert ((k, r) ∈ cache c) as Hin by (by eapply list_elem_of_lookup_2).
    simpl. split_and!; [by rewrite (Hc k r)| |lia].
    intros k1 r1 Hin1. simpl in Hin1.
    apply elem_of_cons in Hin1 as [[= -> ->]|Hin1]; [by apply Hc|].
    apply Hc. by eapply list_elem_of_delete_inv.
  - destruct (f k) as [r|e] eqn:Ef; simpl; (split_and!; [done| |lia]).
    + intros k1 r1 Hin1. simpl in Hin1.
      apply elem_of_take in Hin1 as (i & Hi & _).
      apply list_elem_of_lookup_2 in Hi.
      apply elem_of_cons in Hi as [[= -> ->]|Hi]; [done|]. by apply Hc.
    + intros k1 r1 Hin1. by apply Hc.
Qed.

Lemma reachable_coherent c :
  reachable c →
  lru_coherent (λ k, _query2pg_nocache k.1 k.2) (_query2pg_cache c) ∧
  lru_coherent (λ k, _query2pg_client_nocache k.1 k.2) (_query2pg_client_cache c).
Proof.
  induction 1 as [|self c query encoding _ [IH1 IH2]
                  |self c query encoding _ [IH1 IH2]].
  - split; intros k r Hin; by apply elem_of_nil in Hin.
  - unfold _query2pg. simpl.
    destruct (lru_call_coherent (λ k, _query2pg_nocache k.1 k.2)
                (_query2pg_cache c) (query, encoding) IH1) as (_ & H & _).
    by destruct (lru_call _ _ _).
  - unfold _query2pg_client. simpl.
    destruct (lru_call_coherent (λ k, _query2pg_client_nocache k.1 k.2)
                (_query2pg_client_cache c) (query, encoding) IH2) as (_ & H & _).
    by destruct (lru_call _ _ _).
Qed.

(** A call of the cached assembler returns what the assembler returns,
    counts one call on its own cache and leaves the other cache as it is. *)
Lemma query2pg_cached query encoding self c :
  reachable c →
  ∃ c', _query2pg query encoding (self, c)
        = (_query2pg_nocache query encoding, (self, c')) ∧
        reachable c' ∧
        _query2pg_client_cache c' = _query2pg_client_cache c ∧
        calls (_query2pg_cache c') = S (calls (_query2pg_cache c)).
Proof.
  intros Hr. pose proof (reach_query2pg self c query encoding Hr) as Hr'.
  destruct (reachable_coherent c Hr) as [Hc _].
  destruct (lru_call_coherent (λ k, _query2pg_nocache k.1 k.2)
              (_query2pg_cache c) (query, encoding) Hc) as (Hres & _ & Hcalls).
  unfold _query2pg in *. simpl in *.
  destruct (lru_call _ _ _) as [r c1]. simpl in *. subst r.
  by eexists.
Qed.

Lemma query2pg_client_cached query encoding self c :
  reachable c →
  ∃ c', _query2pg_client query encoding (self, c)
        = (_query2pg_client_nocache query encoding, (self, c')) ∧
        reachable c' ∧
        _query2pg_cache c' = _query2pg_cache c ∧
        calls (_query2pg_client_cache c') = S (calls (_query2pg_client_cache c)).
Proof.
  intros Hr. pose proof (reach_query2pg_client self c query encoding Hr) as Hr'.
  destruct (reachable_coherent c Hr) as [_ Hc].
  destruct (lru_call_coherent (λ k, _query2pg_client_nocache k.1 k.2)
              (_query2pg_client_cache c) (query, encoding) Hc)
    as (Hres & _ & Hcalls).
  unfold _query2pg_client in *. simpl in *.
  destruct (lru_call _ _ _) as [r c1]. simpl in *. subst r.
  by eexists.
Qed.

Lemma lru_call_bound {K R} `{EqDecision K} (f : K → result R)
    (c : lru_cache K R) (k : K) :
  maxsize c = 128 → length (cache c) ≤ 128 →
  maxsize (lru_call f c k).2 = 128 ∧ length (cache (lru_call f c k).2) ≤ 128.
Proof.
  intros Hm Hl. unfold lru_call.
  destruct (list_find _ (cache c)) as [[i [k' r]]|] eqn:E.
  - apply list_find_Some in E as (Hi & _ & _).
    cbn [snd maxsize cache length]. rewrite length_delete by (by eexists).
    apply lookup_lt_Some in Hi. split; [done|lia].
  - destruct (f k) as [r|e]; cbn [snd maxsize cache]; [|done].
    split; [done|]. rewrite length_take. lia.
Qed.

Lemma reachable_bound c :
  reachable c →
  (maxsize (_query2pg_cache c) = 128 ∧
   length (cache (_query2pg_cache c)) ≤ 128) ∧
  (maxsize (_query2pg_client_cache c) = 128 ∧
   length (cache (_query2pg_client_cache c)) ≤ 128).
Proof.
  induction 1 as [|self c query encoding _ [[IH1 IH2] IH3]
                  |self c query encoding _ [IH1 [IH2 IH3]]].
  - split; split; simpl; lia.
  - unfold _query2pg. cbn [fst snd].
    pose proof (lru_call_bound (λ k, _query2pg_nocache k.1 k.2)
                  (_query2pg_cache c) (query, encoding) IH1 IH2) as Hb.
    destruct (lru_call _ _ _) as [r c1]. by cbn [fst snd] in *.
  - unfold _query2pg_client. cbn [fst snd].
    pose proof (lru_call_bound (λ k, _query2pg_client_nocache k.1 k.2)
                  (_query2pg_client_cache c) (query, encoding) IH2 IH3) as Hb.
    destruct (lru_call _ _ _) as [r c1]. by cbn [fst snd] in *.
Qed.

Lemma lru_call_memo {K R} `{EqDecision K} (f : K → result R)
    (c : lru_cache K R) (k : K) :
  lru_coherent f c → maxsize c = 128 → memoized f k c (lru_call f c k).2.
Proof.
  intros Hc Hm. unfold memoized, lru_call.
  destruct (list_find _ (cache c)) as [[i [k' r]]|] eqn:E.
  - apply list_find_Some in E as (Hi & Hk & _). simpl in Hk. subst k'.
    assert ((k, r) ∈ cache c) as Hin by (by eapply list_elem_of_lookup_2).
    rewrite (Hc k r Hin). cbn [snd hits misses cache head].
    split_and!; [done| |done]. intros Hno. by destruct (Hno r).
  - apply list_find_None in E.
    assert (∀ x, (k, x) ∉ cache c) as Hno.
    { intros x Hx. by apply (proj1 (Forall_forall _ _) E (k, x) Hx). }
    split_and!.
    + intros [x Hx]. by destruct (Hno x).
    + intros _. by destruct (f k).
    + destruct (f k) as [r|e]; cbn [snd cache]; [|done]. by rewrite Hm.
Qed.

(** A call of a cached assembler memoizes the assembler. *)
Lemma query2pg_memo query encoding self c :
  reachable c →
  memoized (λ k, _query2pg_nocache k.1 k.2) (query, encoding)
    (_query2pg_cache c)
    (_query2pg_cache (_query2pg query encoding (self, c)).2.2).
Proof.
  intros Hr. destruct (reachable_coherent c Hr) as [Hc _].
  destruct (reachable_bound c Hr) as [[Hm _] _].
  pose proof (lru_call_memo (λ k, _query2pg_nocache k.1 k.2)
                (_query2pg_cache c) (query, encoding) Hc Hm) as H.
  unfold _query2pg. cbn [fst snd].
  by destruct (lru_call _ _ _) as [r c1].
Qed.

Lemma query2pg_client_memo query encoding self c :
  reachable c →
  memoized (λ k, _query2pg_client_nocache k.1 k.2) (query, encoding)
    (_query2pg_client_cache c)
    (_query2pg_client_cache (_query2pg_client query encoding (self, c)).2.2).
Proof.
  intros Hr. destruct (reachable_coherent c Hr) as [_ Hc].
  destruct (reachable_bound c Hr) as [_ [Hm _]].
  pose proof (lru_call_memo (λ k, _query2pg_client_nocache k.1 k.2)
                (_query2pg_client_cache c) (query, encoding) Hc Hm) as H.
  unfold _query2pg_client. cbn [fst snd].
  by destruct (lru_call _ _ _) as [r c1].
Qed.

Lemma memoized_stored {K R} (f : K → result R) (k : K) (c c' : lru_cache K R) x :
  memoized f k c c' → f k = Ret x → (k, x) ∈ cache c'.
Proof.
  intros (_ & _ & H) Hf. rewrite Hf in H.
  destruct (cache c') as [|e l]; [done|]. injection H as ->. by left.
Qed.

(** ** Conversion *)

Lemma M_bind_eq {A B} (m : M A) (k : A → M B) w :
  (m ≫= k) w
  = match m w with
    | (Ret a, w') => k a w'
    | (Raise e, w') => (Raise e, w')
    end.
Proof. done. Qed.

(** [PostgresQuery.dump] touches [params], [types] and [formats] only. *)
Lemma PostgresQuery_dump_frame vars self c r self' c' :
  PostgresQuery_dump vars (self, c) = (r, (self', c')) →
  c' = c ∧ self_query self' = self_query self ∧
  self__want_formats self' = self__want_formats self ∧
  self__order self' = self__order self ∧
  self__parts self' = self__parts self ∧
  self_template self' = self_template self.
Proof.
  unfold PostgresQuery_dump. destruct vars as [v|].
  - rewrite !M_bind_eq. unfold get_self, lift. cbn [fst snd].
    destruct (getattr _ _) as [parts|]; [|by intros [= <- <- <-]].
    rewrite !M_bind_eq.
    destruct (validate_and_reorder_params _ _ _) as [params|];
      [|by intros [= <- <- <-]].
    rewrite !M_bind_eq.
    destruct (self__want_formats self) as [want|] eqn:Ew;
      [|by intros [= <- <- <-]].
    rewrite !M_bind_eq.
    destruct (dump_sequence _ _) as [[[d t] f]|]; [|by intros [= <- <- <-]].
    intros [= <- <- <-]. by simpl.
  - by intros [= <- <- <-].
Qed.

(** [PostgresClientQuery.dump] touches [params] and [query] only. *)
Lemma PostgresClientQuery_dump_frame vars self c r self' c' :
  PostgresClientQuery_dump vars (self, c) = (r, (self', c')) →
  c' = c ∧ self_types self' = self_types self ∧
  self_formats self' = self_formats self ∧
  self__order self' = self__order self ∧
  self__parts self' = self__parts self ∧
  self_template self' = self_template self.
Proof.
  unfold PostgresClientQuery_dump. destruct vars as [v|].
  - rewrite !M_bind_eq. unfold get_self, lift. cbn [fst snd].
    destruct (getattr _ (self__parts self)) as [parts|];
      [|by intros [= <- <- <-]].
    rewrite !M_bind_eq.
    destruct (validate_and_reorder_params _ _ _) as [params|];
      [|by intros [= <- <- <-]].
    rewrite !M_bind_eq.
    destruct (mapM _ params) as [literals|]; [|by intros [= <- <- <-]].
    rewrite !M_bind_eq. unfold set_self at 1. cbn [fst snd].
    rewrite !M_bind_eq.
    destruct (getattr _ (self_template self)) as [template|];
      [|by intros [= <- <- <-]].
    rewrite !M_bind_eq.
    destruct (bytes_mod _ _) as [q|]; by intros [= <- <- <-].
  - by intros [= <- <- <-].
Qed.

Lemma cacheable_spec bquery vars n :
  len_params vars = Ret n →
  cacheable bquery vars
  = Ret (bool_decide (length bquery ≤ MAX_CACHED_STATEMENT_LENGTH
                      ∧ n ≤ MAX_CACHED_STATEMENT_PARAMS)).
Proof.
  intros Hn. unfold cacheable. rewrite Hn. cbn [mbind result_bind].
  case_bool_decide as H1; cbn [mbind result_bind mret result_ret].
  - f_equal. apply bool_decide_ext. split; [by intros ?|by intros [_ ?]].
  - f_equal. symmetry. apply bool_decide_eq_false. by intros [? _].
Qed.

Lemma PostgresQuery_convert_spec self c query bquery vars n r self' c' :
  reachable c →
  bquery_of (self__encoding self) query = Ret bquery →
  len_params vars = Ret n →
  PostgresQuery_convert query (Some vars) (self, c) = (r, (self', c')) →
  reachable c' ∧
  _query2pg_client_cache c' = _query2pg_client_cache c ∧
  (length bquery ≤ MAX_CACHED_STATEMENT_LENGTH
   ∧ n ≤ MAX_CACHED_STATEMENT_PARAMS →
   calls (_query2pg_cache c') = S (calls (_query2pg_cache c))) ∧
  (¬ (length bquery ≤ MAX_CACHED_STATEMENT_LENGTH
      ∧ n ≤ MAX_CACHED_STATEMENT_PARAMS) → c' = c) ∧
  match _query2pg_nocache bquery (self__encoding self) with
  | Ret (q, want, order, parts) =>
      self_query self' = q ∧ self__want_formats self' = Some want ∧
      self__order self' = order ∧ self__parts self' = Some parts
  | Raise e => r = Raise e ∧ self' = self
  end.
Proof.
  intros Hr Hb Hn. unfold PostgresQuery_convert.
  rewrite M_bind_eq. unfold get_self at 1. cbn [fst snd].
  rewrite M_bind_eq. unfold lift at 1. rewrite Hb.
  rewrite M_bind_eq, M_bind_eq. unfold lift at 1.
  rewrite (cacheable_spec _ _ _ Hn). rewrite M_bind_eq.
  assert (∃ c1,
    (if bool_decide (length bquery ≤ MAX_CACHED_STATEMENT_LENGTH
                     ∧ n ≤ MAX_CACHED_STATEMENT_PARAMS)
     then _query2pg bquery (self__encoding self)
     else lift (_query2pg_nocache bquery (self__encoding self))) (self, c)
    = (_query2pg_nocache bquery (self__encoding self), (self, c1)) ∧
    reachable c1 ∧
    _query2pg_client_cache c1 = _query2pg_client_cache c ∧
    (length bquery ≤ MAX_CACHED_STATEMENT_LENGTH
     ∧ n ≤ MAX_CACHED_STATEMENT_PARAMS →
     calls (_query2pg_cache c1) = S (calls (_query2pg_cache c))) ∧
    (¬ (length bquery ≤ MAX_CACHED_STATEMENT_LENGTH
        ∧ n ≤ MAX_CACHED_STATEMENT_PARAMS) → c1 = c))
    as (c1 & -> & Hr1 & Hcl & Hcalls & Hsame).
  { case_bool_decide as Hcond.
    - destruct (query2pg_cached bquery (self__encoding self) self c Hr)
        as (c1 & -> & ? & ? & ?).
      exists c1. by split_and!.
    - exists c. by split_and!. }
  destruct (_query2pg_nocache bquery (self__encoding self))
    as [[[[q want] order] parts]|e].
  - unfold set_self at 1 2 3 4. rewrite !M_bind_eq. cbn [fst snd].
    intros Hdump. apply PostgresQuery_dump_frame in Hdump
      as (-> & Hq & Hw & Ho & Hp & _).
    by split_and!.
  - intros [= <- <- <-]. by split_and!.
Qed.

Lemma PostgresClientQuery_convert_spec self c query bquery vars n r self' c' :
  reachable c →
  bquery_of (self__encoding self) query = Ret bquery →
  len_params vars = Ret n →
  PostgresClientQuery_convert query (Some vars) (self, c) = (r, (self', c')) →
  reachable c' ∧
  _query2pg_cache c' = _query2pg_cache c ∧
  (length bquery ≤ MAX_CACHED_STATEMENT_LENGTH
   ∧ n ≤ MAX_CACHED_STATEMENT_PARAMS →
   calls (_query2pg_client_cache c') = S (calls (_query2pg_client_cache c))) ∧
  (¬ (length bquery ≤ MAX_CACHED_STATEMENT_LENGTH
      ∧ n ≤ MAX_CACHED_STATEMENT_PARAMS) → c' = c) ∧
  match _query2pg_client_nocache bquery (self__encoding self) with
  | Ret (template, order, parts) =>
      self_template self' = Some template ∧
      self__order self' = order ∧ self__parts self' = Some parts
  | Raise e => r = Raise e ∧ self' = self
  end.
Proof.
  intros Hr Hb Hn. unfold PostgresClientQuery_convert.
  rewrite M_bind_eq. unfold get_self at 1. cbn [fst snd].
  rewrite M_bind_eq. unfold lift at 1. rewrite Hb.
  rewrite M_bind_eq, M_bind_eq. unfold lift at 1.
  rewrite (cacheable_spec _ _ _ Hn). rewrite M_bind_eq.
  assert (∃ c1,
    (if bool_decide (length bquery ≤ MAX_CACHED_STATEMENT_LENGTH
                     ∧ n ≤ MAX_CACHED_STATEMENT_PARAMS)
     then _query2pg_client bquery (self__encoding self)
     else lift (_query2pg_client_nocache bquery (self__encoding self))) (self, c)
    = (_query2pg_client_nocache bquery (self__encoding self), (self, c1)) ∧
    reachable c1 ∧
    _query2pg_cache c1 = _query2pg_cache c ∧
    (length bquery ≤ MAX_CACHED_STATEMENT_LENGTH
     ∧ n ≤ MAX_CACHED_STATEMENT_PARAMS →
     calls (_query2pg_client_cache c1) = S (calls (_query2pg_client_cache c))) ∧
    (¬ (length bquery ≤ MAX_CACHED_STATEMENT_LENGTH
        ∧ n ≤ MAX_CACHED_STATEMENT_PARAMS) → c1 = c))
    as (c1 & -> & Hr1 & Hcl & Hcalls & Hsame).
  { case_bool_decide as Hcond.
    - destruct (query2pg_client_cached bquery (self__encoding self) self c Hr)
        as (c1 & -> & ? & ? & ?).
      exists c1. by split_and!.
    - exists c. by split_and!. }
  destruct (_query2pg_client_nocache bquery (self__encoding self))
    as [[[template order] parts]|e].
  - unfold set_self at 1 2 3. rewrite !M_bind_eq. cbn [fst snd].
    intros Hdump. apply PostgresClientQuery_dump_frame in Hdump
      as (-> & _ & _ & Ho & Hp & Ht).
    by split_and!.
  - intros [= <- <- <-]. by split_and!.
Qed.

Lemma PostgresQuery_dump_encoding vars self c r self' c' :
  PostgresQuery_dump vars (self, c) = (r, (self', c')) →
  self__encoding self' = self__encoding self.
Proof.
  unfold PostgresQuery_dump. destruct vars as [v|].
  - rewrite !M_bind_eq. unfold get_self, lift. cbn [fst snd].
    destruct (getattr _ _) as [parts|]; [|by intros [= <- <- <-]].
    rewrite !M_bind_eq.
    destruct (validate_and_reorder_params _ _ _) as [params|];
      [|by intros [= <- <- <-]].
    rewrite !M_bind_eq.
    destruct (self__want_formats self) as [want|] eqn:Ew;
      [|by intros [= <- <- <-]].
    rewrite !M_bind_eq.
    destruct (dump_sequence _ _) as [[[d t] f]|]; [|by intros [= <- <- <-]].
    by intros [= <- <- <-].
  - by intros [= <- <- <-].
Qed.

Lemma PostgresClientQuery_dump_encoding vars self c r self' c' :
  PostgresClientQuery_dump vars (self, c) = (r, (self', c')) →
  self__encoding self' = self__encoding self.
Proof.
  unfold PostgresClientQuery_dump. destruct vars as [v|].
  - rewrite !M_bind_eq. unfold get_self, lift. cbn [fst snd].
    destruct (getattr _ (self__parts self)) as [parts|];
      [|by intros [= <- <- <-]].
    rewrite !M_bind_eq.
    destruct (validate_and_reorder_params _ _ _) as [params|];
      [|by intros [= <- <- <-]].
    rewrite !M_bind_eq.
    destruct (mapM _ params) as [literals|]; [|by intros [= <- <- <-]].
    rewrite !M_bind_eq. unfold set_self at 1. cbn [fst snd].
    rewrite !M_bind_eq.
    destruct (getattr _ (self_template self)) as [template|];
      [|by intros [= <- <- <-]].
    rewrite !M_bind_eq.
    destruct (bytes_mod _ _) as [q|]; by intros [= <- <- <-].
  - by intros [= <- <- <-].
Qed.

(** On the cached path a conversion does to the cache what one call of the
    cached assembler does, and it keeps the encoding of the object. *)
Lemma PostgresQuery_convert_memo self c query bquery vars n r self' c' :
  reachable c →
  bquery_of (self__encoding self) query = Ret bquery →
  len_params vars = Ret n →
  length bquery ≤ MAX_CACHED_STATEMENT_LENGTH
  ∧ n ≤ MAX_CACHED_STATEMENT_PARAMS →
  PostgresQuery_convert query (Some vars) (self, c) = (r, (self', c')) →
  self__encoding self' = self__encoding self ∧
  memoized (λ k, _query2pg_nocache k.1 k.2) (bquery, self__encoding self)
    (_query2pg_cache c) (_query2pg_cache c').
Proof.
  intros Hr Hb Hn Hcond. unfold PostgresQuery_convert.
  rewrite M_bind_eq. unfold get_self at 1. cbn [fst snd].
  rewrite M_bind_eq. unfold lift at 1. rewrite Hb.
  rewrite M_bind_eq, M_bind_eq. unfold lift at 1.
  rewrite (cacheable_spec _ _ _ Hn). rewrite M_bind_eq.
  rewrite bool_decide_eq_true_2 by done.
  pose proof (query2pg_memo bquery (self__encoding self) self c Hr) as Hmemo.
  destruct (query2pg_cached bquery (self__encoding self) self c Hr)
    as (c1 & Hq & _).
  rewrite Hq in Hmemo |- *. cbn [fst snd] in Hmemo.
  destruct (_query2pg_nocache bquery (self__encoding self))
    as [[[[q want] order] parts]|e] eqn:Hpg.
  - unfold set_self at 1 2 3 4. rewrite !M_bind_eq. cbn [fst snd].
    intros Hdump.
    pose proof (PostgresQuery_dump_encoding _ _ _ _ _ _ Hdump) as Henc.
    apply PostgresQuery_dump_frame in Hdump as (-> & _).
    split; [by rewrite Henc|done].
  - by intros [= <- <- <-].
Qed.

Lemma PostgresClientQuery_convert_memo self c query bquery vars n r self' c' :
  reachable c →
  bquery_of (self__encoding self) query = Ret bquery →
  len_params vars = Ret n →
  length bquery ≤ MAX_CACHED_STATEMENT_LENGTH
  ∧ n ≤ MAX_CACHED_STATEMENT_PARAMS →
  PostgresClientQuery_convert query (Some vars) (self, c)
  = (r, (self', c')) →
  self__encoding self' = self__encoding self ∧
  memoized (λ k, _query2pg_client_nocache k.1 k.2)
    (bquery, self__encoding self)
    (_query2pg_client_cache c) (_query2pg_client_cache c').
Proof.
  intros Hr Hb Hn Hcond. unfold PostgresClientQuery_convert.
  rewrite M_bind_eq. unfold get_self at 1. cbn [fst snd].
  rewrite M_bind_eq. unfold lift at 1. rewrite Hb.
  rewrite M_bind_eq, M_bind_eq. unfold lift at 1.
  rewrite (cacheable_spec _ _ _ Hn). rewrite M_bind_eq.
  rewrite bool_decide_eq_true_2 by done.
  pose proof (query2pg_client_memo bquery (self__encoding self) self c Hr)
    as Hmemo.
  destruct (query2pg_client_cached bquery (self__encoding self) self c Hr)
    as (c1 & Hq & _).
  rewrite Hq in Hmemo |- *. cbn [fst snd] in Hmemo.
  destruct (_query2pg_client_nocache bquery (self__encoding self))
    as [[[template order] parts]|e] eqn:Hpg.
  - unfold set_self at 1 2 3. rewrite !M_bind_eq. cbn [fst snd].
    intros Hdump.
    pose proof (PostgresClientQuery_dump_encoding _ _ _ _ _ _ Hdump) as Henc.
    apply PostgresClientQuery_dump_frame in Hdump as (-> & _).
    split; [by rewrite Henc|done].
  - by intros [= <- <- <-].
Qed.

(** C9. For every query with parameters that are not null, of a known
    length, conversion calls the cached assembler exactly when the query
    has at most 4096 bytes and there are at most 50 parameters: its cache
    then counts one more call, and otherwise no cache changes.  On both
    paths the parsed output (rewritten query or template, formats, name
    order, parts) is what the assembler itself returns, the cached
    assembler returning what the assembler returns; the server-bind
    conversion leaves the cache of the client-bind assembler as it is, and
    conversely.

    The cached path memoizes.  The call is a hit when the cache holds the
    query under its encoding and a miss otherwise; what the assembler
    returns is then stored as the most recent entry, and nothing is stored
    when it raises.  So a second conversion of the same query on the cached
    path, whatever its parameters, is a hit: the count of misses, which is
    the count of the runs of the assembler, stays as it is. *)
Theorem cached_conversion self c query bquery vars n :
  reachable c →
  bquery_of (self__encoding self) query = Ret bquery →
  len_params vars = Ret n →
  let cached := length bquery ≤ MAX_CACHED_STATEMENT_LENGTH
                ∧ n ≤ MAX_CACHED_STATEMENT_PARAMS in
  MAX_CACHED_STATEMENT_LENGTH = 4096 ∧ MAX_CACHED_STATEMENT_PARAMS = 50 ∧
  (_query2pg bquery (self__encoding self) (self, c)).1
  = _query2pg_nocache bquery (self__encoding self) ∧
  (_query2pg_client bquery (self__encoding self) (self, c)).1
  = _query2pg_client_nocache bquery (self__encoding self) ∧
  (∀ r self' c',
     PostgresQuery_convert query (Some vars) (self, c) = (r, (self', c')) →
     reachable c' ∧
     _query2pg_client_cache c' = _query2pg_client_cache c ∧
     (cached → calls (_query2pg_cache c') = S (calls (_query2pg_cache c))) ∧
     (¬ cached → c' = c) ∧
     match _query2pg_nocache bquery (self__encoding self) with
     | Ret (q, want, order, parts) =>
         self_query self' = q ∧ self__want_formats self' = Some want ∧
         self__order self' = order ∧ self__parts self' = Some parts
     | Raise e => r = Raise e ∧ self' = self
     end ∧
     (cached →
      memoized (λ k, _query2pg_nocache k.1 k.2) (bquery, self__encoding self)
        (_query2pg_cache c) (_query2pg_cache c')) ∧
     (cached →
      ∀ x vars2 n2 r2 self2 c2,
        _query2pg_nocache bquery (self__encoding self) = Ret x →
        len_params vars2 = Ret n2 → n2 ≤ MAX_CACHED_STATEMENT_PARAMS →
        PostgresQuery_convert query (Some vars2) (self', c')
        = (r2, (self2, c2)) →
        hits (_query2pg_cache c2) = S (hits (_query2pg_cache c')) ∧
        misses (_query2pg_cache c2) = misses (_query2pg_cache c') ∧
        head (cache (_query2pg_cache c2))
        = Some ((bquery, self__encoding self), x)))
  ∧ (∀ r self' c',
       PostgresClientQuery_convert query (Some vars) (self, c)
       = (r, (self', c')) →
       reachable c' ∧
       _query2pg_cache c' = _query2pg_cache c ∧
       (cached →
        calls (_query2pg_client_cache c')
        = S (calls (_query2pg_client_cache c))) ∧
       (¬ cached → c' = c) ∧
       match _query2pg_client_nocache bquery (self__encoding self) with
       | Ret (template, order, parts) =>
           self_template self' = Some template ∧
           self__order self' = order ∧ self__parts self' = Some parts
       | Raise e => r = Raise e ∧ self' = self
       end ∧
       (cached →
        memoized (λ k, _query2pg_client_nocache k.1 k.2)
          (bquery, self__encoding self)
          (_query2pg_client_cache c) (_query2pg_client_cache c')) ∧
       (cached →
        ∀ x vars2 n2 r2 self2 c2,
          _query2pg_client_nocache bquery (self__encoding self) = Ret x →
          len_params vars2 = Ret n2 → n2 ≤ MAX_CACHED_STATEMENT_PARAMS →
          PostgresClientQuery_convert query (Some vars2) (self', c')
          = (r2, (self2, c2)) →
          hits (_query2pg_client_cache c2)
          = S (hits (_query2pg_client_cache c')) ∧
          misses (_query2pg_client_cache c2)
          = misses (_query2pg_client_cache c') ∧
          head (cache (_query2pg_client_cache c2))
          = Some ((bquery, self__encoding self), x))).
Proof.
  intros Hr Hb Hn. cbn zeta. split_and!; [done|done|..].
  - destruct (query2pg_cached bquery (self__encoding self) self c Hr)
      as (c1 & -> & _). done.
  - destruct (query2pg_client_cached bquery (self__encoding self) self c Hr)
      as (c1 & -> & _). done.
  - intros r self' c' H.
    destruct (PostgresQuery_convert_spec _ _ _ _ _ _ _ _ _ Hr Hb Hn H)
      as (Hr' & Hcl & Hcalls & Hsame & Hparsed).
    split_and!; try done.
    + intros Hcond.
      by destruct (PostgresQuery_convert_memo _ _ _ _ _ _ _ _ _
                     Hr Hb Hn Hcond H).
    + intros [Hlen Hcond] x vars2 n2 r2 self2 c2 Hx Hn2 Hle H2.
      destruct (PostgresQuery_convert_memo _ _ _ _ _ _ _ _ _
                  Hr Hb Hn (conj Hlen Hcond) H) as [Henc Hmemo].
      pose proof (memoized_stored _ _ _ _ _ Hmemo Hx) as Hin.
      rewrite <- Henc in Hb.
      destruct (PostgresQuery_convert_memo _ _ _ _ _ _ _ _ _
                  Hr' Hb Hn2 (conj Hlen Hle) H2) as [_ (Hhit & _ & Hst)].
      rewrite Henc in Hhit, Hst. cbn [fst snd] in Hst. rewrite Hx in Hst.
      destruct Hhit as [Hh Hm]; [by exists x|]. done.
  - intros r self' c' H.
    destruct (PostgresClientQuery_convert_spec _ _ _ _ _ _ _ _ _ Hr Hb Hn H)
      as (Hr' & Hcl & Hcalls & Hsame & Hparsed).
    split_and!; try done.
    + intros Hcond.
      by destruct (PostgresClientQuery_convert_memo _ _ _ _ _ _ _ _ _
                     Hr Hb Hn Hcond H).
    + intros [Hlen Hcond] x vars2 n2 r2 self2 c2 Hx Hn2 Hle H2.
      destruct (PostgresClientQuery_convert_memo _ _ _ _ _ _ _ _ _
                  Hr Hb Hn (conj Hlen Hcond) H) as [Henc Hmemo].
      pose proof (memoized_stored _ _ _ _ _ Hmemo Hx) as Hin.
      rewrite <- Henc in Hb.
      destruct (PostgresClientQuery_convert_memo _ _ _ _ _ _ _ _ _
                  Hr' Hb Hn2 (conj Hlen Hle) H2) as [_ (Hhit & _ & Hst)].
      rewrite Henc in Hhit, Hst. cbn [fst snd] in Hst. rewrite Hx in Hst.
      destruct Hhit as [Hh Hm]; [by exists x|]. done.
Qed.

(** The conversion of a client-bind query never assigns [types] and
    [formats]. *)
Lemma PostgresClientQuery_convert_frame query vars self c r self' c' :
  PostgresClientQuery_convert query vars (self, c) = (r, (self', c')) →
  self_types self' = self_types self ∧ self_formats self' = self_formats self.
Proof.
  unfold PostgresClientQuery_convert.
  rewrite M_bind_eq. unfold get_self at 1. cbn [fst snd].
  rewrite M_bind_eq. unfold lift at 1.
  destruct (bquery_of _ _) as [bquery|]; [|by intros [= <- <- <-]].
  rewrite M_bind_eq. destruct vars as [v|].
  - rewrite M_bind_eq. unfold lift at 1.
    destruct (cacheable bquery v) as [cached|]; [|by intros [= <- <- <-]].
    rewrite M_bind_eq.
    assert (∃ x c1,
      (if cached then _query2pg_client bquery (self__encoding self)
       else lift (_query2pg_client_nocache bquery (self__encoding self)))
        (self, c) = (x, (self, c1))) as (x & c1 & ->).
    { destruct cached; [|by eexists _, _].
      unfold _query2pg_client. cbn [fst snd].
      destruct (lru_call _ _ _). by eexists _, _. }
    destruct x as [[[template order] parts]|e]; [|by intros [= <- <- <-]].
    unfold set_self at 1 2 3. rewrite !M_bind_eq. cbn [fst snd].
    intros Hdump. by apply PostgresClientQuery_dump_frame in Hdump
      as (_ & -> & -> & _).
  - unfold set_self at 1 2. rewrite !M_bind_eq. cbn [fst snd].
    intros Hdump. by apply PostgresClientQuery_dump_frame in Hdump
      as (_ & -> & -> & _).
Qed.

Lemma client_object_types self :
  client_object self → self_types self = [] ∧ self_formats self = None.
Proof.
  induction 1 as [|self c query vars _ [IH1 IH2]|self c vars _ [IH1 IH2]].
  - done.
  - destruct (PostgresClientQuery_convert query vars (self, c))
      as [r [self' c']] eqn:E.
    apply PostgresClientQuery_convert_frame in E as [E1 E2].
    cbn [fst snd]. by rewrite E1, E2.
  - destruct (PostgresClientQuery_dump vars (self, c))
      as [r [self' c']] eqn:E.
    apply PostgresClientQuery_dump_frame in E as (_ & E1 & E2 & _).
    cbn [fst snd]. by rewrite E1, E2.
Qed.

(** C10. For every query, conversion with null parameters returns without
    raising, does not call the assemblers (the caches are left as they
    are) and takes the bytes of the query, whatever they hold, as the final
    query; afterwards [params] is null, [types] is empty and [formats] is
    null, for a server-bind query and for a client-bind query. *)
Theorem convert_without_params self c query bquery :
  bquery_of (self__encoding self) query = Ret bquery →
  (∃ self',
     PostgresQuery_convert query None (self, c) = (Ret (), (self', c)) ∧
     self_query self' = bquery ∧ self_params self' = None ∧
     self_types self' = [] ∧ self_formats self' = None)
  ∧ (client_object self →
     ∃ self',
       PostgresClientQuery_convert query None (self, c) = (Ret (), (self', c)) ∧
       self_query self' = bquery ∧ self_params self' = None ∧
       self_types self' = [] ∧ self_formats self' = None).
Proof.
  intros Hb. split.
  - unfold PostgresQuery_convert.
    rewrite M_bind_eq. unfold get_self at 1. cbn [fst snd].
    rewrite M_bind_eq. unfold lift at 1. rewrite Hb.
    by eexists.
  - intros Hobj. destruct (client_object_types self Hobj) as [Ht Hf].
    unfold PostgresClientQuery_convert.
    rewrite M_bind_eq. unfold get_self at 1. cbn [fst snd].
    rewrite M_bind_eq. unfold lift at 1. rewrite Hb.
    by eexists.
Qed.

(** Every match of the regular expression that has not a legal form makes
    [_split_query] fail. *)
Lemma split_query_rejects query encoding collapse :
  Exists (λ m, ¬ legal_form (group0 m)) (finditer query) →
  ∃ e, _split_query query encoding collapse = Raise e.
Proof.
  intros Hex. rewrite split_query_scan. apply scan_rejects.
  rewrite <- tokens_snd in Hex. apply Exists_exists in Hex as (m & Hm & Hl).
  apply list_elem_of_fmap in Hm as (t & -> & Ht).
  apply Exists_exists. by exists t.
Qed.

(** C5, where the code departs from it.  A [%] followed by a newline, and a
    [%] that ends the query, are no match of the regular expression: the
    scanner raises nothing on them and the server-bind assembler returns the
    query with the [%] left in it.  (Every match that has not a legal form
    is rejected, see [split_query_rejects].) *)
Theorem bare_percent_accepted encoding :
  let q1 := B "SELECT 10 %" ++ [newline] ++ B "3" in
  let q2 := B "SELECT 50%" in
  finditer q1 = [] ∧
  _split_query q1 encoding true = Ret [mkQueryPart q1 (IInt 0) AUTO] ∧
  _query2pg_nocache q1 encoding
  = Ret (q1, [], None, [mkQueryPart q1 (IInt 0) AUTO]) ∧
  finditer q2 = [] ∧
  _split_query q2 encoding true = Ret [mkQueryPart q2 (IInt 0) AUTO] ∧
  _query2pg_nocache q2 encoding
  = Ret (q2, [], None, [mkQueryPart q2 (IInt 0) AUTO]).
Proof. cbn zeta. split_and!; by vm_compute. Qed.

(** * Further properties *)

(** ** Queries without placeholders *)

Lemma finditer_no_pct s :
  ∀ pos skip, pct ∉ s → finditer_from pos skip s = [].
Proof.
  induction s as [|c s IH]; intros pos skip Hs; [done|].
  apply not_elem_of_cons in Hs as [Hc Hs]. cbn [finditer_from].
  destruct skip as [|k]; [|by apply IH].
  unfold match_here. rewrite bool_decide_false by done. by apply IH.
Qed.

(** X1. A query that holds no [%] (the empty query is one) goes through both
    assemblers unchanged: it is returned as it is, with no format, no name
    order, and the one closing part. *)
Theorem query_without_percent query encoding :
  pct ∉ query →
  _query2pg_nocache query encoding
  = Ret (query, [], None, [mkQueryPart query (IInt 0) AUTO]) ∧
  _query2pg_client_nocache query encoding
  = Ret (query, None, [mkQueryPart query (IInt 0) AUTO]).
Proof.
  intros Hq.
  assert (∀ collapse, _split_query query encoding collapse
                      = Ret ([] ++ [mkQueryPart query (IInt 0) AUTO])) as Hs.
  { intros collapse. rewrite split_query_scan. unfold tokens, trailer, finditer.
    by rewrite finditer_no_pct. }
  split.
  - by rewrite (query2pg_positional query encoding [] query (Hs true)).
  - by rewrite (query2pg_client_positional query encoding [] query (Hs false)).
Qed.

(** ** What the scanner returns *)

Lemma ph_to_fmt_letter g fmt :
  _ph_to_fmt (last_byte g) = Ret fmt → fmt = letter_format g.
Proof.
  unfold _ph_to_fmt, letter_format.
  destruct (decide (last_byte g = ["s"%byte])) as [->|?].
  { intros [= <-]. by rewrite !decide_False by bytes_neq. }
  destruct (decide (last_byte g = ["t"%byte])) as [?|?]; [by intros [= <-]|].
  destruct (decide (last_byte g = ["b"%byte])) as [?|?]; [by intros [= <-]|].
  done.
Qed.

Lemma scan_formats query encoding collapse last toks :
  ∀ carry i ph parts,
    scan query encoding collapse carry toks last i ph = Ret parts →
    format <$> parts = formats_positional toks ++ [AUTO].
Proof.
  induction toks as [|[pre0 m] toks IH]; intros carry i ph parts H.
  - by injection H as <-.
  - apply scan_cons_inv in H
      as [[Hpp H]|(Hpp & _ & it & ph' & fmt & tl & _ & _ & Hf & Htl & ->)].
    + rewrite formats_positional_escape by done. by eapply IH.
    + rewrite formats_positional_cons, fmap_cons by done. simpl.
      f_equal; [by apply ph_to_fmt_letter|by eapply IH].
Qed.

(** X2. Whenever the scanner returns, it returns one part for each match that
    is not [%%], in the order of the matches, and one closing part with the
    item [0] and the format [AUTO]; the parts of the placeholders hold all an
    index, which is their rank from 0, or all a name; the format of each is
    the one its last letter stands for. *)
Theorem split_query_invariant query encoding collapse parts :
  _split_query query encoding collapse = Ret parts →
  length parts = S (length (placeholders (tokens query))) ∧
  (∃ lp, last parts = Some (mkQueryPart lp (IInt 0) AUTO)) ∧
  (Forall (λ p, type_of (item p) = TyInt) (but_last parts)
   ∨ Forall (λ p, type_of (item p) = TyStr) (but_last parts)) ∧
  (∀ k p, but_last parts !! k = Some p → type_of (item p) = TyInt →
          item p = IInt k) ∧
  format <$> but_last parts
  = (λ t, letter_format (group0 t.2)) <$> placeholders (tokens query).
Proof.
  intros Hsplit.
  destruct (split_query_parts _ _ _ _ Hsplit) as (body & lp & -> & Hty & Hnum).
  rewrite split_query_scan in Hsplit. apply scan_formats in Hsplit.
  rewrite fmap_app in Hsplit. apply app_inj_tail in Hsplit as [Hf _].
  rewrite but_last_snoc. split_and!.
  - rewrite length_app, <- (length_fmap format body), Hf.
    unfold formats_positional. rewrite length_fmap. simpl. lia.
  - exists lp. by rewrite last_snoc.
  - destruct Hty as [?|[_ ?]]; [by left|by right].
  - done.
  - done.
Qed.

(** ** The parsed query and the validated parameters *)

Lemma positional_not_named body lp :
  Forall (λ p, type_of (item p) = TyInt) body →
  ¬ named (body ++ [mkQueryPart lp (IInt 0) AUTO]).
Proof.
  intros Hint (p0 & Hp0 & Hty).
  destruct body as [|p body]; simpl in Hp0; injection Hp0 as <-; [done|].
  apply Forall_cons in Hint as [Hint _]. congruence.
Qed.

Lemma named_snoc body lp :
  body ≠ [] → Forall (λ p, type_of (item p) = TyStr) body →
  named (body ++ [mkQueryPart lp (IInt 0) AUTO]).
Proof.
  intros Hne Hstr. destruct body as [|p0 body]; [done|].
  exists p0. split; [done|]. by apply Forall_cons in Hstr as [? _].
Qed.

(** What the server-bind assembler returns, by the kind of the query. *)
Lemma query2pg_nocache_cases query encoding rq fmts order parts :
  _query2pg_nocache query encoding = Ret (rq, fmts, order, parts) →
  ∃ body lp,
    parts = body ++ [mkQueryPart lp (IInt 0) AUTO] ∧
    ((Forall (λ p, type_of (item p) = TyInt) body ∧
      order = None ∧ fmts = format <$> body ∧
      rq = weave (pre <$> parts)
                 ((λ p, marker (item_index (item p) + 1)) <$> body))
     ∨ (body ≠ [] ∧ Forall (λ p, type_of (item p) = TyStr) body ∧
        ¬ conflict (occurrences body) ∧
        order = Some (distinct (name_of <$> body)) ∧
        Forall2 (λ n f, first_format (occurrences body) n = Some f)
                (distinct (name_of <$> body)) fmts ∧
        rq = weave (pre <$> parts)
                   (named_marker (distinct (name_of <$> body)) <$> body))).
Proof.
  intros Hpg. pose proof (query2pg_nocache_inv _ _ _ _ _ _ Hpg) as Hsplit.
  destruct (split_query_parts _ _ _ _ Hsplit) as (body & lp & -> & Hty & _).
  exists body, lp. split; [done|]. rewrite fmap_app.
  destruct Hty as [Hint|[Hne Hstr]].
  - rewrite (query2pg_positional _ _ _ _ Hsplit Hint) in Hpg.
    injection Hpg as <- <- <-. by left.
  - destruct (query2pg_named _ _ _ _ Hsplit Hne Hstr) as [Hc Hn].
    destruct (decide (conflict (occurrences body))) as [Hconf|Hconf].
    { destruct (Hc Hconf) as (n & f & _ & _ & Hr). congruence. }
    destruct (Hn Hconf) as (fmts' & Hr & Hfm). rewrite Hr in Hpg.
    injection Hpg as <- <- <-. rewrite occurrences_names in *. by right.
Qed.

(** What the client-bind assembler returns, by the kind of the query. *)
Lemma query2pg_client_nocache_cases query encoding tpl order parts :
  _query2pg_client_nocache query encoding = Ret (tpl, order, parts) →
  ∃ body lp,
    parts = body ++ [mkQueryPart lp (IInt 0) AUTO] ∧
    tpl = weave (pre <$> parts) (replicate (length body) b_pct_s) ∧
    ((Forall (λ p, type_of (item p) = TyInt) body ∧ order = None)
     ∨ (body ≠ [] ∧ Forall (λ p, type_of (item p) = TyStr) body ∧
        order = Some (name_of <$> body))).
Proof.
  intros Hpg. pose proof (query2pg_client_nocache_inv _ _ _ _ _ Hpg) as Hsplit.
  destruct (split_query_parts _ _ _ _ Hsplit) as (body & lp & -> & Hty & _).
  exists body, lp. split; [done|]. rewrite fmap_app.
  destruct Hty as [Hint|[Hne Hstr]].
  - rewrite (query2pg_client_positional _ _ _ _ Hsplit Hint) in Hpg.
    injection Hpg as <- <-. split; [done|]. by left.
  - rewrite (query2pg_client_named _ _ _ _ Hsplit Hne Hstr) in Hpg.
    injection Hpg as <- <-. split; [done|]. by right.
Qed.

(** X3. The name order tells the kind of the query: the server-bind assembler
    returns no name order exactly when the query is not named, and then one
    format per placeholder; a name order it returns is not empty, has no
    name twice, and has one format per name.  The client-bind assembler
    returns no name order exactly when the query is not named, and a name
    order with one entry per placeholder otherwise. *)
Theorem name_order_invariant query encoding :
  (∀ rq fmts order parts,
     _query2pg_nocache query encoding = Ret (rq, fmts, order, parts) →
     (order = None ↔ ¬ named parts) ∧
     (order = None → length fmts = length parts - 1) ∧
     (∀ names, order = Some names →
               names ≠ [] ∧ NoDup names ∧ length fmts = length names))
  ∧ (∀ tpl order parts,
       _query2pg_client_nocache query encoding = Ret (tpl, order, parts) →
       (order = None ↔ ¬ named parts) ∧
       (∀ names, order = Some names →
                 names ≠ [] ∧ length names = length parts - 1)).
Proof.
  split.
  - intros rq fmts order parts Hpg.
    destruct (query2pg_nocache_cases _ _ _ _ _ _ Hpg)
      as (body & lp & -> & [(Hint & -> & -> & _)|(Hne & Hstr & _ & -> & Hfm & _)]).
    + split_and!; [|by rewrite length_fmap, length_app; simpl; lia|done].
      split; [intros _; by apply positional_not_named|done].
    + split_and!; [|done|].
      * split; [done|]. intros Hnn. exfalso. apply Hnn. by apply named_snoc.
      * intros names [= <-]. split_and!.
        -- intros E. apply distinct_nil in E. by destruct body.
        -- apply distinct_NoDup.
        -- symmetry. by eapply Forall2_length.
  - intros tpl order parts Hpg.
    destruct (query2pg_client_nocache_cases _ _ _ _ _ Hpg)
      as (body & lp & -> & _ & [(Hint & ->)|(Hne & Hstr & ->)]).
    + split; [|done].
      split; [intros _; by apply positional_not_named|done].
    + split.
      * split; [done|]. intros Hnn. exfalso. apply Hnn. by apply named_snoc.
      * intros names [= <-]. split; [by destruct body|].
        rewrite length_fmap, length_app. simpl. lia.
Qed.

(** Validation of a sequence that returns. *)
Lemma validate_seq_Ret parts (l : list V) order params :
  0 < length parts →
  validate_and_reorder_params parts (PSeq l) order = Ret params →
  params = l ∧ length l = length parts - 1 ∧ (l = [] ∨ ¬ named parts).
Proof.
  intros Hlen. unfold validate_and_reorder_params.
  cbn [is_params_sequence mbind result_bind].
  destruct (decide _) as [|Heq]; [done|].
  assert (length l = length parts - 1) as Hl.
  { destruct (decide (length l = length parts - 1)); [done|].
    exfalso. apply Heq. lia. }
  case_bool_decide as Hne.
  - unfold getitem. destruct (parts !! 0) as [p0|] eqn:Hp0; simpl; [|done].
    rewrite is_int_type. case_bool_decide as Hty; simpl; [|done].
    intros [= <-]. split_and!; [done..|]. right.
    intros (p & Hp & Hs). congruence.
  - intros [= <-]. split_and!; [done..|]. left.
    by destruct (decide (l = [])).
Qed.

(** Validation of a mapping that returns. *)
Lemma validate_map_Ret parts (m : gmap string V) order params :
  validate_and_reorder_params parts (PMap m) order = Ret params →
  (m = ∅ ∨ length parts ≤ 1 ∨ named parts) ∧
  match order with
  | Some (o :: os) => mapM (λ n, m !! n) (o :: os) = Some params
  | _ => params = []
  end.
Proof.
  unfold validate_and_reorder_params.
  cbn [is_params_sequence mbind result_bind].
  assert ((if bool_decide (m ≠ ∅) && bool_decide (1 < length parts)
           then p1 ← getitem parts 0;
                if negb (is_str (item p1))
                then Raise (TypeError msg_need_sequence) else Ret ()
           else Ret ()) = Ret () →
          m = ∅ ∨ length parts ≤ 1 ∨ named parts) as Hguard.
  { case_bool_decide as Hm; simpl.
    2:{ intros _. left. by destruct (decide (m = ∅)). }
    case_bool_decide as Hl; simpl; [|intros _; right; left; lia].
    unfold getitem. destruct (parts !! 0) as [p0|] eqn:Hp0; simpl; [|done].
    rewrite is_str_type. case_bool_decide as Hty; simpl; [|done].
    intros _. right. right. by exists p0. }
  destruct (if _ && _ then _ else _) as [[]|]; cbn [mbind result_bind];
    [|done].
  intros Hres. split; [by apply Hguard|].
  destruct order as [[|o os]|]; try by injection Hres as <-.
  destruct (mapM _ (o :: os)); [by injection Hres as <-|done].
Qed.

(** X4. The parameters go with the formats.  When the server-bind assembler has
    parsed a query and validation returns parameters, there are as many
    parameters as formats; the one exception is the empty mapping given to
    a query with positional placeholders. *)
Theorem params_match_formats query encoding rq fmts order parts vars params :
  _query2pg_nocache query encoding = Ret (rq, fmts, order, parts) →
  validate_and_reorder_params parts vars order = Ret params →
  vars ≠ PMap ∅ ∨ ¬ positional parts →
  length params = length fmts.
Proof.
  intros Hpg Hval Hcase.
  destruct (query2pg_nocache_cases _ _ _ _ _ _ Hpg)
    as (body & lp & -> & [(Hint & -> & -> & _)|(Hne & Hstr & _ & -> & Hfm & _)]).
  - rewrite length_fmap. destruct vars as [l|m|t len]; [| |done].
    + apply validate_seq_Ret in Hval as (-> & Hl & _).
      * rewrite Hl, length_app. simpl. lia.
      * rewrite length_app. simpl. lia.
    + apply validate_map_Ret in Hval as (Hg & ->).
      destruct body as [|p0 body]; [done|]. exfalso.
      destruct Hg as [->|[Hg|Hg]].
      * destruct Hcase as [Hc|Hc]; [done|]. apply Hc. split.
        -- rewrite length_app. simpl. lia.
        -- exists p0. split; [done|]. by apply Forall_cons in Hint as [? _].
      * rewrite length_app in Hg. simpl in Hg. lia.
      * by apply (positional_not_named _ lp Hint).
  - rewrite <- (Forall2_length _ _ _ Hfm).
    assert (named (body ++ [mkQueryPart lp (IInt 0) AUTO])) as Hnamed
      by (by apply named_snoc).
    assert (distinct (name_of <$> body) ≠ []) as Hd.
    { intros E. apply distinct_nil in E. by destruct body. }
    destruct vars as [l|m|t len]; [| |done].
    + apply validate_seq_Ret in Hval as (_ & Hl & [->|Hnn]); [|done|].
      * rewrite length_app in Hl. simpl in Hl. destruct body; [done|].
        simpl in Hl. lia.
      * rewrite length_app. simpl. lia.
    + apply validate_map_Ret in Hval as (_ & Hm).
      destruct (distinct (name_of <$> body)) as [|o os] eqn:E; [done|].
      symmetry. by eapply length_mapM.
Qed.

(** X5. The client-bind counterpart: there are as many validated parameters as
    [%s] markers in the template, with the same exception. *)
Theorem params_match_markers query encoding tpl order parts vars params :
  _query2pg_client_nocache query encoding = Ret (tpl, order, parts) →
  validate_and_reorder_params parts vars order = Ret params →
  vars ≠ PMap ∅ ∨ ¬ positional parts →
  tpl = weave (pre <$> parts) (replicate (length params) b_pct_s).
Proof.
  intros Hpg Hval Hcase.
  destruct (query2pg_client_nocache_cases _ _ _ _ _ Hpg)
    as (body & lp & -> & -> & [(Hint & ->)|(Hne & Hstr & ->)]).
  - do 2 f_equal. destruct vars as [l|m|t len]; [| |done].
    + apply validate_seq_Ret in Hval as (-> & Hl & _).
      * rewrite Hl, length_app. simpl. lia.
      * rewrite length_app. simpl. lia.
    + apply validate_map_Ret in Hval as (Hg & ->).
      destruct body as [|p0 body]; [done|]. exfalso.
      destruct Hg as [->|[Hg|Hg]].
      * destruct Hcase as [Hc|Hc]; [done|]. apply Hc. split.
        -- rewrite length_app. simpl. lia.
        -- exists p0. split; [done|]. by apply Forall_cons in Hint as [? _].
      * rewrite length_app in Hg. simpl in Hg. lia.
      * by apply (positional_not_named _ lp Hint).
  - do 2 f_equal.
    assert (named (body ++ [mkQueryPart lp (IInt 0) AUTO])) as Hnamed
      by (by apply named_snoc).
    destruct vars as [l|m|t len]; [| |done].
    + apply validate_seq_Ret in Hval as (_ & Hl & [->|Hnn]); [|done|].
      * rewrite length_app in Hl. simpl in Hl. destruct body; [done|].
        simpl in Hl. lia.
      * rewrite length_app. simpl. lia.
    + apply validate_map_Ret in Hval as (_ & Hm).
      destruct body as [|p0 body]; [done|]. rewrite fmap_cons in Hm.
      apply length_mapM in Hm. rewrite <- Hm. simpl. by rewrite length_fmap.
Qed.

(** ** Validation against the parsed query *)

(** X6. The parameters of a query without placeholders: every mapping is
    accepted and gives no parameter, a sequence is accepted only when it is
    empty. *)
Theorem params_without_placeholders query encoding order parts :
  (∃ rq fmts, _query2pg_nocache query encoding = Ret (rq, fmts, order, parts))
  ∨ (∃ tpl, _query2pg_client_nocache query encoding
            = Ret (tpl, order, parts)) →
  length parts = 1 →
  (∀ m : gmap string V,
     validate_and_reorder_params parts (PMap m) order = Ret [])
  ∧ (∀ l : list V,
       validate_and_reorder_params parts (PSeq l) order
       = if decide (l = []) then Ret []
         else Raise (ProgrammingError (msg_count 0 (length l)))).
Proof.
  intros Hpg Hlen.
  assert (∃ lp, parts = [mkQueryPart lp (IInt 0) AUTO] ∧ order = None)
    as (lp & -> & ->).
  { destruct Hpg as [(rq & fmts & Hpg)|(tpl & Hpg)].
    - destruct (query2pg_nocache_cases _ _ _ _ _ _ Hpg)
        as (body & lp & -> & Hc).
      rewrite length_app in Hlen. destruct body; [|simpl in Hlen; lia].
      exists lp. split; [done|].
      by destruct Hc as [(_ & -> & _)|(? & _)].
    - destruct (query2pg_client_nocache_cases _ _ _ _ _ Hpg)
        as (body & lp & -> & _ & Hc).
      rewrite length_app in Hlen. destruct body; [|simpl in Hlen; lia].
      exists lp. split; [done|].
      by destruct Hc as [(_ & ->)|(? & _)]. }
  split.
  - intros m. unfold validate_and_reorder_params.
    cbn [is_params_sequence mbind result_bind].
    by destruct (bool_decide (m ≠ ∅)).
  - intros l. unfold validate_and_reorder_params.
    cbn [is_params_sequence mbind result_bind].
    destruct l as [|v l]; [done|].
    destruct (decide _) as [|Heq]; [done|].
    exfalso. apply Heq. simpl. lia.
Qed.

Lemma validate_named_mapping parts (m : gmap string V) names :
  named parts → names ≠ [] →
  validate_and_reorder_params parts (PMap m) (Some names)
  = match mapM (λ n, m !! n) names with
    | Some params => Ret params
    | None => Raise (ProgrammingError
                       (msg_missing (filter (λ i, m !! i = None) names)))
    end.
Proof.
  intros (p0 & Hp0 & Hty) Hne. unfold validate_and_reorder_params.
  cbn [is_params_sequence mbind result_bind].
  assert ((if bool_decide (m ≠ ∅) && bool_decide (1 < length parts)
           then p1 ← getitem parts 0;
                if negb (is_str (item p1))
                then Raise (TypeError msg_need_sequence) else Ret ()
           else Ret ()) = Ret ()) as ->.
  { destruct (_ && _); [|done]. unfold getitem. rewrite Hp0.
    cbn [mbind result_bind]. rewrite is_str_type.
    by rewrite bool_decide_eq_true_2. }
  cbn [mbind result_bind]. by destruct names.
Qed.

Lemma lookups_agree (m m' : gmap string V) names :
  (∀ n, n ∈ names → m !! n = m' !! n) →
  mapM (λ n, m !! n) names = mapM (λ n, m' !! n) names ∧
  filter (λ i, m !! i = None) names = filter (λ i, m' !! i = None) names.
Proof.
  induction names as [|n names IH]; intros Hag; [done|].
  destruct IH as [IH1 IH2].
  { intros k Hk. apply Hag. by right. }
  assert (m !! n = m' !! n) as Hn by (apply Hag; by left).
  split.
  - cbn [mapM]. by rewrite Hn, IH1.
  - rewrite !filter_cons. rewrite IH2.
    destruct (decide (m !! n = None)) as [E|E];
      destruct (decide (m' !! n = None)) as [E'|E']; try done.
    + rewrite Hn in E. done.
    + rewrite <- Hn in E'. done.
Qed.

(** X7. Validation looks a mapping up at the names of the query only: two
    mappings that agree on these names give the same parameters, or the same
    error; keys the query does not name are ignored. *)
Theorem mapping_extra_keys query encoding names parts (m m' : gmap string V) :
  (∃ rq fmts, _query2pg_nocache query encoding
              = Ret (rq, fmts, Some names, parts))
  ∨ (∃ tpl, _query2pg_client_nocache query encoding
            = Ret (tpl, Some names, parts)) →
  (∀ n, n ∈ names → m !! n = m' !! n) →
  validate_and_reorder_params parts (PMap m) (Some names)
  = validate_and_reorder_params parts (PMap m') (Some names).
Proof.
  intros Hpg Hag. destruct (name_order_named _ _ _ _ Hpg) as [Hnamed Hne].
  rewrite !validate_named_mapping by done.
  destruct (lookups_agree m m' names Hag) as [-> ->]. done.
Qed.

Lemma index_of_lookup x l i : index_of x l = Some i → l !! i = Some x.
Proof.
  revert i. induction l as [|y l IH]; intros i; simpl; [done|].
  destruct (decide (x = y)) as [->|Hne]; [by intros [= <-]|].
  destruct (index_of x l) as [j|]; [|done].
  intros [= <-]. by apply IH.
Qed.

(** X8. Named parameters follow the markers.  When the server-bind assembler has
    parsed a named query and validation of a mapping returns, the marker
    written for a placeholder [%(name)x] is [$N] with: the [N]-th validated
    parameter is the value of [name] in the mapping, and the [N]-th format
    is the format [x] of the placeholder. *)
Theorem named_values_follow_markers query encoding rq fmts names parts
    (m : gmap string V) params :
  _query2pg_nocache query encoding = Ret (rq, fmts, Some names, parts) →
  validate_and_reorder_params parts (PMap m) (Some names) = Ret params →
  rq = weave (pre <$> parts) (named_marker names <$> but_last parts) ∧
  ∀ p, p ∈ but_last parts →
       ∃ idx v, named_marker names p = marker (idx + 1) ∧
                m !! name_of p = Some v ∧ params !! idx = Some v ∧
                fmts !! idx = Some (format p).
Proof.
  intros Hpg Hval.
  destruct (query2pg_nocache_cases _ _ _ _ _ _ Hpg)
    as (body & lp & -> & [(_ & Ho & _)|(Hne & Hstr & Hconf & Ho & Hfm & ->)]);
    [done|].
  injection Ho as ->. rewrite but_last_snoc. split; [done|].
  intros p Hp.
  apply validate_map_Ret in Hval as (_ & Hm).
  assert (mapM (λ n, m !! n) (distinct (name_of <$> body)) = Some params)
    as Hall.
  { destruct (distinct (name_of <$> body)) as [|o os] eqn:E; [|done].
    apply distinct_nil in E. by destruct body. }
  clear Hm. apply mapM_Some in Hall.
  assert (name_of p ∈ distinct (name_of <$> body)) as Hin.
  { apply distinct_elem. apply list_elem_of_fmap. by exists p. }
  destruct (index_of (name_of p) (distinct (name_of <$> body)))
    as [idx|] eqn:Hidx.
  2:{ apply index_of_None in Hidx. done. }
  pose proof (index_of_lookup _ _ _ Hidx) as Hl.
  destruct (Forall2_lookup_l _ _ _ _ _ Hall Hl) as (v & Hv & Hmv).
  destruct (Forall2_lookup_l _ _ _ _ _ Hfm Hl) as (f & Hf & Hff).
  exists idx, v. split_and!; [|done|done|].
  - unfold named_marker. by rewrite Hidx.
  - rewrite Hf. f_equal.
    destruct (decide (first_format (occurrences body) (name_of p)
                      = Some (format p))) as [E|E]; [congruence|].
    exfalso. apply Hconf. apply Exists_exists.
    exists (name_of p, format p). split; [|done].
    apply list_elem_of_fmap. by exists p.
Qed.

(** ** The two assemblers on the same query *)

Lemma fmap_snoc_inv {A B} (f : A → B) (l1 l2 : list A) x1 x2 :
  f <$> l1 ++ [x1] = f <$> l2 ++ [x2] → f <$> l1 = f <$> l2.
Proof.
  rewrite !fmap_app. intros H. by apply app_inj_2 in H as [? _].
Qed.

Lemma Forall_type_ext t (b1 b2 : list QueryPart) :
  item <$> b1 = item <$> b2 →
  Forall (λ p, type_of (item p) = t) b1 →
  Forall (λ p, type_of (item p) = t) b2.
Proof.
  revert b2. induction b1 as [|p b1 IH]; intros [|q b2]; simpl; try done.
  intros [= Hi Hb] Hall. apply Forall_cons in Hall as [Hp Hall].
  constructor; [by rewrite <- Hi|by apply IH].
Qed.

Lemma name_of_ext (b1 b2 : list QueryPart) :
  item <$> b1 = item <$> b2 → name_of <$> b1 = name_of <$> b2.
Proof.
  revert b2. induction b1 as [|p b1 IH]; intros [|q b2]; simpl; try done.
  intros [= Hi Hb]. unfold name_of at 1 3. rewrite Hi. f_equal. by apply IH.
Qed.

(** X9. The two assemblers accept the same placeholders.  On one query both
    fail with the same exception, or both return, with the same items and
    formats in their parts and with the name order of the server-bind
    assembler being the names of the client-bind one, each kept once; or
    the server-bind assembler alone fails, on a name that asks for two
    formats.  The client-bind assembler never fails alone. *)
Theorem assemblers_agree query encoding :
  match _query2pg_nocache query encoding,
        _query2pg_client_nocache query encoding with
  | Ret (rq, fmts, order, parts), Ret (tpl, order', parts') =>
      item <$> parts = item <$> parts' ∧ format <$> parts = format <$> parts' ∧
      order = distinct <$> order'
  | Raise e, Raise e' => e = e'
  | Raise e, Ret (tpl, order', parts') =>
      (∃ n, e = ProgrammingError (msg_formats n)) ∧
      named parts' ∧ conflict (occurrences (but_last parts'))
  | Ret _, Raise _ => False
  end.
Proof.
  pose proof (split_query_collapse query encoding) as Hcol.
  destruct (_split_query query encoding true) as [p1|e1] eqn:H1;
    destruct (_split_query query encoding false) as [p2|e2] eqn:H2;
    try done.
  2:{ subst e2. unfold _query2pg_nocache, _query2pg_client_nocache.
      by rewrite H1, H2. }
  destruct Hcol as [Hi Hf].
  destruct (split_query_parts _ _ _ _ H1) as (b1 & l1 & -> & Hty1 & _).
  destruct (split_query_parts _ _ _ _ H2) as (b2 & l2 & -> & Hty2 & _).
  pose proof (fmap_snoc_inv _ _ _ _ _ Hi) as Hib.
  pose proof (fmap_snoc_inv _ _ _ _ _ Hf) as Hfb.
  destruct Hty1 as [Hint|[Hne Hstr]].
  - rewrite (query2pg_positional _ _ _ _ H1 Hint).
    rewrite (query2pg_client_positional _ _ _ _ H2
               (Forall_type_ext _ _ _ Hib Hint)).
    done.
  - assert (b2 ≠ []) as Hne2.
    { intros ->. destruct b1; [done|]. done. }
    pose proof (Forall_type_ext _ _ _ Hib Hstr) as Hstr2.
    rewrite (query2pg_client_named _ _ _ _ H2 Hne2 Hstr2).
    destruct (query2pg_named _ _ _ _ H1 Hne Hstr) as [Hc Hn].
    rewrite (occurrences_ext _ _ Hib Hfb) in Hc, Hn.
    destruct (decide (conflict (occurrences b2))) as [Hconf|Hconf].
    + destruct (Hc Hconf) as (n & f & _ & _ & ->).
      rewrite but_last_snoc. split_and!; [by exists n| |done].
      by apply named_snoc.
    + destruct (Hn Hconf) as (fmts' & -> & _).
      split_and!; [done..|]. simpl. by rewrite occurrences_names.
Qed.

(** ** The client-bind template *)

Lemma render_client_weave last toks :
  ∀ carry,
    carry ++ render_client toks last
    = weave (segments false carry toks last)
            (replicate (length (placeholders toks)) b_pct_s).
Proof.
  induction toks as [|[pre0 m] toks IH]; intros carry.
  - done.
  - cbn [render_client segments].
    destruct (decide (group0 m = b_pct_pct)) as [E|E].
    + assert (placeholders ((pre0, m) :: toks) = placeholders toks) as ->.
      { unfold placeholders. rewrite filter_cons_False; [done|].
        intros Hn. by apply Hn. }
      rewrite <- IH. by rewrite <- !app_assoc.
    + assert (placeholders ((pre0, m) :: toks)
              = (pre0, m) :: placeholders toks) as ->.
      { unfold placeholders. by rewrite filter_cons_True. }
      cbn [length replicate weave]. rewrite <- (IH []). simpl.
      by rewrite <- !app_assoc.
Qed.

Lemma render_client_reassemble last toks :
  Forall (λ t, group0 t.2 ∈ [b_pct_pct; b_pct_s]) toks →
  render_client toks last = reassemble toks last.
Proof.
  unfold reassemble. induction 1 as [|[pre0 m] toks Hm _ IH]; [done|].
  cbn [render_client]. rewrite fmap_cons, concat_cons. simpl in Hm.
  rewrite IH, <- !app_assoc. do 2 f_equal. cbn [snd].
  destruct (decide (group0 m = b_pct_pct)) as [E|E]; [by rewrite E|].
  apply elem_of_cons in Hm as [?|Hm]; [done|].
  by apply list_elem_of_singleton in Hm as ->.
Qed.

(** X10. The template of the client-bind assembler is the query with every
    placeholder written [%s], the [%%] escapes and the text around them left
    as they are; for a query whose matches are all [%s] or [%%] it is the
    query itself. *)
Theorem client_template query encoding tpl order parts :
  _query2pg_client_nocache query encoding = Ret (tpl, order, parts) →
  tpl = render_client (tokens query) (trailer query) ∧
  (Forall (λ m, group0 m ∈ [b_pct_pct; b_pct_s]) (finditer query) →
   tpl = query).
Proof.
  intros Hpg.
  assert (tpl = render_client (tokens query) (trailer query)) as ->.
  { pose proof (query2pg_client_nocache_inv _ _ _ _ _ Hpg) as Hsplit.
    destruct (query2pg_client_nocache_cases _ _ _ _ _ Hpg)
      as (body & lp & -> & -> & _).
    rewrite split_query_scan in Hsplit.
    rewrite (scan_segments _ _ _ _ _ _ _ _ _ Hsplit).
    apply scan_formats in Hsplit.
    rewrite fmap_app in Hsplit. apply app_inj_2 in Hsplit as [Hsplit _]; [|done].
    apply (f_equal length) in Hsplit.
    unfold formats_positional in Hsplit. rewrite !length_fmap in Hsplit.
    rewrite Hsplit. by rewrite <- render_client_weave. }
  split; [done|]. intros Hall.
  rewrite render_client_reassemble; [apply tokens_reassemble|].
  rewrite <- tokens_snd in Hall. by apply Forall_fmap in Hall.
Qed.

(** ** The outcome of the scanner *)

Lemma finditer_from_in_query query s :
  ∀ pos skip m,
    s = drop pos query → m ∈ finditer_from pos skip s → in_query query m.
Proof.
  induction s as [|c s IH]; intros pos skip m Hs Hm;
    cbn [finditer_from] in Hm.
  { by apply elem_of_nil in Hm. }
  assert (s = drop (S pos) query) as Hs'.
  { by rewrite <- (Nat.add_1_r pos), <- drop_drop, <- Hs. }
  destruct skip as [|k]; [|by apply (IH _ _ _ Hs' Hm)].
  destruct (match_here (c :: s)) as [[g0 g1]|] eqn:E;
    [|by apply (IH _ _ _ Hs' Hm)].
  apply elem_of_cons in Hm as [->|Hm]; [|by apply (IH _ _ _ Hs' Hm)].
  apply match_here_prefix in E as [Hg Hl2].
  unfold in_query. cbn [group0 m_start]. split; [done|]. by rewrite <- Hs.
Qed.

Lemma tokens_in_query query :
  Forall (λ t, in_query query t.2) (tokens query).
Proof.
  apply Forall_forall. intros t Ht.
  apply (finditer_from_in_query query query 0 0); [done|].
  fold (finditer query). rewrite <- tokens_snd.
  apply list_elem_of_fmap. by exists t.
Qed.

Lemma ph_to_fmt_total g :
  g ≠ [] → bytes_in (last_byte g) b_sbt = true →
  ∃ fmt, _ph_to_fmt (last_byte g) = Ret fmt.
Proof.
  intros Hg. unfold last_byte.
  assert (∃ x, drop (length g - 1) g = [x]) as [x ->].
  { destruct (drop (length g - 1) g) as [|x [|y r]] eqn:E.
    - apply (f_equal length) in E. rewrite length_drop in E.
      destruct g; [done|]. simpl in E. lia.
    - by exists x.
    - apply (f_equal length) in E. rewrite length_drop in E. simpl in E. lia. }
  unfold _ph_to_fmt.
  destruct (decide ([x] = ["s"%byte])); [by eexists|].
  destruct (decide ([x] = ["t"%byte])); [by eexists|].
  destruct (decide ([x] = ["b"%byte])); [by eexists|].
  intros H. exfalso. cbv [bytes_in is_prefix b_sbt] in H.
  repeat case_bool_decide; simpl in H; try done; by subst.
Qed.

Lemma item_of_kind encoding m i :
  match item_of encoding m i with
  | Ret it => type_of it = ph_kind m ∧ decodable encoding m
  | Raise e => e = UnicodeDecodeError ∧ ¬ decodable encoding m
  end.
Proof.
  unfold item_of, ph_kind, decodable, bytes_decode.
  destruct (group1 m) as [[|c n]|]; try done.
  destruct (decode encoding (c :: n)); simpl.
  - split; [done|by eexists].
  - split; [done|]. by intros [? ?].
Qed.

Lemma placeholders_escape pre0 m toks :
  group0 m = b_pct_pct → placeholders ((pre0, m) :: toks) = placeholders toks.
Proof.
  intros H. unfold placeholders.
  rewrite filter_cons_False; [done|]. intros Hn. by apply Hn.
Qed.

Lemma placeholders_cons pre0 m toks :
  group0 m ≠ b_pct_pct →
  placeholders ((pre0, m) :: toks) = (pre0, m) :: placeholders toks.
Proof. intros H. unfold placeholders. by rewrite filter_cons_True. Qed.

Lemma scan_accepts query encoding collapse last toks :
  ∀ carry i ph,
    Forall (λ t, in_query query t.2) toks →
    (∃ parts, scan query encoding collapse carry toks last i ph = Ret parts) ↔
    Forall (λ t, legal_form (group0 t.2)) toks ∧
    Forall (λ t, decodable encoding t.2) (placeholders toks) ∧
    ∃ ty, (∀ t, ph = Some t → t = ty) ∧
          Forall (λ t, ph_kind t.2 = ty) (placeholders toks).
Proof.
  induction toks as [|[pre0 m] toks IH]; intros carry i ph Hin.
  { split; [|intros _; by eexists].
    intros _. split_and!; [constructor..|].
    exists (default TyInt ph). split; [by intros t ->|constructor]. }
  apply Forall_cons in Hin as [[Hlen _] Hin]. cbn [snd] in Hlen.
  cbn [scan]. destruct (decide (group0 m = b_pct_pct)) as [Hpp|Hpp].
  { rewrite placeholders_escape by done. split.
    - intros H. apply IH in H as (H1 & H2 & H3); [|done].
      split_and!; [|done..]. constructor; [by left|done].
    - intros (H1 & H2 & H3). apply IH; [done|].
      apply Forall_cons in H1 as [_ H1]. done. }
  rewrite placeholders_cons by done.
  destruct (decide (group0 m = b_pct_lparen)) as [Hlp|Hlp].
  { split.
    - intros [parts H]. destruct (getitem _ 0); simpl in H; [|done].
      destruct (bytes_decode _ _); simpl in H; done.
    - intros (H1 & _). apply Forall_cons in H1 as [[?|(? & _)] _]; done. }
  destruct (decide (group0 m = b_pct_space)) as [Hsp|Hsp].
  { split; [by intros [? ?]|].
    intros (H1 & _). apply Forall_cons in H1 as [[?|(_ & ? & _)] _]; done. }
  destruct (bytes_in (last_byte (group0 m)) b_sbt) eqn:Hsbt; cbn [negb].
  2:{ split.
      - intros [parts H]. destruct (bytes_decode _ _); simpl in H; done.
      - intros (H1 & _).
        apply Forall_cons in H1 as [[?|(_ & _ & ?)] _]; [done|].
        cbn [snd] in *. congruence. }
  assert (legal_form (group0 m)) as Hlegal by (by right).
  pose proof (item_of_kind encoding m i) as Hit.
  destruct (item_of encoding m i) as [it|e]; cbn [mbind result_bind].
  2:{ destruct Hit as [_ Hnd]. split; [by intros [? ?]|].
      intros (_ & H2 & _). by apply Forall_cons in H2 as [? _]. }
  destruct Hit as [Hty Hdec].
  destruct (ph_to_fmt_total (group0 m)) as [fmt Hfmt]; [|done|].
  { intros E. rewrite E in Hlen. simpl in Hlen. lia. }
  specialize (IH [] (S i) (Some (type_of it)) Hin).
  assert ((∃ parts,
             (fmt0 ← _ph_to_fmt (last_byte (group0 m));
              tl ← scan query encoding collapse [] toks last (S i)
                     (Some (type_of it));
              Ret (mkQueryPart (carry ++ pre0) it fmt0 :: tl)) = Ret parts) ↔
          Forall (λ t, legal_form (group0 t.2)) toks ∧
          Forall (λ t, decodable encoding t.2) (placeholders toks) ∧
          Forall (λ t, ph_kind t.2 = ph_kind m) (placeholders toks)) as Hrest.
  { rewrite Hfmt. cbn [mbind result_bind]. split.
    - intros [parts H].
      destruct (scan query encoding collapse [] toks last (S i)
                  (Some (type_of it))) as [tl|]; [|done].
      destruct (proj1 IH) as (H1 & H2 & ty & Hph & H3); [by eexists|].
      split_and!; [done..|].
      by rewrite <- Hty, (Hph _ eq_refl).
    - intros (H1 & H2 & H3). destruct (proj2 IH) as [tl ->]; [|by eexists].
      split_and!; [done..|]. exists (ph_kind m).
      split; [|done]. intros t [= <-]. done. }
  unfold check_phtype. destruct ph as [t|].
  - destruct (decide (t = type_of it)) as [->|Hne]; cbn [mbind result_bind].
    + rewrite Hrest. split.
      * intros (H1 & H2 & H3). split_and!; [by constructor..|].
        exists (ph_kind m). split; [by intros t [= <-]|by constructor].
      * intros (H1 & H2 & ty & Hph & H3).
        apply Forall_cons in H1 as [_ H1]. apply Forall_cons in H2 as [_ H2].
        apply Forall_cons in H3 as [Hk H3]. cbn [snd] in Hk.
        split_and!; [done..|]. by rewrite Hk.
    + split; [by intros [? ?]|].
      intros (_ & _ & ty & Hph & H3). apply Forall_cons in H3 as [Hk _].
      cbn [snd] in Hk. specialize (Hph t eq_refl). congruence.
  - cbn [mbind result_bind]. rewrite Hrest. split.
    + intros (H1 & H2 & H3). split_and!; [by constructor..|].
      exists (ph_kind m). split; [done|by constructor].
    + intros (H1 & H2 & ty & Hph & H3).
      apply Forall_cons in H1 as [_ H1]. apply Forall_cons in H2 as [_ H2].
      apply Forall_cons in H3 as [Hk H3]. cbn [snd] in Hk.
      split_and!; [done..|]. by rewrite Hk.
Qed.

(** X11. The scanner returns exactly when every match of the regular expression
    has a legal form, the name of every named placeholder can be decoded,
    and the placeholders are all positional or all named. *)
Theorem split_query_accepts query encoding collapse :
  (∃ parts, _split_query query encoding collapse = Ret parts) ↔
  Forall (λ t, legal_form (group0 t.2)) (tokens query) ∧
  Forall (λ t, decodable encoding t.2) (placeholders (tokens query)) ∧
  ∃ ty, Forall (λ t, ph_kind t.2 = ty) (placeholders (tokens query)).
Proof.
  rewrite split_query_scan.
  rewrite (scan_accepts _ _ _ _ _ _ _ _ (tokens_in_query query)).
  split.
  - intros (H1 & H2 & ty & _ & H3). split_and!; [done..|]. by exists ty.
  - intros (H1 & H2 & ty & H3). split_and!; [done..|]. by exists ty.
Qed.

Lemma split_ws_Some w s : ∃ w' r, split_ws (Some w) s = w' :: r.
Proof.
  revert w. induction s as [|c s IH]; intros w; simpl; [by eexists _, _|].
  destruct (is_space c); [by eexists _, _|]. apply IH.
Qed.

Lemma incomplete_fragment query m :
  in_query query m → group0 m = b_pct_lparen →
  ∃ w, head (bytes_split (slice_from query (m_start m))) = Some w ∧
       getitem (bytes_split (slice_from query (m_start m))) 0 = Ret w.
Proof.
  intros [_ Hg] Hlp. rewrite Hlp in Hg. unfold slice_from.
  destruct (drop (m_start m) query) as [|a [|b r]]; try done.
  injection Hg as <- <-. unfold bytes_split.
  change (split_ws None (pct :: lparen :: r))
    with (split_ws (Some [pct]) (lparen :: r)).
  destruct (split_ws_Some [pct] (lparen :: r)) as (w & r' & ->).
  by exists w.
Qed.

Lemma scan_errors query encoding collapse last toks :
  ∀ carry i ph e,
    Forall (λ t, in_query query t.2) toks →
    scan query encoding collapse carry toks last i ph = Raise e →
    e = UnicodeDecodeError
    ∨ (∃ t w frag,
         t ∈ toks ∧ group0 t.2 = b_pct_lparen ∧
         head (bytes_split (slice_from query (m_start t.2))) = Some w ∧
         decode encoding w = Some frag ∧
         e = ProgrammingError (msg_incomplete frag))
    ∨ (∃ t, t ∈ toks ∧ group0 t.2 = b_pct_space ∧
            e = ProgrammingError msg_incomplete_percent)
    ∨ (∃ t got,
         t ∈ toks ∧ ¬ legal_form (group0 t.2) ∧
         decode encoding (group0 t.2) = Some got ∧
         e = ProgrammingError (msg_unsupported got))
    ∨ (e = ProgrammingError msg_mixed ∧
       ∃ t1, t1 ∈ placeholders toks ∧
             match ph with
             | Some ty => ph_kind t1.2 ≠ ty
             | None => ∃ t2, t2 ∈ placeholders toks ∧
                             ph_kind t2.2 ≠ ph_kind t1.2
             end).
Proof.
  induction toks as [|[pre0 m] toks IH]; intros carry i ph e Hin H; [done|].
  apply Forall_cons in Hin as [Hm Hin]. cbn [snd] in Hm.
  assert (∀ carry' i' ph',
    scan query encoding collapse carry' toks last i' ph' = Raise e →
    (∀ t1, t1 ∈ placeholders toks →
           match ph' with
           | Some ty => ph_kind t1.2 ≠ ty
           | None => ∃ t2, t2 ∈ placeholders toks ∧
                           ph_kind t2.2 ≠ ph_kind t1.2
           end →
           ∃ t1', t1' ∈ placeholders ((pre0, m) :: toks) ∧
                  match ph with
                  | Some ty => ph_kind t1'.2 ≠ ty
                  | None => ∃ t2, t2 ∈ placeholders ((pre0, m) :: toks) ∧
                                  ph_kind t2.2 ≠ ph_kind t1'.2
                  end) →
    e = UnicodeDecodeError
    ∨ (∃ t w frag,
         t ∈ (pre0, m) :: toks ∧ group0 t.2 = b_pct_lparen ∧
         head (bytes_split (slice_from query (m_start t.2))) = Some w ∧
         decode encoding w = Some frag ∧
         e = ProgrammingError (msg_incomplete frag))
    ∨ (∃ t, t ∈ (pre0, m) :: toks ∧ group0 t.2 = b_pct_space ∧
            e = ProgrammingError msg_incomplete_percent)
    ∨ (∃ t got,
         t ∈ (pre0, m) :: toks ∧ ¬ legal_form (group0 t.2) ∧
         decode encoding (group0 t.2) = Some got ∧
         e = ProgrammingError (msg_unsupported got))
    ∨ (e = ProgrammingError msg_mixed ∧
       ∃ t1, t1 ∈ placeholders ((pre0, m) :: toks) ∧
             match ph with
             | Some ty => ph_kind t1.2 ≠ ty
             | None => ∃ t2, t2 ∈ placeholders ((pre0, m) :: toks) ∧
                             ph_kind t2.2 ≠ ph_kind t1.2
             end)) as Htail.
  { intros carry' i' ph' Hs Hmix.
    destruct (IH _ _ _ _ Hin Hs)
      as [?|[(t & w & frag & Ht & ?)|[(t & Ht & ?)|[(t & got & Ht & ?)
          |(-> & t1 & Ht1 & Hk)]]]].
    - by left.
    - right; left. exists t, w, frag. split; [by right|done].
    - right; right; left. exists t. split; [by right|done].
    - right; right; right; left. exists t, got. split; [by right|done].
    - right; right; right; right. split; [done|]. by apply (Hmix t1). }
  cbn [scan] in H. destruct (decide (group0 m = b_pct_pct)) as [Hpp|Hpp].
  { apply (Htail _ _ _ H). rewrite placeholders_escape by done.
    intros t1 Ht1 Hk. by exists t1. }
  destruct (decide (group0 m = b_pct_lparen)) as [Hlp|Hlp].
  { destruct (incomplete_fragment query m Hm Hlp) as (w & Hw & Hget).
    rewrite Hget in H. cbn [mbind result_bind] in H. unfold bytes_decode in H.
    destruct (decode encoding w) as [frag|] eqn:Hd; cbn [mbind result_bind] in H.
    - injection H as <-. right; left. exists (pre0, m), w, frag.
      split; [by left|done].
    - injection H as <-. by left. }
  destruct (decide (group0 m = b_pct_space)) as [Hsp|Hsp].
  { injection H as <-. right; right; left. exists (pre0, m).
    split; [by left|done]. }
  destruct (bytes_in (last_byte (group0 m)) b_sbt) eqn:Hsbt; cbn [negb] in H.
  2:{ unfold bytes_decode in H.
      destruct (decode encoding (group0 m)) as [got|] eqn:Hd;
        cbn [mbind result_bind] in H; injection H as <-; [|by left].
      right; right; right; left. exists (pre0, m), got.
      split_and!; [by left| |done|done].
      intros [?|(_ & _ & ?)]; [done|]. cbn [snd] in *. congruence. }
  pose proof (item_of_kind encoding m i) as Hit.
  destruct (item_of encoding m i) as [it|e']; cbn [mbind result_bind] in H.
  2:{ destruct Hit as [-> _]. injection H as <-. by left. }
  destruct Hit as [Hty _].
  destruct (ph_to_fmt_total (group0 m)) as [fmt Hfmt]; [|done|].
  { destruct Hm as [Hlen _]. intros E. rewrite E in Hlen. simpl in Hlen. lia. }
  assert ((pre0, m) ∈ placeholders ((pre0, m) :: toks)) as Hhead.
  { rewrite placeholders_cons by done. by left. }
  unfold check_phtype in H. destruct ph as [t|].
  - destruct (decide (t = type_of it)) as [->|Hne]; cbn [mbind result_bind] in H.
    + rewrite Hfmt in H. cbn [mbind result_bind] in H.
      destruct (scan query encoding collapse [] toks last (S i)
                  (Some (type_of it))) as [tl|e'] eqn:Hs;
        cbn [mbind result_bind] in H; [done|]. injection H as ->.
      apply (Htail _ _ _ Hs). intros t1 Ht1 Hk. exists t1.
      split; [|done]. rewrite placeholders_cons by done. by right.
    + injection H as <-. right; right; right; right. split; [done|].
      exists (pre0, m). split; [done|]. cbn [snd]. congruence.
  - cbn [mbind result_bind] in H. rewrite Hfmt in H.
    cbn [mbind result_bind] in H.
    destruct (scan query encoding collapse [] toks last (S i)
                (Some (type_of it))) as [tl|e'] eqn:Hs;
      cbn [mbind result_bind] in H; [done|]. injection H as ->.
    apply (Htail _ _ _ Hs). intros t1 Ht1 Hk. exists t1.
    split; [rewrite placeholders_cons by done; by right|].
    exists (pre0, m). split; [done|]. cbn [snd]. congruence.
Qed.

(** X12. The exceptions of the scanner.  When [_split_query] fails, it is with
    [UnicodeDecodeError] (a name, or the text quoted in a message, cannot be
    decoded) or with one of four [ProgrammingError]s: incomplete placeholder
    with the first word from the [%(] on, for a match [%(]; incomplete
    placeholder [%], for a match of [%] and a space; unsupported
    placeholder with the text of the match, for a match that has no legal
    form; mixed placeholders, when a positional and a named placeholder both
    occur.  It raises nothing else: no [IndexError], no [KeyError]. *)
Theorem split_query_errors query encoding collapse e :
  _split_query query encoding collapse = Raise e →
  e = UnicodeDecodeError
  ∨ (∃ m w frag,
       m ∈ finditer query ∧ group0 m = b_pct_lparen ∧
       head (bytes_split (slice_from query (m_start m))) = Some w ∧
       decode encoding w = Some frag ∧
       e = ProgrammingError (msg_incomplete frag))
  ∨ (∃ m, m ∈ finditer query ∧ group0 m = b_pct_space ∧
          e = ProgrammingError msg_incomplete_percent)
  ∨ (∃ m got,
       m ∈ finditer query ∧ ¬ legal_form (group0 m) ∧
       decode encoding (group0 m) = Some got ∧
       e = ProgrammingError (msg_unsupported got))
  ∨ (e = ProgrammingError msg_mixed ∧
     ∃ m1 m2, m1 ∈ finditer query ∧ m2 ∈ finditer query ∧
              group0 m1 ≠ b_pct_pct ∧ group0 m2 ≠ b_pct_pct ∧
              ph_kind m1 = TyInt ∧ ph_kind m2 = TyStr).
Proof.
  rewrite split_query_scan. intros H.
  assert (∀ t, t ∈ tokens query → t.2 ∈ finditer query) as Hfind.
  { intros t Ht. rewrite <- tokens_snd. apply list_elem_of_fmap. by exists t. }
  destruct (scan_errors _ _ _ _ _ _ _ _ _ (tokens_in_query query) H)
    as [?|[(t & w & frag & Ht & ?)|[(t & Ht & ?)|[(t & got & Ht & ?)
        |(-> & t1 & Ht1 & t2 & Ht2 & Hk)]]]].
  - by left.
  - right; left. exists t.2, w, frag. split; [by apply Hfind|done].
  - right; right; left. exists t.2. split; [by apply Hfind|done].
  - right; right; right; left. exists t.2, got. split; [by apply Hfind|done].
  - right; right; right; right. split; [done|].
    apply list_elem_of_filter in Ht1 as [He1 Ht1].
    apply list_elem_of_filter in Ht2 as [He2 Ht2].
    apply Hfind in Ht1, Ht2. unfold is_escape in He1, He2.
    destruct (ph_kind t1.2) eqn:K1; destruct (ph_kind t2.2) eqn:K2; try done.
    + by exists t1.2, t2.2.
    + by exists t2.2, t1.2.
Qed.

(** ** The methods, step by step *)

Lemma PostgresQuery_dump_eq vars self c :
  PostgresQuery_dump (Some vars) (self, c)
  = match getattr "_parts" (self__parts self) with
    | Raise e => (Raise e, (self, c))
    | Ret parts =>
        match validate_and_reorder_params parts vars (self__order self) with
        | Raise e => (Raise e, (self, c))
        | Ret params =>
            match self__want_formats self with
            | None => (Raise AssertionError, (self, c))
            | Some want =>
                match dump_sequence params want with
                | Raise e => (Raise e, (self, c))
                | Ret (d, t, f) =>
                    (Ret (),
                     (set_formats f
                        (set_types (default [] t) (set_params (Some d) self)),
                      c))
                end
            end
        end
    end.
Proof.
  unfold PostgresQuery_dump. rewrite !M_bind_eq. unfold get_self, lift.
  cbn [fst snd].
  destruct (getattr _ _) as [parts|]; [|done]. rewrite !M_bind_eq.
  destruct (validate_and_reorder_params _ _ _) as [params|]; [|done].
  rewrite !M_bind_eq. destruct (self__want_formats self) as [want|]; [|done].
  rewrite !M_bind_eq. by destruct (dump_sequence _ _) as [[[d t] f]|].
Qed.

Lemma PostgresClientQuery_dump_eq vars self c :
  PostgresClientQuery_dump (Some vars) (self, c)
  = match getattr "_parts" (self__parts self) with
    | Raise e => (Raise e, (self, c))
    | Ret parts =>
        match validate_and_reorder_params parts vars (self__order self) with
        | Raise e => (Raise e, (self, c))
        | Ret params =>
            match mapM (λ p, if is_None p then Ret (B "NULL")
                             else as_literal p) params with
            | Raise e => (Raise e, (self, c))
            | Ret literals =>
                let self1 := set_params (Some (Some <$> literals)) self in
                match getattr "template" (self_template self) with
                | Raise e => (Raise e, (self1, c))
                | Ret template =>
                    match bytes_mod template literals with
                    | Raise e => (Raise e, (self1, c))
                    | Ret q => (Ret (), (set_query q self1, c))
                    end
                end
            end
        end
    end.
Proof.
  unfold PostgresClientQuery_dump. rewrite !M_bind_eq. unfold get_self, lift.
  cbn [fst snd].
  destruct (getattr _ (self__parts self)) as [parts|]; [|done].
  rewrite !M_bind_eq.
  destruct (validate_and_reorder_params _ _ _) as [params|]; [|done].
  rewrite !M_bind_eq. destruct (mapM _ params) as [literals|]; [|done].
  rewrite !M_bind_eq. unfold set_self at 1. cbn [fst snd]. rewrite !M_bind_eq.
  destruct (getattr _ (self_template self)) as [template|]; [|done].
  rewrite !M_bind_eq. by destruct (bytes_mod _ _) as [q|].
Qed.

Lemma PostgresQuery_convert_eq self c query bquery vars :
  reachable c →
  bquery_of (self__encoding self) query = Ret bquery →
  ∃ c1, reachable c1 ∧
    PostgresQuery_convert query (Some vars) (self, c)
    = match cacheable bquery vars with
      | Raise e => (Raise e, (self, c))
      | Ret _ =>
          match _query2pg_nocache bquery (self__encoding self) with
          | Raise e => (Raise e, (self, c1))
          | Ret (q, want, order, parts) =>
              PostgresQuery_dump (Some vars)
                (set__parts parts
                   (set__order order
                      (set__want_formats (Some want) (set_query q self))), c1)
          end
      end.
Proof.
  intros Hr Hb. unfold PostgresQuery_convert.
  rewrite M_bind_eq. unfold get_self at 1. cbn [fst snd].
  rewrite M_bind_eq. unfold lift at 1. rewrite Hb.
  rewrite M_bind_eq, M_bind_eq. unfold lift at 1.
  destruct (cacheable bquery vars) as [cached|e]; [|by exists c].
  rewrite M_bind_eq.
  assert (∃ c1, reachable c1 ∧
    (if cached then _query2pg bquery (self__encoding self)
     else lift (_query2pg_nocache bquery (self__encoding self))) (self, c)
    = (_query2pg_nocache bquery (self__encoding self), (self, c1)))
    as (c1 & Hr1 & ->).
  { destruct cached.
    - destruct (query2pg_cached bquery (self__encoding self) self c Hr)
        as (c1 & -> & ? & _).
      by exists c1.
    - by exists c. }
  exists c1. split; [done|].
  destruct (_query2pg_nocache bquery (self__encoding self))
    as [[[[q want] order] parts]|e]; [|done].
  unfold set_self at 1 2 3 4. rewrite !M_bind_eq. by cbn [fst snd].
Qed.

Lemma PostgresClientQuery_convert_eq self c query bquery vars :
  reachable c →
  bquery_of (self__encoding self) query = Ret bquery →
  ∃ c1, reachable c1 ∧
    PostgresClientQuery_convert query (Some vars) (self, c)
    = match cacheable bquery vars with
      | Raise e => (Raise e, (self, c))
      | Ret _ =>
          match _query2pg_client_nocache bquery (self__encoding self) with
          | Raise e => (Raise e, (self, c1))
          | Ret (template, order, parts) =>
              PostgresClientQuery_dump (Some vars)
                (set__parts parts
                   (set__order order (set_template template self)), c1)
          end
      end.
Proof.
  intros Hr Hb. unfold PostgresClientQuery_convert.
  rewrite M_bind_eq. unfold get_self at 1. cbn [fst snd].
  rewrite M_bind_eq. unfold lift at 1. rewrite Hb.
  rewrite M_bind_eq, M_bind_eq. unfold lift at 1.
  destruct (cacheable bquery vars) as [cached|e]; [|by exists c].
  rewrite M_bind_eq.
  assert (∃ c1, reachable c1 ∧
    (if cached then _query2pg_client bquery (self__encoding self)
     else lift (_query2pg_client_nocache bquery (self__encoding self)))
      (self, c)
    = (_query2pg_client_nocache bquery (self__encoding self), (self, c1)))
    as (c1 & Hr1 & ->).
  { destruct cached.
    - destruct (query2pg_client_cached bquery (self__encoding self) self c Hr)
        as (c1 & -> & ? & _).
      by exists c1.
    - by exists c. }
  exists c1. split; [done|].
  destruct (_query2pg_client_nocache bquery (self__encoding self))
    as [[[template order] parts]|e]; [|done].
  unfold set_self at 1 2 3. rewrite !M_bind_eq. by cbn [fst snd].
Qed.

Lemma convert_Ret_bquery self c query vars self1 c1 :
  PostgresQuery_convert query (Some vars) (self, c) = (Ret (), (self1, c1)) →
  ∃ bquery, bquery_of (self__encoding self) query = Ret bquery.
Proof.
  unfold PostgresQuery_convert.
  rewrite M_bind_eq. unfold get_self at 1. cbn [fst snd].
  rewrite M_bind_eq. unfold lift at 1.
  destruct (bquery_of _ _) as [bquery|]; [by eexists|done].
Qed.

Lemma client_convert_Ret_bquery self c query vars self1 c1 :
  PostgresClientQuery_convert query (Some vars) (self, c)
  = (Ret (), (self1, c1)) →
  ∃ bquery, bquery_of (self__encoding self) query = Ret bquery.
Proof.
  unfold PostgresClientQuery_convert.
  rewrite M_bind_eq. unfold get_self at 1. cbn [fst snd].
  rewrite M_bind_eq. unfold lift at 1.
  destruct (bquery_of _ _) as [bquery|]; [by eexists|done].
Qed.

(** ** New parameters for a converted query *)

(** X13. After a conversion that returned, [dump] with new parameters does what a
    conversion of the same query with these parameters does from the start:
    it returns or raises the same, and when it returns the object is the
    same (the query is not parsed again). *)
Theorem PostgresQuery_rebind self c query v1 v2 n self1 c1 :
  reachable c → len_params v2 = Ret n →
  PostgresQuery_convert query (Some v1) (self, c) = (Ret (), (self1, c1)) →
  (PostgresQuery_dump (Some v2) (self1, c1)).1
  = (PostgresQuery_convert query (Some v2) (self, c)).1 ∧
  ((PostgresQuery_dump (Some v2) (self1, c1)).1 = Ret () →
   (PostgresQuery_dump (Some v2) (self1, c1)).2.1
   = (PostgresQuery_convert query (Some v2) (self, c)).2.1).
Proof.
  intros Hr Hn Hc1.
  destruct (convert_Ret_bquery _ _ _ _ _ _ Hc1) as [bquery Hb].
  destruct (PostgresQuery_convert_eq self c query bquery v1 Hr Hb)
    as (ca & _ & Ha).
  rewrite Ha in Hc1. clear Ha.
  destruct (PostgresQuery_convert_eq self c query bquery v2 Hr Hb)
    as (cb & _ & ->).
  rewrite (cacheable_spec _ _ _ Hn).
  destruct (cacheable bquery v1); [|done].
  destruct (_query2pg_nocache bquery (self__encoding self))
    as [[[[q want] order] parts]|]; [|done].
  rewrite PostgresQuery_dump_eq in Hc1. rewrite !PostgresQuery_dump_eq.
  cbn [getattr self__parts self__order self__want_formats
       set__parts set__order set__want_formats set_query] in Hc1.
  destruct (validate_and_reorder_params parts v1 order); [|done].
  destruct (dump_sequence _ want) as [[[d1 t1] f1]|]; [|done].
  injection Hc1 as <- <-.
  cbn [getattr self__parts self__order self__want_formats
       set__parts set__order set__want_formats set_query
       set_formats set_types set_params].
  destruct (validate_and_reorder_params parts v2 order); [|done].
  by destruct (dump_sequence _ want) as [[[d2 t2] f2]|].
Qed.

(** X14. The same for a client-bind query: [dump] with new parameters merges
    them into the template of the converted query, as a conversion of the
    query with these parameters does. *)
Theorem PostgresClientQuery_rebind self c query v1 v2 n self1 c1 :
  reachable c → len_params v2 = Ret n →
  PostgresClientQuery_convert query (Some v1) (self, c)
  = (Ret (), (self1, c1)) →
  (PostgresClientQuery_dump (Some v2) (self1, c1)).1
  = (PostgresClientQuery_convert query (Some v2) (self, c)).1 ∧
  ((PostgresClientQuery_dump (Some v2) (self1, c1)).1 = Ret () →
   (PostgresClientQuery_dump (Some v2) (self1, c1)).2.1
   = (PostgresClientQuery_convert query (Some v2) (self, c)).2.1).
Proof.
  intros Hr Hn Hc1.
  destruct (client_convert_Ret_bquery _ _ _ _ _ _ Hc1) as [bquery Hb].
  destruct (PostgresClientQuery_convert_eq self c query bquery v1 Hr Hb)
    as (ca & _ & Ha).
  rewrite Ha in Hc1. clear Ha.
  destruct (PostgresClientQuery_convert_eq self c query bquery v2 Hr Hb)
    as (cb & _ & ->).
  rewrite (cacheable_spec _ _ _ Hn).
  destruct (cacheable bquery v1); [|done].
  destruct (_query2pg_client_nocache bquery (self__encoding self))
    as [[[template order] parts]|]; [|done].
  rewrite PostgresClientQuery_dump_eq in Hc1.
  rewrite !PostgresClientQuery_dump_eq.
  cbn [getattr self__parts self__order self_template
       set__parts set__order set_template] in Hc1.
  destruct (validate_and_reorder_params parts v1 order); [|done].
  destruct (mapM _ _) as [lit1|]; [|done]. cbn zeta in Hc1.
  destruct (bytes_mod template lit1) as [q1|]; [|done].
  injection Hc1 as <- <-.
  cbn [getattr self__parts self__order self_template
       set__parts set__order set_template set_query set_params].
  destruct (validate_and_reorder_params parts v2 order); [|done].
  destruct (mapM _ _) as [lit2|]; [|done]. cbn zeta.
  by destruct (bytes_mod template lit2) as [q2|].
Qed.

(** ** Parameters that are neither a sequence nor a mapping *)

(** X15. Conversion with parameters that are neither a sequence nor a mapping (a
    string, say) never returns and never assigns [params], [types] or
    [formats].  When the parameters have no length and the query is short
    enough to be cached, the [TypeError] of [len()] is raised and the object
    is untouched; otherwise the query is parsed first: a query that does not
    parse raises its own error, and one that parses is assigned to the object
    before validation raises [TypeError]. *)
Theorem convert_other_params self c query bquery t len r self' c' :
  reachable c →
  bquery_of (self__encoding self) query = Ret bquery →
  PostgresQuery_convert query (Some (POther t len)) (self, c)
  = (r, (self', c')) →
  self_params self' = self_params self ∧ self_types self' = self_types self ∧
  self_formats self' = self_formats self ∧
  if decide (len = None ∧ length bquery ≤ MAX_CACHED_STATEMENT_LENGTH)
  then r = Raise (TypeError (msg_no_len t)) ∧ self' = self ∧ c' = c
  else match _query2pg_nocache bquery (self__encoding self) with
       | Raise e => r = Raise e ∧ self' = self
       | Ret (rq, want, order, parts) =>
           r = Raise (TypeError (msg_bad_params t)) ∧
           self_query self' = rq ∧ self__want_formats self' = Some want ∧
           self__order self' = order ∧ self__parts self' = Some parts
       end.
Proof.
  intros Hr Hb.
  destruct (PostgresQuery_convert_eq self c query bquery (POther t len) Hr Hb)
    as (c1 & _ & ->).
  unfold cacheable. destruct (decide _) as [[-> Hlen]|Hno].
  - rewrite bool_decide_eq_true_2 by done. cbn [len_params mbind result_bind].
    by intros [= <- <- <-].
  - assert (∃ b, (if bool_decide (length bquery ≤ MAX_CACHED_STATEMENT_LENGTH)
                  then n ← len_params (POther t len);
                       Ret (bool_decide (n ≤ MAX_CACHED_STATEMENT_PARAMS))
                  else Ret false) = Ret b) as [b ->].
    { case_bool_decide as Hlen; [|by eexists].
      destruct len as [n|]; [by eexists|]. exfalso. by apply Hno. }
    destruct (_query2pg_nocache bquery (self__encoding self))
      as [[[[q want] order] parts]|e]; [|by intros [= <- <- <-]].
    rewrite PostgresQuery_dump_eq.
    cbn [getattr self__parts set__parts]. unfold validate_and_reorder_params.
    cbn [is_params_sequence mbind result_bind].
    by intros [= <- <- <-].
Qed.

(** ** [dump] on an object that has no parts *)

(** X16. [_parts] is assigned by a conversion with parameters only.  On an object
    where it was never assigned (a new one, or one converted without
    parameters), [dump] with parameters raises [AttributeError] and leaves
    the object as it is, for both classes; converting without parameters
    does not assign it. *)
Theorem dump_before_convert self c vars :
  self__parts self = None →
  PostgresQuery_dump (Some vars) (self, c)
  = (Raise (AttributeError "_parts"), (self, c)) ∧
  PostgresClientQuery_dump (Some vars) (self, c)
  = (Raise (AttributeError "_parts"), (self, c)) ∧
  (∀ query,
     self__parts (PostgresQuery_convert query None (self, c)).2.1 = None ∧
     self__parts (PostgresClientQuery_convert query None (self, c)).2.1 = None).
Proof.
  intros Hp. split_and!.
  - rewrite PostgresQuery_dump_eq. by rewrite Hp.
  - rewrite PostgresClientQuery_dump_eq. by rewrite Hp.
  - intros query. split.
    + unfold PostgresQuery_convert.
      rewrite M_bind_eq. unfold get_self at 1. cbn [fst snd].
      rewrite M_bind_eq. unfold lift at 1.
      by destruct (bquery_of _ _).
    + unfold PostgresClientQuery_convert.
      rewrite M_bind_eq. unfold get_self at 1. cbn [fst snd].
      rewrite M_bind_eq. unfold lift at 1.
      by destruct (bquery_of _ _).
Qed.

(** ** The matches of the regular expression *)

Lemma span_name_notin s : ∀ n r, span_name s = (n, r) → rparen ∉ n.
Proof.
  induction s as [|c s IH]; intros n r; simpl.
  - intros [= <- <-]. apply not_elem_of_nil.
  - case_bool_decide as Hc; [intros [= <- <-]; apply not_elem_of_nil|].
    destruct (span_name s) as [n' r'] eqn:E. intros [= <- <-].
    apply not_elem_of_cons. split; [done|]. by eapply IH.
Qed.

Lemma dot_newline c : dot c = true ↔ c ≠ newline.
Proof.
  unfold dot. by case_bool_decide as H; simpl; split.
Qed.

Lemma match_here_shape s g0 g1 :
  match_here s = Some (g0, g1) →
  (g1 = None ∧ ∃ c, c ≠ newline ∧ g0 = [pct; c])
  ∨ (∃ n f, g1 = Some n ∧ n ≠ [] ∧ (rparen ∉ n) ∧ f ≠ newline ∧
            g0 = [pct; lparen] ++ n ++ [rparen; f]).
Proof.
  unfold match_here. destruct s as [|p s]; [done|].
  case_bool_decide as Hp; [|done].
  destruct (match_named s) as [[n g]|] eqn:E.
  - intros [= <- <-]. right. unfold match_named in E.
    destruct s as [|c s]; [done|]. case_bool_decide; [|done].
    destruct (span_name s) as [n' [|r [|f rest]]] eqn:Es; try done.
    case_bool_decide as Hn; simpl in E; [|done].
    case_bool_decide as Hr; simpl in E; [|done].
    destruct (dot f) eqn:Hf; [|done]. injection E as <- <-.
    exists n', f. split_and!; try done.
    + by eapply span_name_notin.
    + by apply dot_newline.
  - destruct s as [|c s]; [done|]. destruct (dot c) eqn:Hc; [|done].
    intros [= <- <-]. left. split; [done|]. exists c.
    split; [by apply dot_newline|done].
Qed.

Lemma finditer_from_shape s :
  ∀ pos skip, Forall match_shape (finditer_from pos skip s).
Proof.
  induction s as [|c s IH]; intros pos skip; cbn [finditer_from];
    [constructor|].
  destruct skip as [|k]; [|apply IH].
  destruct (match_here (c :: s)) as [[g0 g1]|] eqn:E; [|apply IH].
  constructor; [|apply IH]. split; [done|].
  by apply (match_here_shape (c :: s)).
Qed.

(** X17. The matches [finditer] gives: each is [%] and one byte, or [%(name)] and
    one byte, this byte never a newline; they lie in the query from left to
    right without overlapping, each holding the bytes of its span. *)
Theorem regex_matches query :
  Forall match_shape (finditer query) ∧ chained query 0 (finditer query).
Proof.
  split; [apply finditer_from_shape|].
  apply (finditer_from_chained query query 0 0); [done|lia].
Qed.

Lemma match_here_None c s :
  match_here (c :: s) = None
  ↔ (c = pct → s !! 0 = None ∨ s !! 0 = Some newline).
Proof.
  unfold match_here. case_bool_decide as Hc; [|done].
  split.
  - intros H _. destruct (match_named s) as [[n g]|]; [done|].
    destruct s as [|d s]; [by left|]. right. simpl.
    destruct (dot d) eqn:Hd; [done|]. f_equal.
    destruct (decide (d = newline)) as [|Hn]; [done|].
    apply dot_newline in Hn. congruence.
  - intros H. destruct (H Hc) as [Hs|Hs].
    + destruct s; [done|]. done.
    + destruct s as [|d s]; [done|]. injection Hs as ->.
      unfold match_named. rewrite bool_decide_eq_false_2 by (intros H'; discriminate H').
      done.
Qed.

Lemma finditer_from_nil s :
  ∀ pos,
    finditer_from pos 0 s = []
    ↔ ∀ i, s !! i = Some pct →
           s !! S i = None ∨ s !! S i = Some newline.
Proof.
  induction s as [|c s IH]; intros pos; [done|]. cbn [finditer_from].
  destruct (match_here (c :: s)) as [[g0 g1]|] eqn:E.
  - split; [done|]. intros H. exfalso.
    assert (match_here (c :: s) = None) as E'; [|congruence].
    apply match_here_None. intros ->. apply (H 0). done.
  - rewrite IH. pose proof (proj1 (match_here_None c s) E) as Hc. split.
    + intros H [|i] Hi; [injection Hi as ->; by apply Hc|]. by apply (H i).
    + intros H i Hi. by apply (H (S i)).
Qed.

(** X18. The [%] the regular expression does not match.  A query has no match
    exactly when each of its [%] is followed by a newline or ends the query;
    such a query goes through both assemblers unchanged, the [%] left in
    it. *)
Theorem unmatched_percent query encoding :
  (finditer query = []
   ↔ ∀ i, query !! i = Some pct →
          query !! S i = None ∨ query !! S i = Some newline)
  ∧ (finditer query = [] →
     _query2pg_nocache query encoding
     = Ret (query, [], None, [mkQueryPart query (IInt 0) AUTO]) ∧
     _query2pg_client_nocache query encoding
     = Ret (query, None, [mkQueryPart query (IInt 0) AUTO])).
Proof.
  split; [apply finditer_from_nil|]. intros Hq.
  assert (∀ collapse, _split_query query encoding collapse
                      = Ret ([] ++ [mkQueryPart query (IInt 0) AUTO])) as Hs.
  { intros collapse. rewrite split_query_scan. unfold tokens, trailer.
    by rewrite Hq. }
  split.
  - by rewrite (query2pg_positional query encoding [] query (Hs true)).
  - by rewrite (query2pg_client_positional query encoding [] query (Hs false)).
Qed.

(** ** The exceptions of the assemblers *)

(** X19. An assembler fails only where the scanner fails, or, for the
    server-bind one, on a name that asks for two formats: the checks
    [assert isinstance(part.item, ...)] never fail and [parts[0]] and
    [parts[-1]] always exist. *)
Theorem assembler_errors query encoding e :
  (_query2pg_nocache query encoding = Raise e →
   _split_query query encoding true = Raise e
   ∨ ∃ parts n, _split_query query encoding true = Ret parts ∧
                named parts ∧ conflict (occurrences (but_last parts)) ∧
                e = ProgrammingError (msg_formats n))
  ∧ (_query2pg_client_nocache query encoding = Raise e →
     _split_query query encoding false = Raise e).
Proof.
  split; intros H.
  - destruct (_split_query query encoding true) as [parts|e'] eqn:Hs.
    2:{ left. unfold _query2pg_nocache in H. rewrite Hs in H.
        by injection H as ->. }
    right. destruct (split_query_parts _ _ _ _ Hs)
      as (body & lp & -> & [Hint|[Hne Hstr]] & _).
    { by rewrite (query2pg_positional _ _ _ _ Hs Hint) in H. }
    destruct (query2pg_named _ _ _ _ Hs Hne Hstr) as [Hc Hn].
    destruct (decide (conflict (occurrences body))) as [Hconf|Hconf].
    + destruct (Hc Hconf) as (n & f & _ & _ & Hr). rewrite Hr in H.
      injection H as <-. exists (body ++ [mkQueryPart lp (IInt 0) AUTO]), n.
      rewrite but_last_snoc. split_and!; [done| |done|done].
      by apply named_snoc.
    + destruct (Hn Hconf) as (fmts' & Hr & _). by rewrite Hr in H.
  - destruct (_split_query query encoding false) as [parts|e'] eqn:Hs.
    2:{ unfold _query2pg_client_nocache in H. rewrite Hs in H.
        by injection H as ->. }
    destruct (split_query_parts _ _ _ _ Hs)
      as (body & lp & -> & [Hint|[Hne Hstr]] & _).
    + by rewrite (query2pg_client_positional _ _ _ _ Hs Hint) in H.
    + by rewrite (query2pg_client_named _ _ _ _ Hs Hne Hstr) in H.
Qed.

(** ** A conversion that returns *)

(** X20. What a server-bind conversion with parameters leaves on the object when
    it returns: the rewritten query of the assembler, and what the
    transformer makes of the validated parameters with the formats of the
    assembler, [types] being [()] when the transformer has none. *)
Theorem PostgresQuery_convert_returns self c query vars self' c' :
  reachable c →
  PostgresQuery_convert query (Some vars) (self, c) = (Ret (), (self', c')) →
  ∃ bquery rq want order parts params dumped tx_types tx_formats,
    bquery_of (self__encoding self) query = Ret bquery ∧
    _query2pg_nocache bquery (self__encoding self)
    = Ret (rq, want, order, parts) ∧
    validate_and_reorder_params parts vars order = Ret params ∧
    dump_sequence params want = Ret (dumped, tx_types, tx_formats) ∧
    self' = mk_PostgresQuery rq (Some dumped) (default [] tx_types) tx_formats
              (Some want) order (Some parts) (self__encoding self)
              (self_template self).
Proof.
  intros Hr Hc.
  destruct (convert_Ret_bquery _ _ _ _ _ _ Hc) as [bquery Hb].
  destruct (PostgresQuery_convert_eq self c query bquery vars Hr Hb)
    as (c1 & _ & Heq).
  rewrite Heq in Hc. clear Heq.
  destruct (cacheable bquery vars); [|done].
  destruct (_query2pg_nocache bquery (self__encoding self))
    as [[[[q want] order] parts]|] eqn:Hpg; [|done].
  rewrite PostgresQuery_dump_eq in Hc.
  cbn [getattr self__parts self__order self__want_formats
       set__parts set__order set__want_formats set_query] in Hc.
  destruct (validate_and_reorder_params parts vars order) as [params|] eqn:Hv;
    [|done].
  destruct (dump_sequence params want) as [[[d t] f]|] eqn:Hd; [|done].
  injection Hc as <- <-.
  by exists bquery, q, want, order, parts, params, d, t, f.
Qed.

(** X21. What a client-bind conversion with parameters leaves on the object when
    it returns: [params] are the literals of the validated parameters,
    [NULL] for a parameter that is [None], and [query] is the template of
    the assembler formatted with them. *)
Theorem PostgresClientQuery_convert_returns self c query vars self' c' :
  reachable c →
  PostgresClientQuery_convert query (Some vars) (self, c)
  = (Ret (), (self', c')) →
  ∃ bquery template order parts params literals q,
    bquery_of (self__encoding self) query = Ret bquery ∧
    _query2pg_client_nocache bquery (self__encoding self)
    = Ret (template, order, parts) ∧
    validate_and_reorder_params parts vars order = Ret params ∧
    mapM (λ p, if is_None p then Ret (B "NULL") else as_literal p) params
    = Ret literals ∧
    bytes_mod template literals = Ret q ∧
    self' = mk_PostgresQuery q (Some (Some <$> literals)) (self_types self)
              (self_formats self) (self__want_formats self) order (Some parts)
              (self__encoding self) (Some template).
Proof.
  intros Hr Hc.
  destruct (client_convert_Ret_bquery _ _ _ _ _ _ Hc) as [bquery Hb].
  destruct (PostgresClientQuery_convert_eq self c query bquery vars Hr Hb)
    as (c1 & _ & Heq).
  rewrite Heq in Hc. clear Heq.
  destruct (cacheable bquery vars); [|done].
  destruct (_query2pg_client_nocache bquery (self__encoding self))
    as [[[template order] parts]|] eqn:Hpg; [|done].
  rewrite PostgresClientQuery_dump_eq in Hc.
  cbn [getattr self__parts self__order self_template
       set__parts set__order set_template] in Hc.
  destruct (validate_and_reorder_params parts vars order) as [params|] eqn:Hv;
    [|done].
  destruct (mapM _ params) as [literals|] eqn:Hl; [|done]. cbn zeta in Hc.
  destruct (bytes_mod template literals) as [q|] eqn:Hq; [|done].
  injection Hc as <- <-.
  by exists bquery, template, order, parts, params, literals, q.
Qed.

(** ** Positional parameters and markers *)

(** X22. Positional parameters follow the markers.  When the server-bind
    assembler has parsed a positional query and validation of a sequence
    returns, the [k]-th placeholder (from 0) is written [$k+1], the
    parameters are the sequence itself, one per placeholder, and the [k]-th
    format is the format of the [k]-th placeholder. *)
Theorem positional_values_follow_markers query encoding rq fmts parts
    (l : list V) params :
  _query2pg_nocache query encoding = Ret (rq, fmts, None, parts) →
  validate_and_reorder_params parts (PSeq l) None = Ret params →
  params = l ∧ length fmts = length l ∧
  rq = weave (pre <$> parts) (marker <$> seq 1 (length l)) ∧
  ∀ k p, but_last parts !! k = Some p →
         item p = IInt k ∧ fmts !! k = Some (format p).
Proof.
  intros Hpg Hval.
  pose proof (query2pg_nocache_inv _ _ _ _ _ _ Hpg) as Hsplit.
  destruct (split_query_parts _ _ _ _ Hsplit) as (body & lp & -> & _ & Hnum).
  destruct (query2pg_nocache_cases _ _ _ _ _ _ Hpg)
    as (body' & lp' & Heq & [(Hint & _ & -> & ->)|(_ & _ & _ & ? & _)]);
    [|done].
  apply app_inj_tail in Heq as [<- _].
  apply validate_seq_Ret in Hval as (-> & Hl & _).
  2:{ rewrite length_app. simpl. lia. }
  rewrite length_app in Hl. simpl in Hl.
  assert (length l = length body) as Hlen by lia.
  rewrite but_last_snoc, length_fmap, Hlen.
  assert (∀ k p, body !! k = Some p → item p = IInt k) as Hitems.
  { intros k p Hk. apply (Hnum k p Hk).
    by apply (proj1 (Forall_lookup _ _) Hint k p). }
  split_and!; [done..| |].
  - f_equal. apply (body_markers body 0). intros k p Hk. by apply Hitems.
  - intros k p Hk. split; [by apply Hitems|].
    by rewrite list_lookup_fmap, Hk.
Qed.

(** ** The caches, call after call *)

Lemma lru_call_again {K R} `{EqDecision K} (f : K → result R)
    (c : lru_cache K R) (k : K) r c1 :
  maxsize c = 128 → lru_call f c k = (Ret r, c1) →
  lru_call f c1 k
  = (Ret r, mk_lru (cache c1) (S (hits c1)) (misses c1) (maxsize c1)).
Proof.
  intros Hm Hcall.
  assert (∃ rest, cache c1 = (k, r) :: rest) as [rest Hc1].
  { unfold lru_call in Hcall.
    destruct (list_find _ (cache c)) as [[i [k' r']]|].
    - injection Hcall as <- <-. by eexists.
    - destruct (f k) as [r'|]; [|done]. injection Hcall as <- <-.
      cbn [cache]. rewrite Hm. by eexists. }
  unfold lru_call. rewrite Hc1. cbn [list_find fst].
  rewrite decide_True by done. cbn [delete]. done.
Qed.

(** X23. The cache behind [_query2pg] never holds more than 128 entries.  A call
    that returns is a hit when it is repeated: the same result comes back
    and the assembler is not run again; a call that raises stores
    nothing. *)
Theorem cached_twice query encoding self c r w1 :
  reachable c →
  _query2pg query encoding (self, c) = (r, w1) →
  length (cache (_query2pg_cache w1.2)) ≤ 128 ∧
  match r with
  | Ret x =>
      ∃ w2, _query2pg query encoding w1 = (Ret x, w2) ∧
            hits (_query2pg_cache w2.2) = S (hits (_query2pg_cache w1.2)) ∧
            misses (_query2pg_cache w2.2) = misses (_query2pg_cache w1.2)
  | Raise _ => cache (_query2pg_cache w1.2) = cache (_query2pg_cache c)
  end.
Proof.
  intros Hr Hcall.
  destruct (reachable_bound c Hr) as [[Hm Hl] _].
  pose proof (lru_call_bound (λ k, _query2pg_nocache k.1 k.2)
                (_query2pg_cache c) (query, encoding) Hm Hl) as [_ Hb].
  unfold _query2pg in Hcall. cbn [fst snd] in Hcall.
  destruct (lru_call _ (_query2pg_cache c) _) as [r' c1] eqn:E.
  injection Hcall as <- <-. cbn [fst snd _query2pg_cache]. cbn [snd] in Hb.
  split; [done|]. destruct r' as [x|e].
  - unfold _query2pg. cbn [fst snd _query2pg_cache _query2pg_client_cache].
    rewrite (lru_call_again _ _ _ _ _ Hm E). by eexists.
  - unfold lru_call in E.
    destruct (list_find _ (cache (_query2pg_cache c))) as [[i [k' r']]|];
      [done|].
    destruct (_query2pg_nocache _ _); [done|]. by injection E as _ <-.
Qed.

End Queries.

(** * The scenarios of the specification, on the ASCII instance *)

Example scenario_A_server :
  _query2pg_nocache ascii_decode scenario_A "ascii"
  = Ret (B "SELECT * FROM t WHERE a = $1 AND b = $2", [AUTO; AUTO], None,
         parts_of ascii_decode scenario_A "ascii" true).
Proof. by vm_compute. Qed.

Example scenario_B_server :
  _query2pg_nocache ascii_decode scenario_B "ascii"
  = Ret (B "SELECT $1, $1, $2", [AUTO; TEXT], Some ["a"; "b"],
         parts_of ascii_decode scenario_B "ascii" true).
Proof. by vm_compute. Qed.

Example scenario_B_client :
  _query2pg_client_nocache ascii_decode scenario_B "ascii"
  = Ret (B "SELECT %s, %s, %s", Some ["a"; "a"; "b"],
         parts_of ascii_decode scenario_B "ascii" false).
Proof. by vm_compute. Qed.

Example scenario_E_client :
  _query2pg_client_nocache ascii_decode scenario_E "ascii"
  = Ret (B "100%% done: %s", None, parts_of ascii_decode scenario_E "ascii" false).
Proof. by vm_compute. Qed.

Example conflicting_formats :
  _query2pg_nocache ascii_decode (B "SELECT %(a)s, %(a)t") "ascii"
  = Raise (ProgrammingError "placeholder 'a' cannot have different formats").
Proof. by vm_compute. Qed.

(** The theorems at the scenarios. *)

Lemma positional_markers_witness :
  positional_only scenario_A ∧
  _query2pg_nocache ascii_decode scenario_A "ascii"
  = Ret (B "SELECT * FROM t WHERE a = $1 AND b = $2", [AUTO; AUTO], None,
         parts_of ascii_decode scenario_A "ascii" true).
Proof.
  assert (positional_only scenario_A) as H.
  { apply (bool_decide_unpack _). by vm_compute. }
  split; [exact H|].
  destruct (positional_markers ascii_decode scenario_A "ascii" H)
    as (parts & Hs & _ & _ & Hq & _).
  rewrite Hq. unfold parts_of. rewrite Hs. by vm_compute.
Defined.

Lemma named_markers_witness :
  _split_query ascii_decode scenario_B "ascii" true
  = Ret (parts_of ascii_decode scenario_B "ascii" true) ∧
  named (parts_of ascii_decode scenario_B "ascii" true) ∧
  ∃ fmts,
    _query2pg_nocache ascii_decode scenario_B "ascii"
    = Ret (B "SELECT $1, $1, $2", fmts, Some ["a"; "b"],
           parts_of ascii_decode scenario_B "ascii" true).
Proof.
  assert (_split_query ascii_decode scenario_B "ascii" true
          = Ret (parts_of ascii_decode scenario_B "ascii" true)) as H1.
  { by vm_compute. }
  assert (named (parts_of ascii_decode scenario_B "ascii" true)) as H2.
  { eexists. split; by vm_compute. }
  split; [exact H1|]. split; [exact H2|].
  destruct (named_markers ascii_decode scenario_B "ascii" _ H1 H2)
    as (_ & Hn & _).
  destruct Hn as (fmts & Hq & _).
  { unfold conflict. apply (bool_decide_unpack _). by vm_compute. }
  exists fmts. rewrite Hq. by vm_compute.
Defined.

Lemma named_orders_witness :
  _split_query ascii_decode scenario_B "ascii" false
  = Ret (parts_of ascii_decode scenario_B "ascii" false) ∧
  named (parts_of ascii_decode scenario_B "ascii" false) ∧
  _query2pg_client_nocache ascii_decode scenario_B "ascii"
  = Ret (B "SELECT %s, %s, %s", Some ["a"; "a"; "b"],
         parts_of ascii_decode scenario_B "ascii" false).
Proof.
  assert (_split_query ascii_decode scenario_B "ascii" false
          = Ret (parts_of ascii_decode scenario_B "ascii" false)) as H1.
  { by vm_compute. }
  assert (named (parts_of ascii_decode scenario_B "ascii" false)) as H2.
  { eexists. split; by vm_compute. }
  split; [exact H1|]. split; [exact H2|].
  destruct (named_orders ascii_decode scenario_B "ascii" _ H1 H2) as (Hq & _).
  rewrite Hq. by vm_compute.
Defined.

Lemma escape_collapse_witness :
  _query2pg_nocache ascii_decode scenario_E "ascii"
  = Ret (B "100% done: $1", [AUTO], None,
         parts_of ascii_decode scenario_E "ascii" true) ∧
  pre <$> parts_of ascii_decode scenario_E "ascii" true
  = [B "100% done: "; []].
Proof.
  assert (_query2pg_nocache ascii_decode scenario_E "ascii"
          = Ret (B "100% done: $1", [AUTO], None,
                 parts_of ascii_decode scenario_E "ascii" true)) as H.
  { by vm_compute. }
  split; [exact H|].
  destruct (escape_collapse ascii_decode scenario_E "ascii") as (Hs & _).
  destruct (Hs _ _ _ _ H) as (Hpre & _).
  rewrite Hpre. by vm_compute.
Defined.

Lemma mapping_for_positional_witness :
  _split_query ascii_decode scenario_C "ascii" true
  = Ret (parts_of ascii_decode scenario_C "ascii" true) ∧
  positional (parts_of ascii_decode scenario_C "ascii" true) ∧
  validate_and_reorder_params Z (parts_of ascii_decode scenario_C "ascii" true)
    (PMap Z {["x" := 1%Z]}) None
  = Raise (TypeError "positional placeholders (%s) require a sequence of parameters").
Proof.
  assert (_split_query ascii_decode scenario_C "ascii" true
          = Ret (parts_of ascii_decode scenario_C "ascii" true)) as H1.
  { by vm_compute. }
  assert (positional (parts_of ascii_decode scenario_C "ascii" true)) as H2.
  { split; [vm_compute; lia|]. eexists. split; by vm_compute. }
  split; [exact H1|]. split; [exact H2|].
  destruct (mapping_for_positional ascii_decode Z scenario_C "ascii" true _
              {["x" := 1%Z]} None H1 H2) as (Hm & _).
  apply Hm. apply insert_non_empty.
Defined.

(** C6, as the specification states it, fails on the empty mapping: the
    query of scenario C has one positional placeholder, and validation of
    the empty mapping returns the empty sequence. *)
Lemma mapping_for_positional_counterexample :
  _query2pg_nocache ascii_decode scenario_C "ascii"
  = Ret (B "INSERT INTO t VALUES ($1)", [AUTO], None,
         parts_of ascii_decode scenario_C "ascii" true) ∧
  positional (parts_of ascii_decode scenario_C "ascii" true) ∧
  validate_and_reorder_params Z (parts_of ascii_decode scenario_C "ascii" true)
    (PMap Z ∅) None = Ret [] ∧
  validate_and_reorder_params Z (parts_of ascii_decode scenario_C "ascii" true)
    (PMap Z ∅) None ≠ Raise (TypeError msg_need_sequence).
Proof.
  split_and!.
  - by vm_compute.
  - split; [vm_compute; lia|]. eexists. split; by vm_compute.
  - by vm_compute.
  - by vm_compute.
Qed.

Lemma sequence_params_witness :
  _split_query ascii_decode scenario_A "ascii" true
  = Ret (parts_of ascii_decode scenario_A "ascii" true) ∧
  validate_and_reorder_params Z (parts_of ascii_decode scenario_A "ascii" true)
    (PSeq Z [1%Z; 2%Z]) None = Ret [1%Z; 2%Z] ∧
  validate_and_reorder_params Z (parts_of ascii_decode scenario_A "ascii" true)
    (PSeq Z [1%Z]) None
  = Raise (ProgrammingError
             "the query has 2 placeholders but 1 parameters were passed").
Proof.
  assert (_split_query ascii_decode scenario_A "ascii" true
          = Ret (parts_of ascii_decode scenario_A "ascii" true)) as H1.
  { by vm_compute. }
  split; [exact H1|]. split.
  - destruct (sequence_params ascii_decode Z scenario_A "ascii" true _
                [1%Z; 2%Z] None H1) as (_ & _ & H).
    apply H; [by vm_compute|]. right. intros (p0 & Hp0 & Hty).
    vm_compute in Hp0. injection Hp0 as <-. by vm_compute in Hty.
  - destruct (sequence_params ascii_decode Z scenario_A "ascii" true _
                [1%Z] None H1) as (H & _).
    rewrite H; [by vm_compute|]. by vm_compute.
Defined.

Lemma mapping_params_witness :
  ((∃ rq fmts, _query2pg_nocache ascii_decode scenario_D "ascii"
               = Ret (rq, fmts, Some ["a"],
                      parts_of ascii_decode scenario_D "ascii" true))
   ∨ (∃ tpl, _query2pg_client_nocache ascii_decode scenario_D "ascii"
             = Ret (tpl, Some ["a"],
                    parts_of ascii_decode scenario_D "ascii" true))) ∧
  validate_and_reorder_params Z (parts_of ascii_decode scenario_D "ascii" true)
    (PMap Z ∅) (Some ["a"])
  = Raise (ProgrammingError "query parameter missing: a") ∧
  validate_and_reorder_params Z (parts_of ascii_decode scenario_D "ascii" true)
    (PMap Z {["a" := 7%Z]}) (Some ["a"])
  = Ret [7%Z].
Proof.
  assert ((∃ rq fmts, _query2pg_nocache ascii_decode scenario_D "ascii"
                      = Ret (rq, fmts, Some ["a"],
                             parts_of ascii_decode scenario_D "ascii" true))
          ∨ (∃ tpl, _query2pg_client_nocache ascii_decode scenario_D "ascii"
                    = Ret (tpl, Some ["a"],
                           parts_of ascii_decode scenario_D "ascii" true)))
    as H.
  { left. eexists _, _. by vm_compute. }
  split; [exact H|]. split.
  - destruct (mapping_params ascii_decode Z scenario_D "ascii" ["a"] _ ∅ H)
      as (_ & Hmiss & _).
    destruct Hmiss as (missing & -> & _ & Hperm).
    { exists "a". split; [left|done]. }
    vm_compute in Hperm. apply Permutation_singleton_r in Hperm as ->.
    by vm_compute.
  - destruct (mapping_params ascii_decode Z scenario_D "ascii" ["a"] _
                {["a" := 7%Z]} H) as (Hall & _).
    destruct Hall as (params & -> & Hf).
    { intros n Hn. apply list_elem_of_singleton in Hn as ->.
      rewrite lookup_singleton_eq. by eexists. }
    apply Forall2_cons_inv_l in Hf as (v & ps & Hv & Hnil & ->).
    apply Forall2_nil_inv_l in Hnil as ->.
    rewrite lookup_singleton_eq in Hv. by injection Hv as <-.
Defined.

Lemma cached_conversion_witness :
  reachable ascii_decode caches_new ∧
  bquery_of Empty_set ascii_encode no_as_bytes "ascii"
    (QBytes Empty_set scenario_A) = Ret scenario_A ∧
  len_params Z (PSeq Z [1%Z; 2%Z]) = Ret 2 ∧
  (_query2pg ascii_decode scenario_A "ascii" (__init__ "ascii", caches_new)).1
  = _query2pg_nocache ascii_decode scenario_A "ascii" ∧
  (∀ r self' c',
     PostgresQuery_convert ascii_decode Z Empty_set ascii_encode no_as_bytes
       int_dump_sequence (QBytes Empty_set scenario_A) (Some (PSeq Z [1%Z; 2%Z]))
       (__init__ "ascii", caches_new) = (r, (self', c')) →
     calls (_query2pg_cache c') = 1 ∧
     _query2pg_client_cache c' = _query2pg_client_cache caches_new ∧
     self_query self' = B "SELECT * FROM t WHERE a = $1 AND b = $2" ∧
     hits (_query2pg_cache c') = 0 ∧ misses (_query2pg_cache c') = 1 ∧
     head (cache (_query2pg_cache c'))
     = Some ((scenario_A, "ascii"),
             (B "SELECT * FROM t WHERE a = $1 AND b = $2", [AUTO; AUTO], None,
              parts_of ascii_decode scenario_A "ascii" true)) ∧
     ∀ r2 self2 c2,
       PostgresQuery_convert ascii_decode Z Empty_set ascii_encode no_as_bytes
         int_dump_sequence (QBytes Empty_set scenario_A)
         (Some (PSeq Z [3%Z; 4%Z])) (self', c') = (r2, (self2, c2)) →
       hits (_query2pg_cache c2) = 1 ∧ misses (_query2pg_cache c2) = 1).
Proof.
  assert (bquery_of Empty_set ascii_encode no_as_bytes
            (self__encoding (__init__ "ascii")) (QBytes Empty_set scenario_A)
          = Ret scenario_A) as Hb by reflexivity.
  assert (len_params Z (PSeq Z [1%Z; 2%Z]) = Ret 2) as Hn by reflexivity.
  pose proof (cached_conversion ascii_decode Z Empty_set ascii_encode
                no_as_bytes int_dump_sequence int_is_None int_literal
                percent_format (__init__ "ascii") caches_new
                (QBytes Empty_set scenario_A) scenario_A (PSeq Z [1%Z; 2%Z]) 2
                (reach_new ascii_decode) Hb Hn) as H.
  cbn zeta in H. destruct H as (_ & _ & Hc & _ & Hs & _).
  split_and!; [apply reach_new|exact Hb|exact Hn|exact Hc|].
  intros r self' c' Hconv.
  destruct (Hs r self' c' Hconv)
    as (_ & Hcl & Hcalls & _ & Hparsed & Hmemo & Hagain).
  change (self__encoding (__init__ "ascii")) with "ascii"
    in Hparsed, Hmemo, Hagain.
  assert (length scenario_A ≤ MAX_CACHED_STATEMENT_LENGTH
          ∧ 2 ≤ MAX_CACHED_STATEMENT_PARAMS) as Hcond.
  { split; vm_compute; lia. }
  rewrite scenario_A_server in Hparsed. destruct Hparsed as (Hq & _).
  destruct (Hmemo Hcond) as (_ & Hmiss & Hst).
  cbn [fst snd] in Hst. rewrite scenario_A_server in Hst.
  destruct Hmiss as [Hh Hm].
  { intros x Hx. by apply elem_of_nil in Hx. }
  split_and!; [by rewrite Hcalls|done|done|by rewrite Hh|by rewrite Hm|done|].
  intros r2 self2 c2 H2.
  destruct (Hagain Hcond _ (PSeq Z [3%Z; 4%Z]) 2 r2 self2 c2
              scenario_A_server eq_refl) as (Hh2 & Hm2 & _).
  { vm_compute. lia. }
  { exact H2. }
  rewrite Hh2, Hm2, Hh, Hm. done.
Defined.

Lemma convert_without_params_witness :
  bquery_of Empty_set ascii_encode no_as_bytes "ascii"
    (QBytes Empty_set (B "SELECT 10 % 3, %(x")) = Ret (B "SELECT 10 % 3, %(x") ∧
  ∃ self',
    PostgresQuery_convert ascii_decode Z Empty_set ascii_encode no_as_bytes
      int_dump_sequence (QBytes Empty_set (B "SELECT 10 % 3, %(x")) None
      (__init__ "ascii", caches_new) = (Ret (), (self', caches_new)) ∧
    self_query self' = B "SELECT 10 % 3, %(x" ∧ self_params self' = None ∧
    self_types self' = [] ∧ self_formats self' = None.
Proof.
  assert (bquery_of Empty_set ascii_encode no_as_bytes
            (self__encoding (__init__ "ascii"))
            (QBytes Empty_set (B "SELECT 10 % 3, %(x"))
          = Ret (B "SELECT 10 % 3, %(x")) as Hb by reflexivity.
  split; [exact Hb|].
  exact (proj1 (convert_without_params ascii_decode Z Empty_set ascii_encode
                  no_as_bytes int_dump_sequence int_is_None int_literal
                  percent_format (__init__ "ascii") caches_new _ _ Hb)).
Defined.

(** * The further properties at concrete inputs *)

Lemma query_without_percent_witness :
  (pct ∉ B "SELECT 1") ∧
  _query2pg_nocache ascii_decode (B "SELECT 1") "ascii"
  = Ret (B "SELECT 1", [], None, [mkQueryPart (B "SELECT 1") (IInt 0) AUTO]).
Proof.
  assert (pct ∉ B "SELECT 1") as H.
  { apply (bool_decide_unpack _). by vm_compute. }
  split; [exact H|].
  exact (proj1 (query_without_percent ascii_decode (B "SELECT 1") "ascii" H)).
Defined.

Lemma split_query_invariant_witness :
  _split_query ascii_decode scenario_B "ascii" true
  = Ret (parts_of ascii_decode scenario_B "ascii" true) ∧
  length (parts_of ascii_decode scenario_B "ascii" true) = 4 ∧
  format <$> but_last (parts_of ascii_decode scenario_B "ascii" true)
  = [AUTO; AUTO; TEXT].
Proof.
  assert (_split_query ascii_decode scenario_B "ascii" true
          = Ret (parts_of ascii_decode scenario_B "ascii" true)) as H.
  { by vm_compute. }
  split; [exact H|].
  destruct (split_query_invariant ascii_decode scenario_B "ascii" true _ H)
    as (Hlen & _ & _ & _ & Hf).
  split; [rewrite Hlen; by vm_compute|rewrite Hf; by vm_compute].
Defined.

Lemma name_order_invariant_witness :
  _query2pg_nocache ascii_decode scenario_B "ascii"
  = Ret (B "SELECT $1, $1, $2", [AUTO; TEXT], Some ["a"; "b"],
         parts_of ascii_decode scenario_B "ascii" true) ∧
  NoDup ["a"; "b"] ∧ length [AUTO; TEXT] = length ["a"; "b"].
Proof.
  assert (_query2pg_nocache ascii_decode scenario_B "ascii"
          = Ret (B "SELECT $1, $1, $2", [AUTO; TEXT], Some ["a"; "b"],
                 parts_of ascii_decode scenario_B "ascii" true)) as H.
  { by vm_compute. }
  split; [exact H|].
  destruct (proj1 (name_order_invariant ascii_decode scenario_B "ascii")
              _ _ _ _ H) as (_ & _ & Hn).
  destruct (Hn _ eq_refl) as (_ & Hnd & Hlen). by split.
Defined.

Lemma params_match_formats_witness :
  _query2pg_nocache ascii_decode scenario_A "ascii"
  = Ret (B "SELECT * FROM t WHERE a = $1 AND b = $2", [AUTO; AUTO], None,
         parts_of ascii_decode scenario_A "ascii" true) ∧
  validate_and_reorder_params Z (parts_of ascii_decode scenario_A "ascii" true)
    (PSeq Z [1%Z; 2%Z]) None = Ret [1%Z; 2%Z] ∧
  length [1%Z; 2%Z] = length [AUTO; AUTO].
Proof.
  assert (_query2pg_nocache ascii_decode scenario_A "ascii"
          = Ret (B "SELECT * FROM t WHERE a = $1 AND b = $2", [AUTO; AUTO],
                 None, parts_of ascii_decode scenario_A "ascii" true)) as H1.
  { by vm_compute. }
  assert (validate_and_reorder_params Z
            (parts_of ascii_decode scenario_A "ascii" true)
            (PSeq Z [1%Z; 2%Z]) None = Ret [1%Z; 2%Z]) as H2.
  { by vm_compute. }
  split_and!; [exact H1|exact H2|].
  apply (params_match_formats ascii_decode Z _ _ _ _ _ _ _ _ H1 H2).
  by left.
Defined.

Lemma params_match_markers_witness :
  _query2pg_client_nocache ascii_decode scenario_A "ascii"
  = Ret (scenario_A, None, parts_of ascii_decode scenario_A "ascii" false) ∧
  validate_and_reorder_params Z (parts_of ascii_decode scenario_A "ascii" false)
    (PSeq Z [1%Z; 2%Z]) None = Ret [1%Z; 2%Z] ∧
  scenario_A
  = weave (pre <$> parts_of ascii_decode scenario_A "ascii" false)
          [b_pct_s; b_pct_s].
Proof.
  assert (_query2pg_client_nocache ascii_decode scenario_A "ascii"
          = Ret (scenario_A, None,
                 parts_of ascii_decode scenario_A "ascii" false)) as H1.
  { by vm_compute. }
  assert (validate_and_reorder_params Z
            (parts_of ascii_decode scenario_A "ascii" false)
            (PSeq Z [1%Z; 2%Z]) None = Ret [1%Z; 2%Z]) as H2.
  { by vm_compute. }
  split_and!; [exact H1|exact H2|].
  apply (params_match_markers ascii_decode Z _ _ _ _ _ _ _ H1 H2).
  by left.
Defined.

Lemma params_without_placeholders_witness :
  _query2pg_nocache ascii_decode (B "SELECT 1") "ascii"
  = Ret (B "SELECT 1", [], None, [mkQueryPart (B "SELECT 1") (IInt 0) AUTO]) ∧
  validate_and_reorder_params Z [mkQueryPart (B "SELECT 1") (IInt 0) AUTO]
    (PSeq Z [5%Z]) None
  = Raise (ProgrammingError
             "the query has 0 placeholders but 1 parameters were passed") ∧
  validate_and_reorder_params Z [mkQueryPart (B "SELECT 1") (IInt 0) AUTO]
    (PMap Z {["a" := 5%Z]}) None = Ret [].
Proof.
  assert (_query2pg_nocache ascii_decode (B "SELECT 1") "ascii"
          = Ret (B "SELECT 1", [], None,
                 [mkQueryPart (B "SELECT 1") (IInt 0) AUTO])) as H.
  { by vm_compute. }
  split; [exact H|].
  destruct (params_without_placeholders ascii_decode Z (B "SELECT 1") "ascii"
              None [mkQueryPart (B "SELECT 1") (IInt 0) AUTO]) as [Hm Hs].
  { left. by eexists _, _. }
  { done. }
  split; [|apply Hm]. rewrite Hs. by vm_compute.
Defined.

Lemma mapping_extra_keys_witness :
  _query2pg_nocache ascii_decode scenario_D "ascii"
  = Ret (B "SELECT $1", [AUTO], Some ["a"],
         parts_of ascii_decode scenario_D "ascii" true) ∧
  validate_and_reorder_params Z (parts_of ascii_decode scenario_D "ascii" true)
    (PMap Z {["a" := 7%Z]}) (Some ["a"])
  = validate_and_reorder_params Z (parts_of ascii_decode scenario_D "ascii" true)
      (PMap Z (<["z" := 9%Z]> {["a" := 7%Z]})) (Some ["a"]).
Proof.
  assert (_query2pg_nocache ascii_decode scenario_D "ascii"
          = Ret (B "SELECT $1", [AUTO], Some ["a"],
                 parts_of ascii_decode scenario_D "ascii" true)) as H.
  { by vm_compute. }
  split; [exact H|].
  apply (mapping_extra_keys ascii_decode Z scenario_D "ascii" ["a"]).
  - left. by eexists _, _.
  - intros n Hn. apply list_elem_of_singleton in Hn as ->.
    by rewrite lookup_insert_ne.
Defined.

Lemma named_values_follow_markers_witness :
  _query2pg_nocache ascii_decode scenario_B "ascii"
  = Ret (B "SELECT $1, $1, $2", [AUTO; TEXT], Some ["a"; "b"],
         parts_of ascii_decode scenario_B "ascii" true) ∧
  validate_and_reorder_params Z (parts_of ascii_decode scenario_B "ascii" true)
    (PMap Z (<["b" := 2%Z]> {["a" := 1%Z]})) (Some ["a"; "b"])
  = Ret [1%Z; 2%Z] ∧
  B "SELECT $1, $1, $2"
  = weave (pre <$> parts_of ascii_decode scenario_B "ascii" true)
          (named_marker ["a"; "b"]
             <$> but_last (parts_of ascii_decode scenario_B "ascii" true)).
Proof.
  assert (_query2pg_nocache ascii_decode scenario_B "ascii"
          = Ret (B "SELECT $1, $1, $2", [AUTO; TEXT], Some ["a"; "b"],
                 parts_of ascii_decode scenario_B "ascii" true)) as H1.
  { by vm_compute. }
  assert (validate_and_reorder_params Z
            (parts_of ascii_decode scenario_B "ascii" true)
            (PMap Z (<["b" := 2%Z]> {["a" := 1%Z]})) (Some ["a"; "b"])
          = Ret [1%Z; 2%Z]) as H2.
  { by vm_compute. }
  split_and!; [exact H1|exact H2|].
  exact (proj1 (named_values_follow_markers ascii_decode Z _ _ _ _ _ _ _ _
                  H1 H2)).
Defined.

Lemma positional_values_follow_markers_witness :
  _query2pg_nocache ascii_decode scenario_A "ascii"
  = Ret (B "SELECT * FROM t WHERE a = $1 AND b = $2", [AUTO; AUTO], None,
         parts_of ascii_decode scenario_A "ascii" true) ∧
  validate_and_reorder_params Z (parts_of ascii_decode scenario_A "ascii" true)
    (PSeq Z [1%Z; 2%Z]) None = Ret [1%Z; 2%Z] ∧
  B "SELECT * FROM t WHERE a = $1 AND b = $2"
  = weave (pre <$> parts_of ascii_decode scenario_A "ascii" true)
          [marker 1; marker 2].
Proof.
  assert (_query2pg_nocache ascii_decode scenario_A "ascii"
          = Ret (B "SELECT * FROM t WHERE a = $1 AND b = $2", [AUTO; AUTO],
                 None, parts_of ascii_decode scenario_A "ascii" true)) as H1.
  { by vm_compute. }
  assert (validate_and_reorder_params Z
            (parts_of ascii_decode scenario_A "ascii" true)
            (PSeq Z [1%Z; 2%Z]) None = Ret [1%Z; 2%Z]) as H2.
  { by vm_compute. }
  split_and!; [exact H1|exact H2|].
  destruct (positional_values_follow_markers ascii_decode Z _ _ _ _ _ _ _
              H1 H2) as (_ & _ & Hrq & _).
  exact Hrq.
Defined.

Lemma client_template_witness :
  _query2pg_client_nocache ascii_decode scenario_E "ascii"
  = Ret (B "100%% done: %s", None,
         parts_of ascii_decode scenario_E "ascii" false) ∧
  B "100%% done: %s" = render_client (tokens scenario_E) (trailer scenario_E).
Proof.
  assert (_query2pg_client_nocache ascii_decode scenario_E "ascii"
          = Ret (B "100%% done: %s", None,
                 parts_of ascii_decode scenario_E "ascii" false)) as H.
  { by vm_compute. }
  split; [exact H|].
  exact (proj1 (client_template ascii_decode _ _ _ _ _ H)).
Defined.

Lemma split_query_errors_witness :
  _split_query ascii_decode (B "SELECT %(a") "ascii" true
  = Raise (ProgrammingError "incomplete placeholder: '%(a'") ∧
  ∃ m, m ∈ finditer (B "SELECT %(a") ∧ group0 m = b_pct_lparen.
Proof.
  assert (_split_query ascii_decode (B "SELECT %(a") "ascii" true
          = Raise (ProgrammingError "incomplete placeholder: '%(a'")) as H.
  { by vm_compute. }
  split; [exact H|].
  destruct (split_query_errors ascii_decode _ _ _ _ H)
    as [He|[(m & w & frag & Hm & Hg & _)
       |[(m & _ & _ & He)|[(m & got & Hm & _ & Hd & He)|(He & _)]]]].
  - discriminate He.
  - by exists m.
  - discriminate He.
  - exfalso. injection He as He. unfold msg_unsupported in He. discriminate He.
  - discriminate He.
Defined.

Lemma unmatched_percent_witness :
  finditer (B "SELECT 50%") = [] ∧
  _query2pg_nocache ascii_decode (B "SELECT 50%") "ascii"
  = Ret (B "SELECT 50%", [], None,
         [mkQueryPart (B "SELECT 50%") (IInt 0) AUTO]).
Proof.
  assert (finditer (B "SELECT 50%") = []) as H by (by vm_compute).
  split; [exact H|].
  exact (proj1 (proj2 (unmatched_percent ascii_decode (B "SELECT 50%") "ascii")
                  H)).
Defined.

Lemma assembler_errors_witness :
  _query2pg_client_nocache ascii_decode (B "SELECT % FROM t") "ascii"
  = Raise (ProgrammingError msg_incomplete_percent) ∧
  _split_query ascii_decode (B "SELECT % FROM t") "ascii" false
  = Raise (ProgrammingError msg_incomplete_percent).
Proof.
  assert (_query2pg_client_nocache ascii_decode (B "SELECT % FROM t") "ascii"
          = Raise (ProgrammingError msg_incomplete_percent)) as H.
  { by vm_compute. }
  split; [exact H|].
  exact (proj2 (assembler_errors ascii_decode _ _ _) H).
Defined.

Lemma PostgresQuery_rebind_witness :
  ∃ self1 c1,
    PostgresQuery_convert ascii_decode Z Empty_set ascii_encode no_as_bytes
      int_dump_sequence (QBytes Empty_set scenario_C) (Some (PSeq Z [1%Z]))
      (__init__ "ascii", caches_new) = (Ret (), (self1, c1)) ∧
    (PostgresQuery_dump Z int_dump_sequence (Some (PSeq Z [2%Z; 3%Z]))
       (self1, c1)).1
    = (PostgresQuery_convert ascii_decode Z Empty_set ascii_encode no_as_bytes
         int_dump_sequence (QBytes Empty_set scenario_C)
         (Some (PSeq Z [2%Z; 3%Z])) (__init__ "ascii", caches_new)).1.
Proof.
  set (w := PostgresQuery_convert ascii_decode Z Empty_set ascii_encode
              no_as_bytes int_dump_sequence (QBytes Empty_set scenario_C)
              (Some (PSeq Z [1%Z])) (__init__ "ascii", caches_new)).
  assert (w = (Ret (), (w.2.1, w.2.2))) as H by (by vm_compute).
  exists w.2.1, w.2.2. split; [exact H|].
  exact (proj1 (PostgresQuery_rebind ascii_decode Z Empty_set ascii_encode
                  no_as_bytes int_dump_sequence (__init__ "ascii") caches_new
                  (QBytes Empty_set scenario_C) (PSeq Z [1%Z])
                  (PSeq Z [2%Z; 3%Z]) 2 w.2.1 w.2.2
                  (reach_new ascii_decode) eq_refl H)).
Defined.

Lemma PostgresClientQuery_rebind_witness :
  ∃ self1 c1,
    PostgresClientQuery_convert ascii_decode Z Empty_set ascii_encode
      no_as_bytes int_is_None int_literal percent_format
      (QBytes Empty_set scenario_C) (Some (PSeq Z [1%Z]))
      (__init__ "ascii", caches_new) = (Ret (), (self1, c1)) ∧
    (PostgresClientQuery_dump Z int_is_None int_literal percent_format
       (Some (PSeq Z [2%Z])) (self1, c1)).1
    = (PostgresClientQuery_convert ascii_decode Z Empty_set ascii_encode
         no_as_bytes int_is_None int_literal percent_format
         (QBytes Empty_set scenario_C) (Some (PSeq Z [2%Z]))
         (__init__ "ascii", caches_new)).1.
Proof.
  set (w := PostgresClientQuery_convert ascii_decode Z Empty_set ascii_encode
              no_as_bytes int_is_None int_literal percent_format
              (QBytes Empty_set scenario_C) (Some (PSeq Z [1%Z]))
              (__init__ "ascii", caches_new)).
  assert (w = (Ret (), (w.2.1, w.2.2))) as H by (by vm_compute).
  exists w.2.1, w.2.2. split; [exact H|].
  exact (proj1 (PostgresClientQuery_rebind ascii_decode Z Empty_set
                  ascii_encode no_as_bytes int_is_None int_literal
                  percent_format (__init__ "ascii") caches_new
                  (QBytes Empty_set scenario_C) (PSeq Z [1%Z])
                  (PSeq Z [2%Z]) 1 w.2.1 w.2.2
                  (reach_new ascii_decode) eq_refl H)).
Defined.

Lemma convert_other_params_witness :
  ∃ r self' c',
    PostgresQuery_convert ascii_decode Z Empty_set ascii_encode no_as_bytes
      int_dump_sequence (QBytes Empty_set scenario_C)
      (Some (POther Z "str" (Some 3))) (__init__ "ascii", caches_new)
    = (r, (self', c')) ∧
    r = Raise (TypeError (msg_bad_params "str")) ∧
    self_query self' = B "INSERT INTO t VALUES ($1)" ∧
    self_params self' = None.
Proof.
  set (w := PostgresQuery_convert ascii_decode Z Empty_set ascii_encode
              no_as_bytes int_dump_sequence (QBytes Empty_set scenario_C)
              (Some (POther Z "str" (Some 3))) (__init__ "ascii", caches_new)).
  assert (w = (w.1, (w.2.1, w.2.2))) as H by (by destruct w as [? [? ?]]).
  exists w.1, w.2.1, w.2.2. split; [exact H|].
  destruct (convert_other_params ascii_decode Z Empty_set ascii_encode
              no_as_bytes int_dump_sequence (__init__ "ascii") caches_new
              (QBytes Empty_set scenario_C) scenario_C "str" (Some 3)
              w.1 w.2.1 w.2.2 (reach_new ascii_decode) eq_refl H)
    as (Hp & _ & _ & Hcase).
  destruct (decide _) as [[Hlen _]|_] in Hcase; [discriminate Hlen|].
  assert (_query2pg_nocache ascii_decode scenario_C "ascii"
          = Ret (B "INSERT INTO t VALUES ($1)", [AUTO], None,
                 parts_of ascii_decode scenario_C "ascii" true)) as Hpg.
  { by vm_compute. }
  change (self__encoding (__init__ "ascii")) with "ascii" in Hcase.
  rewrite Hpg in Hcase. destruct Hcase as (Hr & Hq & _).
  split_and!; [exact Hr|exact Hq|by rewrite Hp].
Defined.

Lemma dump_before_convert_witness :
  self__parts (__init__ "ascii") = None ∧
  PostgresQuery_dump Z int_dump_sequence (Some (PSeq Z [1%Z]))
    (__init__ "ascii", caches_new)
  = (Raise (AttributeError "_parts"), (__init__ "ascii", caches_new)).
Proof.
  split; [reflexivity|].
  exact (proj1 (dump_before_convert ascii_decode Z Empty_set ascii_encode
                  no_as_bytes int_dump_sequence int_is_None int_literal
                  percent_format (__init__ "ascii") caches_new
                  (PSeq Z [1%Z]) eq_refl)).
Defined.

Lemma PostgresQuery_convert_returns_witness :
  ∃ self' c',
    PostgresQuery_convert ascii_decode Z Empty_set ascii_encode no_as_bytes
      int_dump_sequence (QBytes Empty_set scenario_C) (Some (PSeq Z [7%Z]))
      (__init__ "ascii", caches_new) = (Ret (), (self', c')) ∧
    self_query self' = B "INSERT INTO t VALUES ($1)" ∧
    self_params self' = Some [Some (B "7")] ∧
    self_types self' = [20%Z].
Proof.
  set (w := PostgresQuery_convert ascii_decode Z Empty_set ascii_encode
              no_as_bytes int_dump_sequence (QBytes Empty_set scenario_C)
              (Some (PSeq Z [7%Z])) (__init__ "ascii", caches_new)).
  assert (w = (Ret (), (w.2.1, w.2.2))) as H by (by vm_compute).
  exists w.2.1, w.2.2. split; [exact H|].
  destruct (PostgresQuery_convert_returns ascii_decode Z Empty_set
              ascii_encode no_as_bytes int_dump_sequence (__init__ "ascii")
              caches_new (QBytes Empty_set scenario_C) (PSeq Z [7%Z])
              w.2.1 w.2.2 (reach_new ascii_decode) H)
    as (bquery & rq & want & order & parts & params & d & t & f
        & Hb & Hpg & Hv & Hd & ->).
  injection Hb as <-.
  vm_compute in Hpg. injection Hpg as <- <- <- <-.
  vm_compute in Hv. injection Hv as <-.
  vm_compute in Hd. injection Hd as <- <- <-.
  by vm_compute.
Defined.

Lemma PostgresClientQuery_convert_returns_witness :
  ∃ self' c',
    PostgresClientQuery_convert ascii_decode Z Empty_set ascii_encode
      no_as_bytes int_is_None int_literal percent_format
      (QBytes Empty_set scenario_C) (Some (PSeq Z [7%Z]))
      (__init__ "ascii", caches_new) = (Ret (), (self', c')) ∧
    self_query self' = B "INSERT INTO t VALUES (7)" ∧
    self_params self' = Some [Some (B "7")].
Proof.
  set (w := PostgresClientQuery_convert ascii_decode Z Empty_set ascii_encode
              no_as_bytes int_is_None int_literal percent_format
              (QBytes Empty_set scenario_C) (Some (PSeq Z [7%Z]))
              (__init__ "ascii", caches_new)).
  assert (w = (Ret (), (w.2.1, w.2.2))) as H by (by vm_compute).
  exists w.2.1, w.2.2. split; [exact H|].
  destruct (PostgresClientQuery_convert_returns ascii_decode Z Empty_set
              ascii_encode no_as_bytes int_is_None int_literal percent_format
              (__init__ "ascii") caches_new (QBytes Empty_set scenario_C)
              (PSeq Z [7%Z]) w.2.1 w.2.2 (reach_new ascii_decode) H)
    as (bquery & template & order & parts & params & literals & q
        & Hb & Hpg & Hv & Hl & Hq & ->).
  injection Hb as <-.
  vm_compute in Hpg. injection Hpg as <- <- <-.
  vm_compute in Hv. injection Hv as <-.
  vm_compute in Hl. injection Hl as <-.
  vm_compute in Hq. injection Hq as <-.
  by vm_compute.
Defined.

Lemma cached_twice_witness :
  ∃ x w1 w2,
    _query2pg ascii_decode scenario_A "ascii" (__init__ "ascii", caches_new)
    = (Ret x, w1) ∧
    _query2pg ascii_decode scenario_A "ascii" w1 = (Ret x, w2) ∧
    hits (_query2pg_cache w2.2) = 1 ∧ misses (_query2pg_cache w2.2) = 1.
Proof.
  set (w := _query2pg ascii_decode scenario_A "ascii"
              (__init__ "ascii", caches_new)).
  assert (w = (Ret (B "SELECT * FROM t WHERE a = $1 AND b = $2",
                    [AUTO; AUTO], None,
                    parts_of ascii_decode scenario_A "ascii" true), w.2)) as H.
  { by vm_compute. }
  destruct (cached_twice ascii_decode scenario_A "ascii" (__init__ "ascii")
              caches_new _ _ (reach_new ascii_decode) H)
    as (_ & w2 & H2 & Hh & Hm).
  eexists _, w.2, w2. split_and!; [exact H|exact H2| |].
  - rewrite Hh. by vm_compute.
  - rewrite Hm. by vm_compute.
Defined.
